(** * Workbook/grid interchange engine: unit, colour, font and style codecs,
      document reader and writer.

    A shallow embedding of the pure helpers of the spreadsheet editor
    component ([toFixedNumber], [ptToPx], [pxToPt], [parseCssFontSize],
    [buildFontFamily], [xlsxColorToCSS], [cssColorToXlsx], [cssToXlsxStyle],
    [parseStyleString], [mergeStyleStrings], [cssToExcelStyle],
    [extractDataAndStyles], [dataToExcelBuffer]) together with the
    properties stated about them.

    Conventions of the embedding.
    - A JavaScript string is a list of code units; only code units below 256
      are represented ([ascii]), read as Latin-1.
    - A JavaScript Number is a binary64 value: NaN, an infinity, or a finite
      rational.  Arithmetic computes the exact rational result and rounds it
      to the nearest binary64 (ties to even, gradual underflow, overflow to
      infinity), as IEEE 754 prescribes.  The sign of zero is not tracked;
      no function below inspects it.
    - [null] and [undefined] results of the helpers are [None].
    - A plain object used as a dictionary is an association list kept in the
      order in which JavaScript enumerates own properties. *)

From Stdlib Require Import ZArith QArith Qround Qabs Qreduction Qpower.
From Stdlib Require Import List Ascii Bool Lia Lqa.
From Stdlib Require String SpecFloat.
Import ListNotations String.StringSyntax.

Set Implicit Arguments.
Set Warnings "-register-all".
Close Scope Q_scope.

(* ================================================================= *)
(** * Part I: the embedding *)
(* ================================================================= *)

(* ----------------------------------------------------------------- *)
(** ** Strings *)

Definition jsstring := list ascii.

(** String literals of the source. *)
Definition str (s : String.string) : jsstring := String.list_ascii_of_string s.
Delimit Scope string_scope with string.
Arguments str s%_string.

(** The double-quote and single-quote characters. *)
Definition dquote : ascii := ascii_of_nat 34.
Definition squote : ascii := ascii_of_nat 39.

(** A fallback entry such as ['"Inter"'] : the name between double quotes. *)
Definition quoted (s : jsstring) : jsstring := dquote :: s ++ [dquote].

Definition code (c : ascii) : nat := nat_of_ascii c.

(** WhiteSpace and LineTerminator code units below 256: TAB, LF, VT, FF, CR,
    SPACE and NO-BREAK SPACE.  This is the set removed by [trim] and matched
    by the regular expression class [\s]. *)
Definition isWhiteSpace (c : ascii) : bool :=
  let n := code c in
  ((9 <=? n) && (n <=? 13)) || (n =? 32) || (n =? 160).

Fixpoint trimStart (s : jsstring) : jsstring :=
  match s with
  | c :: rest => if isWhiteSpace c then trimStart rest else s
  | [] => []
  end.

Definition trimEnd (s : jsstring) : jsstring := rev (trimStart (rev s)).

(** [String.prototype.trim]. *)
Definition trim (s : jsstring) : jsstring := trimEnd (trimStart s).

(** [/\s/.test(s)]. *)
Definition hasWhiteSpace (s : jsstring) : bool := existsb isWhiteSpace s.

(** [s.split(sep)] for a one-character separator: never empty, the empty
    string splits into one empty piece. *)
Fixpoint split (sep : ascii) (s : jsstring) : list jsstring :=
  match s with
  | [] => [[]]
  | c :: rest =>
      if Ascii.eqb c sep then [] :: split sep rest
      else match split sep rest with
           | h :: t => (c :: h) :: t
           | [] => [[c]]
           end
  end.

(** [parts.join(sep)]. *)
Fixpoint join (sep : jsstring) (parts : list jsstring) : jsstring :=
  match parts with
  | [] => []
  | [p] => p
  | p :: rest => p ++ sep ++ join sep rest
  end.

Fixpoint startsWith (prefix s : jsstring) : bool :=
  match prefix, s with
  | [], _ => true
  | p :: prefix', c :: s' => Ascii.eqb p c && startsWith prefix' s'
  | _ :: _, [] => false
  end.

Definition endsWith (suffix s : jsstring) : bool :=
  startsWith (rev suffix) (rev s).

Definition jsstring_eqb (a b : jsstring) : bool :=
  if list_eq_dec ascii_dec a b then true else false.

(** Case mapping of one code unit.  Lower-casing is the Latin-1 one.
    Upper-casing maps the ASCII and Latin-1 small letters; the three code
    units whose upper-case form lies outside Latin-1 or is longer than one
    unit (181, 223, 255) are left as they are. *)
Definition lowerChar (c : ascii) : ascii :=
  let n := code c in
  if ((65 <=? n) && (n <=? 90)) || ((192 <=? n) && (n <=? 222) && negb (n =? 215))
  then ascii_of_nat (n + 32) else c.

Definition upperChar (c : ascii) : ascii :=
  let n := code c in
  if ((97 <=? n) && (n <=? 122)) || ((224 <=? n) && (n <=? 254) && negb (n =? 247))
  then ascii_of_nat (n - 32) else c.

Definition toLowerCase (s : jsstring) : jsstring := map lowerChar s.
Definition toUpperCase (s : jsstring) : jsstring := map upperChar s.

(** [s.slice(n)] for [n >= 0] and [s.slice(-n)] for [n > 0]. *)
Definition slice_from (n : nat) (s : jsstring) : jsstring := skipn n s.
Definition slice_last (n : nat) (s : jsstring) : jsstring :=
  skipn (length s - n) s.

(** [s.padStart(n, c)] with a one-character filler. *)
Definition padStart (n : nat) (c : ascii) (s : jsstring) : jsstring :=
  repeat c (n - length s) ++ s.

(** [s.replace(c, '')] with a string pattern: the first occurrence only. *)
Fixpoint removeFirst (c : ascii) (s : jsstring) : jsstring :=
  match s with
  | [] => []
  | x :: rest => if Ascii.eqb x c then rest else x :: removeFirst c rest
  end.

(** Truthiness of a string: non-empty. *)
Definition truthy (s : jsstring) : bool :=
  match s with [] => false | _ :: _ => true end.

(* ----------------------------------------------------------------- *)
(** ** Numbers *)

Open Scope Q_scope.

Inductive number :=
| NaN
| Inf (negative : bool)
| Fin (q : Q).

Definition two_pow (e : Z) : Q := Qpower 2 e.

(** [ilog2 x] is the integer [k] with [2^k <= |x| < 2^(k+1)], for [x <> 0]. *)
Definition ilog2 (x : Q) : Z :=
  let k := (Z.log2 (Z.abs (Qnum x)) - Z.log2 (Zpos (Qden x)))%Z in
  if Qle_bool (two_pow k) (Qabs x) then k else (k - 1)%Z.

(** Nearest integer, ties to the even one. *)
Definition roundTiesToEven (t : Q) : Z :=
  let f := Qfloor t in
  match Qcompare (t - inject_Z f) (1 # 2) with
  | Lt => f
  | Gt => (f + 1)%Z
  | Eq => if Z.even f then f else (f + 1)%Z
  end.

(** Exponent of the unit in the last place of the binary64 nearest to [x]:
    53 significant bits, and no finer than [2^-1074]. *)
Definition binary64_exponent (x : Q) : Z :=
  (Z.max (ilog2 x) (-1022) - 52)%Z.

Definition round_binary64 (x : Q) : Q :=
  let e := binary64_exponent x in
  inject_Z (roundTiesToEven (x / two_pow e)) * two_pow e.

Definition Qnegative (q : Q) : bool := negb (Qle_bool 0 q).

(** The Number value for the real [x]. *)
Definition toNumber (x : Q) : number :=
  let r := round_binary64 x in
  if Qle_bool (two_pow 1024) (Qabs r) then Inf (Qnegative x) else Fin (Qred r).

(** [a * b]. *)
Definition mul (a b : number) : number :=
  match a, b with
  | NaN, _ | _, NaN => NaN
  | Inf s, Inf t => Inf (xorb s t)
  | Inf s, Fin q | Fin q, Inf s =>
      if Qeq_bool q 0 then NaN else Inf (xorb s (Qnegative q))
  | Fin p, Fin q => toNumber (p * q)
  end.

(** [a / b]. *)
Definition div (a b : number) : number :=
  match a, b with
  | NaN, _ | _, NaN => NaN
  | Inf _, Inf _ => NaN
  | Inf s, Fin q => Inf (xorb s (Qnegative q))
  | Fin _, Inf _ => Fin 0
  | Fin p, Fin q =>
      if Qeq_bool q 0
      then (if Qeq_bool p 0 then NaN else Inf (Qnegative p))
      else toNumber (p / q)
  end.

Definition Number_isFinite (x : number) : bool :=
  match x with Fin _ => true | _ => false end.

Definition Number_isNaN (x : number) : bool :=
  match x with NaN => true | _ => false end.

(** [Math.round]: the nearest integer, a tie going to the larger one. *)
Definition Math_round (x : number) : number :=
  match x with
  | Fin q => Fin (inject_Z (Qfloor (q + (1 # 2))))
  | _ => x
  end.

(* ----------------------------------------------------------------- *)
(** ** Unit codec *)

Definition PX_PER_POINT : number := div (Fin 4) (Fin 3).
Definition PT_PER_PX : number := div (Fin 1) PX_PER_POINT.

(** [toFixedNumber(value, decimals = 2)]; every caller uses the default
    [decimals], for which [10 ** decimals] is 100. *)
Definition toFixedNumber (value : number) : option number :=
  if negb (Number_isFinite value) then None
  else
    let factor := Fin 100 in
    Some (div (Math_round (mul value factor)) factor).

Definition ptToPx (sizePt : number) : option number :=
  if negb (Number_isFinite sizePt) then None
  else toFixedNumber (mul sizePt PX_PER_POINT).

Definition pxToPt (sizePx : number) : option number :=
  if negb (Number_isFinite sizePx) then None
  else toFixedNumber (mul sizePx PT_PER_PX).

(** [pxToPt(ptToPx(p))]; a [null] from [ptToPx] is not finite, so [pxToPt]
    returns [null] for it. *)
Definition pointsRoundTrip (p : number) : option number :=
  match ptToPx p with
  | Some px => pxToPt px
  | None => None
  end.

Close Scope Q_scope.

(* ----------------------------------------------------------------- *)
(** ** Numeric literals: [parseFloat] and [Number] on strings *)

Definition isDigit (c : ascii) : bool :=
  let n := code c in (48 <=? n) && (n <=? 57).

Definition digitValue (c : ascii) : Z := Z.of_nat (code c - 48).

(** The longest prefix of decimal digits, and what follows it. *)
Fixpoint spanDigits (s : jsstring) : jsstring * jsstring :=
  match s with
  | c :: rest =>
      if isDigit c
      then let (d, r) := spanDigits rest in (c :: d, r)
      else ([], s)
  | [] => ([], [])
  end.

Definition digitsValue (ds : jsstring) : Z :=
  fold_left (fun acc c => (acc * 10 + digitValue c)%Z) ds 0%Z.

(** What a StrUnsignedDecimalLiteral denotes: [Infinity], or
    [mantissa * 10^exponent10]. *)
Inductive literal :=
| LitInfinity
| LitDecimal (mantissa : Z) (exponent10 : Z).

(** An optional ExponentPart; when none is well formed nothing is consumed. *)
Definition scanExponent (s : jsstring) : Z * jsstring :=
  match s with
  | c :: rest =>
      if Ascii.eqb c "e" || Ascii.eqb c "E" then
        let (sign, rest') :=
          match rest with
          | d :: r => if Ascii.eqb d "+" then (1%Z, r)
                      else if Ascii.eqb d "-" then ((-1)%Z, r)
                      else (1%Z, rest)
          | [] => (1%Z, rest)
          end in
        match spanDigits rest' with
        | ([], _) => (0%Z, s)
        | (ds, r) => ((sign * digitsValue ds)%Z, r)
        end
      else (0%Z, s)
  | [] => (0%Z, s)
  end.

(** The longest prefix that is a StrUnsignedDecimalLiteral. *)
Definition scanUnsignedDecimal (s : jsstring) : option (literal * jsstring) :=
  if startsWith (str "Infinity") s then Some (LitInfinity, skipn 8 s)
  else
    let (ip, r1) := spanDigits s in
    let noPoint :=
      match ip with
      | [] => None
      | _ :: _ => let (e, r4) := scanExponent r1 in
                  Some (LitDecimal (digitsValue ip) e, r4)
      end in
    match r1 with
    | c :: r2 =>
        if Ascii.eqb c "." then
          let (fp, r3) := spanDigits r2 in
          match ip, fp with
          | [], [] => None
          | _, _ =>
              let (e, r4) := scanExponent r3 in
              Some (LitDecimal (digitsValue (ip ++ fp))
                               (e - Z.of_nat (length fp))%Z, r4)
          end
        else noPoint
    | [] => noPoint
    end.

(** The longest prefix that is a StrDecimalLiteral: an optional sign, then an
    unsigned literal. *)
Definition scanDecimal (s : jsstring) : option (bool * literal * jsstring) :=
  let (negative, body) :=
    match s with
    | c :: rest => if Ascii.eqb c "-" then (true, rest)
                   else if Ascii.eqb c "+" then (false, rest)
                   else (false, s)
    | [] => (false, s)
    end in
  match scanUnsignedDecimal body with
  | Some (l, rest) => Some (negative, l, rest)
  | None => None
  end.

Definition literalValue (negative : bool) (l : literal) : number :=
  match l with
  | LitInfinity => Inf negative
  | LitDecimal m e =>
      toNumber ((if negative then - inject_Z m else inject_Z m) * Qpower 10 e)
  end.

(** [parseFloat(s)]: leading white space is skipped, the longest decimal
    literal prefix is read, anything after it is ignored. *)
Definition parseFloat (s : jsstring) : number :=
  match scanDecimal (trimStart s) with
  | Some (negative, l, _) => literalValue negative l
  | None => NaN
  end.

Definition hexDigitValue (c : ascii) : option Z :=
  let n := code c in
  if (48 <=? n) && (n <=? 57) then Some (Z.of_nat (n - 48))
  else if (65 <=? n) && (n <=? 70) then Some (Z.of_nat (n - 55))
  else if (97 <=? n) && (n <=? 102) then Some (Z.of_nat (n - 87))
  else None.

(** The value of a non-empty digit string in the given radix. *)
Definition radixDigits (radix : Z) (s : jsstring) : option Z :=
  match s with
  | [] => None
  | _ :: _ =>
      fold_left
        (fun acc c =>
           match acc, hexDigitValue c with
           | Some a, Some d => if (d <? radix)%Z then Some (a * radix + d)%Z else None
           | _, _ => None
           end)
        s (Some 0%Z)
  end.

(** NonDecimalIntegerLiteral: [0x], [0o] and [0b] literals, unsigned. *)
Definition scanNonDecimal (t : jsstring) : option Z :=
  match t with
  | z :: p :: ds =>
      if Ascii.eqb z "0" then
        if Ascii.eqb p "x" || Ascii.eqb p "X" then radixDigits 16 ds
        else if Ascii.eqb p "o" || Ascii.eqb p "O" then radixDigits 8 ds
        else if Ascii.eqb p "b" || Ascii.eqb p "B" then radixDigits 2 ds
        else None
      else None
  | _ => None
  end.

(** [Number(s)] for a string: the whole trimmed string must be a numeric
    literal; the empty string is 0. *)
Definition StringToNumber (s : jsstring) : number :=
  match trim s with
  | [] => Fin 0
  | t =>
      match scanNonDecimal t with
      | Some v => toNumber (inject_Z v)
      | None =>
          match scanDecimal t with
          | Some (negative, l, []) => literalValue negative l
          | _ => NaN
          end
      end
  end.

Definition parseCssFontSize (value : jsstring) : option number :=
  if negb (truthy value) then None
  else
    let normalized := trim value in
    let numeric := parseFloat normalized in
    if Number_isNaN numeric then None
    else
      let isPt := endsWith (str "pt") (toLowerCase normalized) in
      if isPt then ptToPx numeric else Some numeric.

(* ----------------------------------------------------------------- *)
(** ** Font resolution *)

Definition FONT_FALLBACKS : list (jsstring * list jsstring) :=
  [ (str "Calibri",
     [quoted (str "Carlito"); quoted (str "Inter"); quoted (str "Noto Sans");
      quoted (str "Helvetica Neue"); str "Arial"; str "sans-serif"]);
    (str "Segoe UI",
     [quoted (str "Inter"); quoted (str "Noto Sans");
      quoted (str "Helvetica Neue"); str "Arial"; str "sans-serif"]) ].

Definition DEFAULT_FONT_FALLBACKS : list jsstring :=
  [quoted (str "Inter"); quoted (str "Noto Sans");
   quoted (str "Helvetica Neue"); str "Arial"; str "sans-serif"].

Definition isQuote (c : ascii) : bool :=
  Ascii.eqb c squote || Ascii.eqb c dquote.

Definition stripLeadingQuote (s : jsstring) : jsstring :=
  match s with
  | c :: rest => if isQuote c then rest else s
  | [] => []
  end.

Definition stripTrailingQuote (s : jsstring) : jsstring :=
  match rev s with
  | c :: rest => if isQuote c then rev rest else s
  | [] => []
  end.

(** [name.replace(/^['"]|['"]$/g, '').trim()]: one quote is removed at the
    start, one at the end of what remains, then white space is trimmed. *)
Definition normalizeFontName (name : jsstring) : jsstring :=
  trim (stripTrailingQuote (stripLeadingQuote name)).

(** Members every object literal inherits from [Object.prototype]:
    [FONT_FALLBACKS[k]] finds them when [k] is not an own key. *)
Definition objectPrototypeKeys : list jsstring :=
  map str
    [ "constructor"; "hasOwnProperty"; "isPrototypeOf"; "propertyIsEnumerable";
      "toLocaleString"; "toString"; "valueOf"; "__proto__";
      "__defineGetter__"; "__defineSetter__"; "__lookupGetter__";
      "__lookupSetter__" ]%string.

Inductive result (A : Type) :=
| Ok (v : A)
| TypeError.
Arguments Ok {A} v.
Arguments TypeError {A}.

Fixpoint assoc {A : Type} (k : jsstring) (l : list (jsstring * A)) : option A :=
  match l with
  | [] => None
  | (k', v) :: rest => if jsstring_eqb k k' then Some v else assoc k rest
  end.

(** [FONT_FALLBACKS[primary] || DEFAULT_FONT_FALLBACKS].  An inherited member
    is truthy and is not iterable, so spreading it throws. *)
Definition fallbacksFor (primary : jsstring) : result (list jsstring) :=
  match assoc primary FONT_FALLBACKS with
  | Some chain => Ok chain
  | None =>
      if existsb (jsstring_eqb primary) objectPrototypeKeys then TypeError
      else Ok DEFAULT_FONT_FALLBACKS
  end.

(** The [filter] callback of [buildFontFamily] with its [seen] set: a part is
    kept when its lower-cased text has not been seen before. *)
Fixpoint dedupe (seen : list jsstring) (parts : list jsstring) : list jsstring :=
  match parts with
  | [] => []
  | part :: rest =>
      let key := toLowerCase part in
      if existsb (jsstring_eqb key) seen then dedupe seen rest
      else part :: dedupe (key :: seen) rest
  end.

Definition primaryFont (name : jsstring) : jsstring :=
  let n := normalizeFontName name in
  if truthy n then n else str "Segoe UI".

Definition primaryToken (primary : jsstring) : jsstring :=
  if hasWhiteSpace primary then quoted primary else primary.

(** The array [buildFontFamily] joins. *)
Definition fontFamilyParts (name : jsstring) : result (list jsstring) :=
  let primary := primaryFont name in
  match fallbacksFor primary with
  | TypeError => TypeError
  | Ok fallbacks => Ok (dedupe [] (primaryToken primary :: fallbacks))
  end.

Definition buildFontFamily (name : jsstring) : result jsstring :=
  match fontFamilyParts name with
  | TypeError => TypeError
  | Ok parts => Ok (join (str ", ") parts)
  end.

(* ----------------------------------------------------------------- *)
(** ** Colour codec *)

(** The colour object of the xlsx library, read through [rgb] and [RGB]. *)
Record xlsxColor := { rgb : option jsstring; RGB : option jsstring }.

(** [a || b] on two optional strings. *)
Definition orElse (a b : option jsstring) : option jsstring :=
  match a with
  | Some s => if truthy s then a else b
  | None => b
  end.

Definition xlsxColorToCSS (color : option xlsxColor) : option jsstring :=
  match color with
  | None => None
  | Some c =>
      match orElse (rgb c) (RGB c) with
      | None => None
      | Some v =>
          if negb (truthy v) then None
          else
            let hex := if length v =? 8 then slice_from 2 v else v in
            Some ("#"%char :: slice_last 6 hex)
      end
  end.

Definition cssColorToXlsx (color : jsstring) : option xlsxColor :=
  if negb (truthy color) then None
  else
    let normalized := trim color in
    let normalized :=
      if startsWith (str "#") normalized then slice_from 1 normalized
      else normalized in
    let normalized :=
      if length normalized =? 3
      then concat (map (fun ch => [ch; ch]) normalized)
      else normalized in
    if negb (length normalized =? 6) then None
    else Some {| rgb := Some (str "FF" ++ toUpperCase normalized); RGB := None |}.

(** The ExcelJS colour: [{ argb }]. *)
Record excelColor := { argb : jsstring }.

(** The expression [`FF${css.replace('#', '').padStart(6, '0').toUpperCase()}`]
    that [cssToExcelStyle] uses for [color] and for [background-color]. *)
Definition excelArgb (css : jsstring) : jsstring :=
  str "FF" ++ toUpperCase (padStart 6 "0" (removeFirst "#" css)).

(** [excelColorToCss]. *)
Definition excelColorToCss (color : jsstring) : option jsstring :=
  if negb (truthy color) then None
  else Some ("#"%char :: slice_last 6 color).

(* ----------------------------------------------------------------- *)
(** ** Plain objects used as dictionaries *)

(** Own enumerable properties with string values, in the order of
    [Object.entries]: array-index keys first, in ascending numeric order,
    then the other keys in the order of their creation. *)
Definition jsobject := list (jsstring * jsstring).

Definition obj_get (k : jsstring) (o : jsobject) : option jsstring := assoc k o.

(** A canonical numeric string below [2^32 - 1]. *)
Definition arrayIndex (k : jsstring) : option Z :=
  match k with
  | [] => None
  | c :: rest =>
      if forallb isDigit k && (negb (Ascii.eqb c "0") || negb (truthy rest))
      then let v := digitsValue k in
           if (v <? 2 ^ 32 - 1)%Z then Some v else None
      else None
  end.

Fixpoint obj_replace (k v : jsstring) (o : jsobject) : jsobject :=
  match o with
  | [] => []
  | (k', v') :: rest =>
      if jsstring_eqb k k' then (k', v) :: rest
      else (k', v') :: obj_replace k v rest
  end.

(** A new array-index key goes before the first key that is not a smaller
    array index. *)
Fixpoint obj_insert_index (i : Z) (k v : jsstring) (o : jsobject) : jsobject :=
  match o with
  | [] => [(k, v)]
  | (k', v') :: rest =>
      match arrayIndex k' with
      | Some j =>
          if (j <? i)%Z then (k', v') :: obj_insert_index i k v rest
          else (k, v) :: o
      | None => (k, v) :: o
      end
  end.

(** [o[k] = v] on an object created by a literal.  [__proto__] is an
    accessor inherited from [Object.prototype] whose setter ignores a string,
    so that assignment creates no property. *)
Definition obj_set (k v : jsstring) (o : jsobject) : jsobject :=
  if jsstring_eqb k (str "__proto__") then o
  else
    match obj_get k o with
    | Some _ => obj_replace k v o
    | None =>
        match arrayIndex k with
        | Some i => obj_insert_index i k v o
        | None => o ++ [(k, v)]
        end
    end.

(* ----------------------------------------------------------------- *)
(** ** Style string algebra *)

(** [s.split(';').map(part => part.trim()).filter(Boolean)]. *)
Definition styleSegments (s : jsstring) : list jsstring :=
  filter truthy (map trim (split ";" s)).

(** [const [prop, value] = part.split(':').map(p => p && p.trim())] followed
    by the test [prop && value]: the first two pieces of the split. *)
Definition parseDeclaration (part : jsstring) : option (jsstring * jsstring) :=
  match map trim (split ":" part) with
  | prop :: value :: _ =>
      if truthy prop && truthy value then Some (prop, value) else None
  | _ => None
  end.

Definition parseStyleString (styleString : jsstring) : jsobject :=
  fold_left
    (fun acc part =>
       match parseDeclaration part with
       | Some (prop, value) => obj_set prop value acc
       | None => acc
       end)
    (styleSegments styleString) [].

(** [Object.entries(merged).map(([k, v]) => `${k}: ${v}`).join('; ')]. *)
Definition serializeStyle (merged : jsobject) : jsstring :=
  join (str "; ") (map (fun kv => fst kv ++ str ": " ++ snd kv) merged).

(** The object [merged] of [mergeStyleStrings]. *)
Definition mergedStyle (existing : jsstring) (updates : jsobject) : jsobject :=
  fold_left (fun merged kv => obj_set (fst kv) (snd kv) merged)
            updates (parseStyleString existing).

Definition mergeStyleStrings (existing : jsstring) (updates : jsobject) : jsstring :=
  serializeStyle (mergedStyle existing updates).

(* ----------------------------------------------------------------- *)
(** ** Style string to document style: the xlsx variant *)

Record xlsxFont := {
  font_color : option (option xlsxColor);
  font_name : option jsstring;
  font_sz : option number;
  font_bold : option bool;
  font_italic : option bool
}.

Record xlsxFill := {
  patternType : jsstring;
  fgColor : option xlsxColor;
  bgColor : option xlsxColor
}.

Record xlsxStyle := { font : option xlsxFont; fill : option xlsxFill }.

Definition emptyXlsxFont : xlsxFont :=
  {| font_color := None; font_name := None; font_sz := None;
     font_bold := None; font_italic := None |}.

(** [style.font = style.font || {}]. *)
Definition fontOrEmpty (style : xlsxStyle) : xlsxFont :=
  match font style with
  | Some f => f
  | None => emptyXlsxFont
  end.

Definition withFont (style : xlsxStyle) (f : xlsxFont) : xlsxStyle :=
  {| font := Some f; fill := fill style |}.

(** The body of the [switch (prop)] in [cssToXlsxStyle]. *)
Definition applyDeclaration (style : xlsxStyle) (prop value : jsstring) : xlsxStyle :=
  let f := fontOrEmpty style in
  if jsstring_eqb prop (str "color") then
    withFont style
      {| font_color := Some (cssColorToXlsx value); font_name := font_name f;
         font_sz := font_sz f; font_bold := font_bold f;
         font_italic := font_italic f |}
  else if jsstring_eqb prop (str "background-color") then
    {| font := font style;
       fill := Some {| patternType := str "solid";
                       fgColor := cssColorToXlsx value;
                       bgColor := cssColorToXlsx value |} |}
  else if jsstring_eqb prop (str "font-family") then
    withFont style
      {| font_color := font_color f; font_name := Some value;
         font_sz := font_sz f; font_bold := font_bold f;
         font_italic := font_italic f |}
  else if jsstring_eqb prop (str "font-size") then
    let sizePx := parseCssFontSize value in
    let sizePt := pxToPt (match sizePx with Some px => px | None => NaN end) in
    match sizePt with
    | Some pt =>
        withFont style
          {| font_color := font_color f; font_name := font_name f;
             font_sz := Some pt; font_bold := font_bold f;
             font_italic := font_italic f |}
    | None => withFont style f
    end
  else if jsstring_eqb prop (str "font-weight") then
    withFont style
      {| font_color := font_color f; font_name := font_name f;
         font_sz := font_sz f;
         font_bold := Some (jsstring_eqb value (str "bold")
                            || jsstring_eqb value (str "700"));
         font_italic := font_italic f |}
  else if jsstring_eqb prop (str "font-style") then
    withFont style
      {| font_color := font_color f; font_name := font_name f;
         font_sz := font_sz f; font_bold := font_bold f;
         font_italic := Some (jsstring_eqb value (str "italic")) |}
  else style.

Definition applyPart (style : xlsxStyle) (part : jsstring) : xlsxStyle :=
  match parseDeclaration part with
  | Some (prop, value) => applyDeclaration style prop value
  | None => style
  end.

Definition cssToXlsxStyle (cssString : jsstring) : option xlsxStyle :=
  if negb (truthy cssString) then None
  else
    let style :=
      fold_left applyPart (styleSegments cssString)
                {| font := None; fill := None |} in
    match font style, fill style with
    | None, None => None
    | _, _ => Some style
    end.

(* ----------------------------------------------------------------- *)
(** ** Style string to document style: the ExcelJS variant *)

Record excelFont := {
  efont_color : option excelColor;
  efont_name : option jsstring;
  efont_size : option number;
  efont_bold : option bool;
  efont_italic : option bool
}.

Record excelFill := {
  efill_type : jsstring;
  efill_pattern : jsstring;
  efill_fgColor : excelColor
}.

Record excelStyle := { efont : option excelFont; efill : option excelFill }.

(** A property of [parsed] read in a condition: present and non-empty. *)
Definition truthyProp (k : jsstring) (parsed : jsobject) : option jsstring :=
  match obj_get k parsed with
  | Some v => if truthy v then Some v else None
  | None => None
  end.

(** The [font-size] step of [cssToExcelStyle]: the size written to the font,
    if any. *)
Definition excelFontSize (parsed : jsobject) : option number :=
  match truthyProp (str "font-size") parsed with
  | Some v =>
      match parseCssFontSize v with
      | Some sizePx => pxToPt sizePx
      | None => None
      end
  | None => None
  end.

Definition isSome {A : Type} (o : option A) : bool :=
  match o with Some _ => true | None => false end.

(** The undefined or empty style string of a cell without style gives [{}]. *)
Definition cssToExcelStyle (cssString : jsstring) : excelStyle :=
  if negb (truthy cssString) then {| efont := None; efill := None |}
  else
    let parsed := parseStyleString cssString in
    let color :=
      option_map (fun c => {| argb := excelArgb c |})
                 (truthyProp (str "color") parsed) in
    let name :=
      option_map (fun fam => normalizeFontName (hd [] (split "," fam)))
                 (truthyProp (str "font-family") parsed) in
    let size := excelFontSize parsed in
    let bold :=
      option_map (fun w => jsstring_eqb w (str "bold") || jsstring_eqb w (str "700"))
                 (truthyProp (str "font-weight") parsed) in
    let italic :=
      option_map (fun s => jsstring_eqb s (str "italic"))
                 (truthyProp (str "font-style") parsed) in
    let hasFont :=
      isSome color || isSome name || isSome size || isSome bold || isSome italic in
    let fill :=
      option_map (fun bg => {| efill_type := str "pattern";
                               efill_pattern := str "solid";
                               efill_fgColor := {| argb := excelArgb bg |} |})
                 (truthyProp (str "background-color") parsed) in
    {| efont := if hasFont
                then Some {| efont_color := color; efont_name := name;
                             efont_size := size; efont_bold := bold;
                             efont_italic := italic |}
                else None;
       efill := fill |}.

(* ----------------------------------------------------------------- *)
(** ** Cell values *)

Inductive primitive :=
| PUndefined
| PNull
| PBoolean (b : bool)
| PNumber (n : number)
| PString (s : jsstring).

(** One run of a rich text value; only [part.text] is read. *)
Record richTextRun := { run_text : option jsstring }.

(** An object value seen through the members the reader inspects.  [None] is
    an absent member ([k in v] is false).  A [Date] is such an object with
    none of the members. *)
Record objectFields (V : Type) := {
  isDate : bool;
  o_formula : option jsstring;
  o_sharedFormula : option jsstring;
  o_richText : option (list richTextRun);
  o_hyperlink : option jsstring;
  o_text : option jsstring;
  o_result : option V
}.

Inductive jsvalue :=
| Prim (p : primitive)
| Obj (o : objectFields jsvalue).

Definition emptyString : jsvalue := Prim (PString []).

(* ----------------------------------------------------------------- *)
(** ** The worksheet of the document library

    The reader uses [worksheet.rowCount], [worksheet.eachRow] with
    [includeEmpty], [row.cellCount], [worksheet.getRow], [row.getCell] and,
    of a cell, [value], [formula] and [text].  ExcelJS keeps the rows of a
    sheet and the cells of a row in arrays with holes, indexed from 1;
    [rowCount] is the number of the last row present, [cellCount] the length
    of the cell array, and [getRow] and [getCell] give a fresh empty row or
    cell for a hole. *)

Record cell := {
  cell_value : jsvalue;
  cell_formula : option jsstring;
  cell_text : jsstring
}.

Definition row := list (option cell).
Definition worksheet := list (option row).

Definition emptyCell : cell :=
  {| cell_value := Prim PNull; cell_formula := None; cell_text := [] |}.

Fixpoint lastPresent {A : Type} (l : list (option A)) : nat :=
  match l with
  | [] => 0
  | x :: rest =>
      match lastPresent rest with
      | 0 => match x with Some _ => 1 | None => 0 end
      | S n => S (S n)
      end
  end.

Definition rowCount (ws : worksheet) : nat := lastPresent ws.

Definition getRow (ws : worksheet) (r : nat) : row :=
  match nth_error ws (r - 1) with
  | Some (Some rw) => rw
  | _ => []
  end.

Definition cellCount (rw : row) : nat := length rw.

Definition getCell (rw : row) (c : nat) : cell :=
  match nth_error rw (c - 1) with
  | Some (Some cl) => cl
  | _ => emptyCell
  end.

(** The rows [eachRow({ includeEmpty: true }, f)] passes to [f]. *)
Definition eachRowIncludeEmpty (ws : worksheet) : list row :=
  map (getRow ws) (seq 1 (length ws)).

(* ----------------------------------------------------------------- *)
(** ** Document reader *)

Definition nonEmpty (o : option jsstring) : option jsstring :=
  match o with
  | Some s => if truthy s then Some s else None
  | None => None
  end.

(** [cell.formula || (... 'formula' in v && v.formula) ||
    (... 'sharedFormula' in v && v.sharedFormula)], when truthy. *)
Definition formulaOf (cl : cell) : option jsstring :=
  match nonEmpty (cell_formula cl) with
  | Some f => Some f
  | None =>
      match cell_value cl with
      | Obj o =>
          match nonEmpty (o_formula o) with
          | Some f => Some f
          | None => nonEmpty (o_sharedFormula o)
          end
      | Prim _ => None
      end
  end.

Definition textOrEmpty (o : option jsstring) : jsstring :=
  match o with Some s => s | None => [] end.

(** [displayValue] at the end of the [if] cascade.  The [instanceof Date]
    branch of the source follows the test for objects and is never taken:
    a date reaches [cell.text || ''] with the other objects. *)
Definition displayValue (cl : cell) : jsvalue :=
  match formulaOf cl with
  | Some formula => Prim (PString ("="%char :: formula))
  | None =>
      match cell_value cl with
      | Prim PNull | Prim PUndefined => emptyString
      | Obj o =>
          match o_richText o with
          | Some runs =>
              Prim (PString (concat (map (fun part => textOrEmpty (run_text part)) runs)))
          | None =>
              match o_hyperlink o with
              | Some link =>
                  Prim (PString (textOrEmpty (orElse (o_text o) (Some link))))
              | None =>
                  match o_result o with
                  | Some (Prim PUndefined) | None => Prim (PString (cell_text cl))
                  | Some res => res
                  end
              end
          end
      | v => v
      end
  end.

(** [displayValue === undefined || displayValue === null ? '' : displayValue]. *)
Definition gridEntry (cl : cell) : jsvalue :=
  match displayValue cl with
  | Prim PUndefined | Prim PNull => emptyString
  | v => v
  end.

Definition grid := list (list jsvalue).

(** [a[i] = x] inside the bounds of [a]. *)
Fixpoint update {A : Type} (i : nat) (x : A) (a : list A) : list A :=
  match a, i with
  | [], _ => []
  | _ :: rest, 0 => x :: rest
  | y :: rest, S j => y :: update j x rest
  end.

(** [data[r - 1][c - 1] = x]. *)
Definition setEntry (data : grid) (r c : nat) (x : jsvalue) : grid :=
  match nth_error data (r - 1) with
  | Some line => update (r - 1) (update (c - 1) x line) data
  | None => data
  end.

Definition maxCellCount (ws : worksheet) : nat :=
  fold_left (fun maxCol rw => Nat.max maxCol (cellCount rw))
            (eachRowIncludeEmpty ws) 0.

Definition sheetRows (ws : worksheet) : nat := Nat.max (rowCount ws) 1.
Definition sheetCols (ws : worksheet) : nat := Nat.max (maxCellCount ws) 1.

(** The [data] component of [extractDataAndStyles], for the first worksheet
    of a workbook that loaded: a grid of empty strings, then one assignment
    per cell, row by row. *)
Definition extractData (ws : worksheet) : grid :=
  let rows := sheetRows ws in
  let cols := sheetCols ws in
  let data := repeat (repeat emptyString cols) rows in
  fold_left
    (fun data r =>
       let rw := getRow ws r in
       fold_left (fun data c => setEntry data r c (gridEntry (getCell rw c)))
                 (seq 1 cols) data)
    (seq 1 rows) data.



(* ----------------------------------------------------------------- *)
(** ** Document writer *)

Section Writer.

(** [Number::toString] of the runtime, used by [String(cellValue)] when the
    grid holds a number. *)
Variable Number_toString : number -> jsstring.

Definition String_ (v : primitive) : jsstring :=
  match v with
  | PUndefined => str "undefined"
  | PNull => str "null"
  | PBoolean true => str "true"
  | PBoolean false => str "false"
  | PNumber n => Number_toString n
  | PString s => s
  end.

(** [Number(v)]. *)
Definition ToNumber (v : primitive) : number :=
  match v with
  | PUndefined => NaN
  | PNull => Fin 0
  | PBoolean true => Fin 1
  | PBoolean false => Fin 0
  | PNumber n => n
  | PString s => StringToNumber s
  end.

(** [v ?? '']. *)
Definition orEmptyString (v : primitive) : primitive :=
  match v with
  | PUndefined | PNull => PString []
  | _ => v
  end.

(** What [cell.value] is set to. *)
Inductive cellContent :=
| FormulaValue (formula : jsstring)
| PlainValue (v : primitive).

Definition cellStrOf (cellValue : primitive) : jsstring :=
  String_ (orEmptyString cellValue).

Definition writtenValue (cellValue : primitive) : cellContent :=
  let cellStr := cellStrOf cellValue in
  if startsWith (str "=") cellStr then FormulaValue (slice_from 1 cellStr)
  else
    let num := ToNumber cellValue in
    if negb (Number_isNaN num) && negb (jsstring_eqb (trim cellStr) [])
    then PlainValue (PNumber num)
    else PlainValue cellValue.




End Writer.

(* ----------------------------------------------------------------- *)
(** ** Numbers as strings: [Number::toString]

    The template literals of [formatPx] and [String(cellValue)] of the
    writer turn a number into the shortest decimal that reads back as that
    number, written in the layout the language prescribes. *)

Definition digitChar (d : Z) : ascii := ascii_of_nat (48 + Z.to_nat d).

(** The decimal digits of a non-negative integer, most significant first,
    in front of [acc]. *)
Fixpoint digitsFrom (fuel : nat) (z : Z) (acc : jsstring) : jsstring :=
  match fuel with
  | O => acc
  | S fuel' =>
      let acc' := digitChar (z mod 10) :: acc in
      if (z <? 10)%Z then acc' else digitsFrom fuel' (z / 10) acc'
  end.

Definition digitsOf (z : Z) : jsstring :=
  digitsFrom (S (Z.to_nat (Z.log2 z))) z [].

Definition decimalLength (z : Z) : Z := Z.of_nat (length (digitsOf z)).

Open Scope Q_scope.

(** For [x > 0], the integer [n] with [10^(n-1) <= x < 10^n]. *)
Definition decimalExponent (x : Q) : Z :=
  if Qle_bool 1 x then decimalLength (Qfloor x)
  else (1 - decimalLength (Qceiling (/ x) - 1))%Z.

(** The decimal [s * 10^(n - k)]: [k] digits [s], the first of them worth
    [10^(n-1)]. *)
Definition decimalValue (s n k : Z) : Q := inject_Z s * Qpower 10 (n - k).

(** Whether the decimal with digits [fst c] and exponent [snd c] is read
    back as the number [x]. *)
Definition readsBackAs (x : Q) (k : Z) (c : Z * Z) : bool :=
  match toNumber (decimalValue (fst c) (snd c) k) with
  | Fin y => Qeq_bool y x
  | _ => false
  end.

(** The two decimals of [k] digits next to [x], the one below and the one
    above; the one above [99...9] is [10...0] with the next exponent. *)
Definition neighbours (x : Q) (n k : Z) : (Z * Z) * (Z * Z) :=
  let lo := Qfloor (x * Qpower 10 (k - n)) in
  let hi := (lo + 1)%Z in
  ((lo, n),
   if (hi =? 10 ^ k)%Z then ((10 ^ (k - 1))%Z, (n + 1)%Z) else (hi, n)).

(** Of the two, the one nearer to [x]; the one with even digits when they
    are as near. *)
Definition nearer (x : Q) (k : Z) (lo hi : Z * Z) : Z * Z :=
  match Qcompare (x - decimalValue (fst lo) (snd lo) k)
                 (decimalValue (fst hi) (snd hi) k - x) with
  | Lt => lo
  | Gt => hi
  | Eq => if Z.even (fst lo) then lo else hi
  end.

(** The decimal of [k] digits that reads back as [x], if there is one. *)
Definition bestOf (x : Q) (n k : Z) : option (Z * Z) :=
  let (lo, hi) := neighbours x n k in
  match readsBackAs x k lo, readsBackAs x k hi with
  | true, true => Some (nearer x k lo hi)
  | true, false => Some lo
  | false, true => Some hi
  | false, false => None
  end.

(** The least number of digits for which a decimal reads back as [x].
    Seventeen digits always do for a binary64, so the search stops there. *)
Fixpoint shortestFrom (fuel : nat) (x : Q) (n k : Z) : Z * Z * Z :=
  match fuel with
  | O => let (lo, hi) := neighbours x n k in (nearer x k lo hi, k)
  | S fuel' =>
      match bestOf x n k with
      | Some c => (c, k)
      | None => shortestFrom fuel' x n (k + 1)
      end
  end.

(** Digits [s], exponent [n] and number of digits [k] of [x > 0]. *)
Definition shortestDecimal (x : Q) : Z * Z * Z :=
  shortestFrom 16 x (decimalExponent x) 1.

Close Scope Q_scope.

(** The layout of the digits: an integer, a decimal point inside the
    digits, leading zeros after [0.], or the exponent notation. *)
Definition formatDecimal (s n k : Z) : jsstring :=
  let ds := digitsOf s in
  if ((k <=? n) && (n <=? 21))%Z then ds ++ repeat "0"%char (Z.to_nat (n - k))
  else if ((0 <? n) && (n <=? 21))%Z
  then firstn (Z.to_nat n) ds ++ "."%char :: skipn (Z.to_nat n) ds
  else if ((-6 <? n) && (n <=? 0))%Z
  then "0"%char :: "."%char :: repeat "0"%char (Z.to_nat (- n)) ++ ds
  else
    let e := (n - 1)%Z in
    let exponent :=
      "e"%char :: (if (e <? 0)%Z then "-"%char else "+"%char)
               :: digitsOf (Z.abs e) in
    match ds with
    | [] => exponent
    | [d] => d :: exponent
    | d :: rest => d :: "."%char :: rest ++ exponent
    end.

Definition numberToString (x : number) : jsstring :=
  match x with
  | NaN => str "NaN"
  | Inf false => str "Infinity"
  | Inf true => str "-Infinity"
  | Fin q =>
      if Qeq_bool q 0 then str "0"
      else
        let '(c, k) := shortestDecimal (Qabs q) in
        (if Qnegative q then str "-" else [])
          ++ formatDecimal (fst c) (snd c) k
  end.

(* ----------------------------------------------------------------- *)
(** ** Pixel sizes as text *)

Definition Number_isInteger (x : number) : bool :=
  match x with
  | Fin q => Qeq_bool (inject_Z (Qfloor q)) q
  | _ => false
  end.

(** [Math.trunc]: the integer part, towards zero. *)
Definition Math_trunc (x : number) : number :=
  match x with
  | Fin q => Fin (inject_Z (if Qle_bool 0 q then Qfloor q else Qceiling q))
  | _ => x
  end.

Definition formatPx (sizePx : number) : jsstring :=
  if negb (Number_isFinite sizePx) then []
  else
    match toFixedNumber sizePx with
    | None => []
    | Some rounded =>
        numberToString
          (if Number_isInteger rounded then Math_trunc rounded else rounded)
    end.

(* ----------------------------------------------------------------- *)
(** ** Document style to style string *)

(** Truthiness of a number: neither zero nor NaN. *)
Definition numberTruthy (x : number) : bool :=
  match x with
  | NaN => false
  | Inf _ => true
  | Fin q => negb (Qeq_bool q 0)
  end.

(** [if (font.name) css.push(`font-family: ${buildFontFamily(font.name)}`)];
    an exception of [buildFontFamily] ends the call. *)
Definition familyDeclaration (name : option jsstring) : result (list jsstring) :=
  match name with
  | Some nm =>
      if truthy nm then
        match buildFontFamily nm with
        | Ok family => Ok [str "font-family: " ++ family]
        | TypeError => TypeError
        end
      else Ok []
  | None => Ok []
  end.

(** The size of the font, in points, as a [font-size] in pixels. *)
Definition sizeDeclaration (size : option number) : list jsstring :=
  match size with
  | Some sz =>
      if numberTruthy sz then
        match ptToPx sz with
        | Some pxSize => [str "font-size: " ++ formatPx pxSize ++ str "px"]
        | None => []
        end
      else []
  | None => []
  end.

(** [if (flag) css.push(text)]. *)
Definition flagDeclaration (flag : option bool) (text : jsstring) : list jsstring :=
  match flag with
  | Some true => [text]
  | _ => []
  end.

(** [styleObjectToCss]: the xlsx variant. *)
Definition styleObjectToCss (styleObj : option xlsxStyle) : result jsstring :=
  match styleObj with
  | None => Ok []
  | Some st =>
      let fontCss :=
        match font st with
        | Some f =>
            let color :=
              match font_color f with
              | Some (Some c) =>
                  match xlsxColorToCSS (Some c) with
                  | Some css => if truthy css then [str "color: " ++ css] else []
                  | None => []
                  end
              | _ => []
              end in
            match familyDeclaration (font_name f) with
            | TypeError => TypeError
            | Ok family =>
                Ok (color ++ family ++ sizeDeclaration (font_sz f)
                      ++ flagDeclaration (font_bold f) (str "font-weight: bold")
                      ++ flagDeclaration (font_italic f) (str "font-style: italic"))
            end
        | None => Ok []
        end in
      let fillCss :=
        match fill st with
        | Some fl =>
            match (match fgColor fl with Some c => Some c | None => bgColor fl end) with
            | Some c =>
                match xlsxColorToCSS (Some c) with
                | Some bg => if truthy bg then [str "background-color: " ++ bg] else []
                | None => []
                end
            | None => []
            end
        | None => []
        end in
      match fontCss with
      | TypeError => TypeError
      | Ok css => Ok (join (str "; ") (css ++ fillCss))
      end
  end.

(** The fill of a cell as the reader finds it: [type], [fgColor] and
    [bgColor].  A colour without [argb] has the empty string there. *)
Record cellFill := {
  cfill_type : jsstring;
  cfill_fgColor : option excelColor;
  cfill_bgColor : option excelColor
}.

(** [color?.argb], when truthy. *)
Definition argbOf (color : option excelColor) : option jsstring :=
  match color with
  | Some c => if truthy (argb c) then Some (argb c) else None
  | None => None
  end.

(** [`prop: ${excelColorToCss(argb)}`] when there is a colour. *)
Definition colorDeclaration (prop : jsstring) (color : option jsstring) : list jsstring :=
  match color with
  | Some a =>
      match excelColorToCss a with
      | Some css => if truthy css then [prop ++ str ": " ++ css] else []
      | None => []
      end
  | None => []
  end.

(** [excelCellStyleToCss], on the [font] and [fill] of the cell. *)
Definition excelCellStyleToCss (font : option excelFont) (fill : option cellFill)
  : result jsstring :=
  let fontCss :=
    match font with
    | Some f =>
        match familyDeclaration (efont_name f) with
        | TypeError => TypeError
        | Ok family =>
            Ok (colorDeclaration (str "color") (argbOf (efont_color f))
                  ++ family ++ sizeDeclaration (efont_size f)
                  ++ flagDeclaration (efont_bold f) (str "font-weight: bold")
                  ++ flagDeclaration (efont_italic f) (str "font-style: italic"))
        end
    | None => Ok []
    end in
  let fillCss :=
    match fill with
    | Some fl =>
        if jsstring_eqb (cfill_type fl) (str "pattern") then
          colorDeclaration (str "background-color")
            (match argbOf (cfill_fgColor fl) with
             | Some fg => Some fg
             | None => argbOf (cfill_bgColor fl)
             end)
        else []
    | None => []
    end in
  match fontCss with
  | TypeError => TypeError
  | Ok css => Ok (join (str "; ") (css ++ fillCss))
  end.

(* ----------------------------------------------------------------- *)
(** ** Styles on the rendered table and on the selection *)

(** [applyStyleToCellDom] on the cell element it looked up, [None] when the
    table has no such cell; an element is its [style] attribute, absent or a
    string.  Nothing is done for an empty style string. *)
Definition applyStyleToCellDom (cellEl : option (option jsstring))
           (styleString : jsstring) : option (option jsstring) :=
  if negb (truthy styleString) then cellEl
  else
    match cellEl with
    | Some attribute =>
        Some (Some (mergeStyleStrings (textOrEmpty attribute)
                                      (parseStyleString styleString)))
    | None => None
    end.

(** [normalizedUpdates] of [applyStyleToSelection]: a copy of the updates
    in which a [font-family] is replaced by its fallback list. *)
Definition normalizedUpdates (styleUpdates : jsobject) : result jsobject :=
  match truthyProp (str "font-family") styleUpdates with
  | Some family =>
      match buildFontFamily family with
      | Ok value => Ok (obj_set (str "font-family") value styleUpdates)
      | TypeError => TypeError
      end
  | None => Ok styleUpdates
  end.

(** The style string stored for one cell of the selection; [existing] is
    [stylesRef.current[cellAddress]], [undefined] for a cell without
    style. *)
Definition selectionStyle (existing : option jsstring) (styleUpdates : jsobject)
  : result jsstring :=
  match normalizedUpdates styleUpdates with
  | Ok updates => Ok (mergeStyleStrings (textOrEmpty existing) updates)
  | TypeError => TypeError
  end.

(** The corners of the selected range, as [onselection] stores them. *)
Record selectedRange := { x1 : nat; y1 : nat; x2 : nat; y2 : nat }.

(** The cells the two loops of [applyStyleToSelection] visit, as
    (row, column), in the order of the visit. *)
Definition selectionCells (range : selectedRange) : list (nat * nat) :=
  let startCol := Nat.min (x1 range) (x2 range) in
  let endCol := Nat.max (x1 range) (x2 range) in
  let startRow := Nat.min (y1 range) (y2 range) in
  let endRow := Nat.max (y1 range) (y2 range) in
  flat_map (fun row => map (fun col => (row, col))
                           (seq startCol (endCol + 1 - startCol)))
           (seq startRow (endRow + 1 - startRow)).

(** The styles of the sheet, by row and column; the pair stands for the
    address [XLSX.utils.encode_cell({ r, c })] under which the source keeps
    the style. *)
Definition styleStore := nat -> nat -> option jsstring.

Definition storeStyle (styles : styleStore) (row col : nat) (style : jsstring)
  : styleStore :=
  fun r c => if (r =? row) && (c =? col) then Some style else styles r c.

(** [applyStyleToSelection] on the stored styles: nothing without a
    selection; otherwise every cell of the range gets its merged style.  An
    exception of [buildFontFamily] is raised at the first cell, before any
    style is stored. *)
Definition applyStyleToSelection (range : option selectedRange)
           (styleUpdates : jsobject) (styles : styleStore) : result styleStore :=
  match range with
  | None => Ok styles
  | Some rg =>
      fold_left
        (fun acc cellAt =>
           match acc with
           | TypeError => TypeError
           | Ok st =>
               match selectionStyle (st (fst cellAt) (snd cellAt)) styleUpdates with
               | Ok merged => Ok (storeStyle st (fst cellAt) (snd cellAt) merged)
               | TypeError => TypeError
               end
           end)
        (selectionCells rg) (Ok styles)
  end.

(* ----------------------------------------------------------------- *)
(** ** Reference definitions: unit codec *)

Open Scope Q_scope.

(** Half a unit in the last place of the numbers in [[1, 2)], the relative
    error of one rounding. *)
Definition ulp53 : Q := 1 # 9007199254740992.

(** The binary64 operations of the standard library ([SpecFloat], the
    specification of the primitive floats), used to check the rounding above
    on sample operands: the float [m * 2^e], and the number a float is. *)
Definition binary64 (m e : Z) : SpecFloat.spec_float :=
  SpecFloat.binary_normalize 53 1024 m e false.

Definition specValue (f : SpecFloat.spec_float) : number :=
  match f with
  | SpecFloat.S754_zero _ => Fin 0
  | SpecFloat.S754_infinity s => Inf s
  | SpecFloat.S754_nan => NaN
  | SpecFloat.S754_finite s m e =>
      Fin (Qred ((if s then -1 else 1) * inject_Z (Zpos m) * two_pow e))
  end.

(** The conversion pair applied to an earlier result; [null] stays [null]. *)
Definition roundTripAgain (x : option number) : option number :=
  match x with
  | Some v => pointsRoundTrip v
  | None => None
  end.

(** The round-trip property at the point size [p]: the pair gives a number
    within 0.01 of [p], and two more applications of the pair give a number
    that is no farther from [p]. *)
Definition roundTripWithinUnit (p : Q) : Prop :=
  exists r,
    pointsRoundTrip (Fin p) = Some (Fin r) /\
    Qabs (r - p) <= 1 # 100 /\
    exists r2,
      roundTripAgain (roundTripAgain (Some (Fin r))) = Some (Fin r2) /\
      Qabs (r2 - p) <= Qabs (r - p).

(** Rounding half away from zero: [sign(x) * floor(|x| + 1/2)]. *)
Definition roundHalfAwayFromZero (x : Q) : Z :=
  (Z.sgn (Qnum x) * Qfloor (Qabs x + (1 # 2)))%Z.

(** [toFixedNumber] as the rounding rule "half away from zero on
    [value * 10^2]" would have it. *)
Definition toFixedHalfAway (value : number) : option number :=
  if negb (Number_isFinite value) then None
  else
    Some (div (match mul value (Fin 100) with
               | Fin t => Fin (inject_Z (roundHalfAwayFromZero t))
               | other => other
               end)
              (Fin 100)).

(** A negative number exactly halfway between two integers. *)
Definition isNegativeTie (t : Q) : bool :=
  Qnegative t && Qeq_bool (Qabs t - inject_Z (Qfloor (Qabs t))) (1 # 2).

(** Rounding half away from zero, except that a negative tie goes to the
    larger integer (towards zero). *)
Definition roundTiesUpward (x : number) : number :=
  match x with
  | Fin t =>
      Fin (inject_Z (roundHalfAwayFromZero t + (if isNegativeTie t then 1 else 0)))
  | other => other
  end.

Close Scope Q_scope.

(* ----------------------------------------------------------------- *)
(** ** Reference definitions: font resolution *)

(** The family a part of the list names: the part without its quotes, up to
    letter case. *)
Definition familyName (part : jsstring) : jsstring :=
  toLowerCase (normalizeFontName part).

Fixpoint distinctStrings (l : list jsstring) : bool :=
  match l with
  | [] => true
  | x :: rest => negb (existsb (jsstring_eqb x) rest) && distinctStrings rest
  end.

(** No family is named twice. *)
Definition distinctFamilies (parts : list jsstring) : bool :=
  distinctStrings (map familyName parts).

(* ----------------------------------------------------------------- *)
(** ** Reference definitions: colour codec *)

Definition isHexDigit (c : ascii) : bool := isSome (hexDigitValue c).

(** A digit string of length 3 written with each digit doubled. *)
Definition expandShortHex (digits : jsstring) : jsstring :=
  match digits with
  | [r; g; b] => [r; r; g; g; b; b]
  | _ => digits
  end.

(** The canonical 6-digit form of the hex colour with the given digits:
    [#] and the six digits, in upper case. *)
Definition canonicalHex (digits : jsstring) : jsstring :=
  "#"%char :: toUpperCase (expandShortHex digits).

(* ----------------------------------------------------------------- *)
(** ** Reference definitions: style strings *)

(** The text before the first [sep], and the text after it when there is
    one. *)
Fixpoint beforeChar (sep : ascii) (s : jsstring) : jsstring :=
  match s with
  | [] => []
  | c :: rest => if Ascii.eqb c sep then [] else c :: beforeChar sep rest
  end.

Fixpoint afterChar (sep : ascii) (s : jsstring) : option jsstring :=
  match s with
  | [] => None
  | c :: rest => if Ascii.eqb c sep then Some rest else afterChar sep rest
  end.

(** A segment cut at its first colon only: the property is the text before
    it, the value all the text after it. *)
Definition declarationAtFirstColon (part : jsstring) : option (jsstring * jsstring) :=
  match afterChar ":" part with
  | None => None
  | Some rest =>
      let prop := trim (beforeChar ":" part) in
      let value := trim rest in
      if truthy prop && truthy value then Some (prop, value) else None
  end.

(** A segment cut at its first colon, the value ending at the second colon
    when there is one. *)
Definition declarationUpToSecondColon (part : jsstring) : option (jsstring * jsstring) :=
  match afterChar ":" part with
  | None => None
  | Some rest =>
      let prop := trim (beforeChar ":" part) in
      let value := trim (beforeChar ":" rest) in
      if truthy prop && truthy value then Some (prop, value) else None
  end.

(** Parsing with a given reading of a segment: split on [;], trim, drop the
    empty segments, drop the segments that give no declaration, a later
    declaration of a property replacing an earlier one. *)
Definition parseWith (declaration : jsstring -> option (jsstring * jsstring))
           (s : jsstring) : jsobject :=
  fold_left
    (fun acc part =>
       match declaration part with
       | Some (prop, value) => obj_set prop value acc
       | None => acc
       end)
    (styleSegments s) [].

(** Two objects holding the same mapping. *)
Definition same_map (a b : jsobject) : Prop :=
  forall k, obj_get k a = obj_get k b.

(** A property name or value that survives serialisation: not empty, no
    white space at either end, no [;] and no [:]. *)
Definition cleanText (s : jsstring) : bool :=
  truthy s && jsstring_eqb (trim s) s
  && negb (existsb (Ascii.eqb ";") s) && negb (existsb (Ascii.eqb ":") s).

Definition cleanEntry (kv : jsstring * jsstring) : bool :=
  cleanText (fst kv) && cleanText (snd kv)
  && negb (jsstring_eqb (fst kv) (str "__proto__")).

Fixpoint distinctKeys (m : jsobject) : bool :=
  match m with
  | [] => true
  | (k, _) :: rest =>
      negb (existsb (jsstring_eqb k) (map fst rest)) && distinctKeys rest
  end.

(** A property map whose entries are clean and whose keys are distinct. *)
Definition wellFormedMap (m : jsobject) : bool :=
  forallb cleanEntry m && distinctKeys m.

(** The same, as a proposition. *)
Definition wellFormedObject (o : jsobject) : Prop :=
  NoDup (map fst o) /\ Forall (fun kv => cleanEntry kv = true) o.

(** One entry as [mergeStyleStrings] writes it. *)
Definition entryText (kv : jsstring * jsstring) : jsstring :=
  fst kv ++ str ": " ++ snd kv.

(** The declarations a list of segments holds, in order. *)
Definition declarationsOf (segs : list jsstring) : list (jsstring * jsstring) :=
  flat_map (fun part => match parseDeclaration part with
                        | Some d => [d]
                        | None => []
                        end) segs.

Definition declarations (s : jsstring) : list (jsstring * jsstring) :=
  declarationsOf (styleSegments s).

(** The values of the [font-size] declarations. *)
Definition sizeValues (decls : list (jsstring * jsstring)) : list jsstring :=
  map snd (filter (fun d => jsstring_eqb (fst d) (str "font-size")) decls).

Definition fontSizeValues (s : jsstring) : list jsstring :=
  sizeValues (declarations s).

(** The declarations applied one after the other, as the [forEach] of
    [cssToXlsxStyle] does. *)
Definition applyDeclarations (decls : list (jsstring * jsstring))
           (style : xlsxStyle) : xlsxStyle :=
  fold_left (fun st d => applyDeclaration st (fst d) (snd d)) decls style.

(** The size field of an xlsx style. *)
Definition xlsxSizeOf (style : xlsxStyle) : option number :=
  match font style with
  | Some f => font_sz f
  | None => None
  end.

(** The size [cssToXlsxStyle] computes from a [font-size] value. *)
Definition xlsxDecodedSize (value : jsstring) : option number :=
  pxToPt (match parseCssFontSize value with Some px => px | None => NaN end).

(** The size field of the decoded style, in both variants. *)
Definition xlsxFontSize (s : jsstring) : option number :=
  match cssToXlsxStyle s with
  | Some style =>
      match font style with
      | Some f => font_sz f
      | None => None
      end
  | None => None
  end.

Definition excelFontSizeOf (s : jsstring) : option number :=
  match efont (cssToExcelStyle s) with
  | Some f => efont_size f
  | None => None
  end.

(** The size, in points, a [font-size] value stands for: no size when it
    does not start with a number, points converted to pixels and back when
    it ends with [pt] in any letter case, pixels converted to points
    otherwise. *)
Definition fontSizeInPoints (value : jsstring) : option number :=
  let n := parseFloat value in
  if Number_isNaN n then None
  else if endsWith (str "pt") (toLowerCase value) then pointsRoundTrip n
       else pxToPt n.

(* ----------------------------------------------------------------- *)
(** ** Reference definitions: document writer *)

(** The coercion rule with "finite" in place of "not NaN": a number is
    stored only when the trimmed string form is not empty and the value
    parses as a finite number. *)
Definition writtenValueIfFinite (Number_toString : number -> jsstring)
           (cellValue : primitive) : cellContent :=
  let cellStr := cellStrOf Number_toString cellValue in
  if startsWith (str "=") cellStr then FormulaValue (slice_from 1 cellStr)
  else
    let num := ToNumber cellValue in
    if Number_isFinite num && negb (jsstring_eqb (trim cellStr) [])
    then PlainValue (PNumber num)
    else PlainValue cellValue.

(** The condition under which the writer stores a number. *)
Definition coercesToNumber (Number_toString : number -> jsstring)
           (cellValue : primitive) : bool :=
  negb (Number_isNaN (ToNumber cellValue))
  && negb (jsstring_eqb (trim (cellStrOf Number_toString cellValue)) []).

(* ----------------------------------------------------------------- *)
(** ** Reference definitions: the order of the properties *)

(** Keys in the order of [Object.entries]: an array-index key is below every
    array-index key after it, and only keys that are no array index follow a
    key that is none. *)
Fixpoint orderedKeys (keys : list jsstring) : Prop :=
  match keys with
  | [] => True
  | k :: rest =>
      match arrayIndex k with
      | Some i =>
          Forall (fun k' => match arrayIndex k' with
                            | Some j => (i < j)%Z
                            | None => True
                            end) rest
      | None => Forall (fun k' => arrayIndex k' = None) rest
      end /\ orderedKeys rest
  end.

Definition enumerationOrder (o : jsobject) : Prop := orderedKeys (map fst o).

(* ----------------------------------------------------------------- *)
(** ** Reference definitions: conversions in the other direction *)

(** [ptToPx(pxToPt(x))]; a [null] from [pxToPt] is not finite, so [ptToPx]
    returns [null] for it. *)
Definition pixelsRoundTrip (x : number) : option number :=
  match pxToPt x with
  | Some pt => ptToPx pt
  | None => None
  end.

(* ----------------------------------------------------------------- *)
(** ** Reference definitions: numbers as strings *)

(** What may follow a decimal literal without being read as part of it:
    nothing, or a character that is no digit, no point and no exponent
    mark. *)
Definition endsNumber (suffix : jsstring) : bool :=
  match suffix with
  | [] => true
  | c :: _ =>
      negb (isDigit c) && negb (Ascii.eqb c ".")
      && negb (Ascii.eqb c "e") && negb (Ascii.eqb c "E")
  end.

(** A character of a number written without exponent. *)
Definition isDecimalChar (c : ascii) : bool := isDigit c || Ascii.eqb c ".".

(* ----------------------------------------------------------------- *)
(** ** Reference definitions: font names *)

(** Whether a text starts or ends with a quote character. *)
Definition quotedAtEnds (s : jsstring) : bool :=
  match s, rev s with
  | c :: _, d :: _ => isQuote c || isQuote d
  | _, _ => false
  end.

(** A font name as a workbook or the toolbar gives it: a clean text without
    comma and without quote character, that is no member every object
    inherits. *)
Definition plainFontName (name : jsstring) : bool :=
  cleanText name
  && negb (existsb (Ascii.eqb ",") name)
  && negb (existsb isQuote name)
  && negb (existsb (jsstring_eqb name) objectPrototypeKeys).

(* ----------------------------------------------------------------- *)
(** ** Reference definitions: style strings, continued *)

(** The value the last update of the property [k] gives it. *)
Definition lastUpdate (k : jsstring) (updates : jsobject) : option jsstring :=
  match rev (filter (fun kv => jsstring_eqb (fst kv) k) updates) with
  | kv :: _ => Some (snd kv)
  | [] => None
  end.

(* ----------------------------------------------------------------- *)
(** ** Reference definitions: decoded styles *)

(** The values [cssToXlsxStyle] and [cssToExcelStyle] take for bold and for
    italic. *)
Definition isBoldValue (value : jsstring) : bool :=
  jsstring_eqb value (str "bold") || jsstring_eqb value (str "700").

Definition isItalicValue (value : jsstring) : bool :=
  jsstring_eqb value (str "italic").

(** A field of the font of a decoded style, when the style has a font. *)
Definition xlsxFontField {A : Type} (field : xlsxFont -> option A)
           (style : option xlsxStyle) : option A :=
  match style with
  | Some st => match font st with
               | Some f => field f
               | None => None
               end
  | None => None
  end.

Definition excelFontField {A : Type} (field : excelFont -> option A)
           (style : excelStyle) : option A :=
  match efont style with
  | Some f => field f
  | None => None
  end.

(** The bold and italic flags of the two decoders. *)
Definition xlsxFlags (s : jsstring) : option bool * option bool :=
  (xlsxFontField font_bold (cssToXlsxStyle s),
   xlsxFontField font_italic (cssToXlsxStyle s)).

Definition excelFlags (s : jsstring) : option bool * option bool :=
  (excelFontField efont_bold (cssToExcelStyle s),
   excelFontField efont_italic (cssToExcelStyle s)).

(** The ExcelJS style with the given fields: a font when one of its fields
    is set, as [hasFont] has it. *)
Definition excelStyleWith (color : option excelColor) (name : option jsstring)
           (size : option number) (bold italic : option bool)
           (fill : option excelFill) : excelStyle :=
  {| efont := if isSome color || isSome name || isSome size
                 || isSome bold || isSome italic
              then Some {| efont_color := color; efont_name := name;
                           efont_size := size; efont_bold := bold;
                           efont_italic := italic |}
              else None;
     efill := fill |}.

(** The solid fill [cssToExcelStyle] writes for a colour. *)
Definition solidFill (color : excelColor) : excelFill :=
  {| efill_type := str "pattern"; efill_pattern := str "solid";
     efill_fgColor := color |}.

(* ----------------------------------------------------------------- *)
(** ** Reference definitions: a cell style written and read again *)

(** The entries a list of properties with optional values stands for. *)
Definition optEntries (l : list (jsstring * option jsstring)) : jsobject :=
  flat_map (fun kv => match snd kv with
                      | Some v => [(fst kv, v)]
                      | None => []
                      end) l.

(** The value of each declaration of [excelCellStyleToCss], when it writes
    the declaration. *)
Definition colorText (color : option jsstring) : option jsstring :=
  match color with
  | Some a =>
      match excelColorToCss a with
      | Some css => if truthy css then Some css else None
      | None => None
      end
  | None => None
  end.

Definition familyText (name : option jsstring) : result (option jsstring) :=
  match name with
  | Some nm =>
      if truthy nm then
        match buildFontFamily nm with
        | Ok family => Ok (Some family)
        | TypeError => TypeError
        end
      else Ok None
  | None => Ok None
  end.

Definition sizeText (size : option number) : option jsstring :=
  match size with
  | Some sz =>
      if numberTruthy sz then
        match ptToPx sz with
        | Some pxSize => Some (formatPx pxSize ++ str "px")
        | None => None
        end
      else None
  | None => None
  end.

Definition flagText (flag : option bool) (text : jsstring) : option jsstring :=
  match flag with
  | Some true => Some text
  | _ => None
  end.

(** The colour of a pattern fill: [fgColor.argb || bgColor.argb]. *)
Definition fillArgb (fill : option cellFill) : option jsstring :=
  match fill with
  | Some fl =>
      if jsstring_eqb (cfill_type fl) (str "pattern") then
        match argbOf (cfill_fgColor fl) with
        | Some fg => Some fg
        | None => argbOf (cfill_bgColor fl)
        end
      else None
  | None => None
  end.

Definition fontPart {A : Type} (font : option excelFont)
           (field : excelFont -> option A) : option A :=
  match font with
  | Some f => field f
  | None => None
  end.

(** The value of the [font-family] declaration, or the exception of
    [buildFontFamily]. *)
Definition familyOf (font : option excelFont) : result (option jsstring) :=
  match font with
  | Some f => familyText (efont_name f)
  | None => Ok None
  end.

(** The properties of [excelCellStyleToCss] in the order it writes them,
    each with the value written for it, if any. *)
Definition styleProperties (font : option excelFont) (fill : option cellFill)
           (family : option jsstring) : list (jsstring * option jsstring) :=
  [ (str "color", fontPart font (fun f => colorText (argbOf (efont_color f))));
    (str "font-family", family);
    (str "font-size", fontPart font (fun f => sizeText (efont_size f)));
    (str "font-weight", fontPart font (fun f => flagText (efont_bold f) (str "bold")));
    (str "font-style", fontPart font (fun f => flagText (efont_italic f) (str "italic")));
    (str "background-color", colorText (fillArgb fill)) ].

(** The colours a font and a fill refer to are written with hex digits. *)
Definition hexColor (c : option excelColor) : bool :=
  match c with
  | Some col => forallb isHexDigit (argb col)
  | None => true
  end.

(** A cell style the round trip is stated for: colours in hex digits, a
    font name that is empty or plain, a finite size between 0 and [10^9]
    points. *)
Definition loadableFont (f : excelFont) : bool :=
  hexColor (efont_color f)
  && match efont_name f with
     | Some nm => negb (truthy nm) || plainFontName nm
     | None => true
     end
  && match efont_size f with
     | Some (Fin p) => Qle_bool 0 p && Qle_bool p 1000000000
     | _ => true
     end.

Definition loadableFill (fl : cellFill) : bool :=
  hexColor (cfill_fgColor fl) && hexColor (cfill_bgColor fl).

Definition loadableStyle (font : option excelFont) (fill : option cellFill) : bool :=
  match font with Some f => loadableFont f | None => true end
  && match fill with Some fl => loadableFill fl | None => true end.

(** The size [cssToExcelStyle] reads from a [font-size] value. *)
Definition decodedSize (value : jsstring) : option number :=
  match parseCssFontSize value with
  | Some sizePx => pxToPt sizePx
  | None => None
  end.

(** The colour that comes back for the colour [a]: opaque, the last six
    characters of [a] in upper case, padded with zeros when [a] is
    shorter. *)
Definition reloadedColor (a : jsstring) : excelColor :=
  {| argb := str "FF" ++ toUpperCase (padStart 6 "0" (slice_last 6 a)) |}.

Definition setFlag (flag : option bool) : option bool :=
  match flag with
  | Some true => Some true
  | _ => None
  end.

(** The size that comes back: the size converted to pixels and back, when
    the size is written at all. *)
Definition reloadedSize (size : option number) : option number :=
  match size with
  | Some sz => if numberTruthy sz then pointsRoundTrip sz else None
  | None => None
  end.

(** The style that comes back for the font and fill of a cell. *)
Definition reloadedStyle (font : option excelFont) (fill : option cellFill)
  : excelStyle :=
  excelStyleWith
    (option_map reloadedColor (fontPart font (fun f => argbOf (efont_color f))))
    (fontPart font (fun f => nonEmpty (efont_name f)))
    (fontPart font (fun f => reloadedSize (efont_size f)))
    (fontPart font (fun f => setFlag (efont_bold f)))
    (fontPart font (fun f => setFlag (efont_italic f)))
    (option_map (fun a => solidFill (reloadedColor a)) (fillArgb fill)).

(** A cell as a workbook has it: dark blue bold Calibri of 11 points on a
    light yellow pattern fill. *)
Definition sampleFont : excelFont :=
  {| efont_color := Some {| argb := str "FF1F4E79" |};
     efont_name := Some (str "Calibri");
     efont_size := Some (Fin 11);
     efont_bold := Some true;
     efont_italic := None |}.

Definition sampleFill : cellFill :=
  {| cfill_type := str "pattern";
     cfill_fgColor := Some {| argb := str "FFFFF2CC" |};
     cfill_bgColor := None |}.

(* ----------------------------------------------------------------- *)
(** ** Reference definitions: the selection *)

(** Whether the cell at row [r] and column [c] lies in the rectangle
    between the two corners of the range, whatever their order. *)
Definition inRange (range : selectedRange) (r c : nat) : bool :=
  (Nat.min (y1 range) (y2 range) <=? r) && (r <=? Nat.max (y1 range) (y2 range))
  && (Nat.min (x1 range) (x2 range) <=? c) && (c <=? Nat.max (x1 range) (x2 range)).


(** A selection, a toolbar action and the styles of a sheet with one styled
    cell, and the styles after the action. *)
Definition sampleRange : selectedRange := {| x1 := 2; y1 := 1; x2 := 0; y2 := 0 |}.

Definition sampleUpdates : jsobject := [(str "font-weight", str "bold")].

Definition sampleStyles : styleStore :=
  fun r c => if (r =? 0) && (c =? 0) then Some (str "color: #ff0000") else None.

Definition restyled : styleStore :=
  match applyStyleToSelection (Some sampleRange) sampleUpdates sampleStyles with
  | Ok styles => styles
  | TypeError => sampleStyles
  end.

(** The ExcelJS reading of a style of the xlsx library: a colour is the
    string its [rgb] or [RGB] holds, a fill is a pattern fill with the
    colour object [fill.fgColor || fill.bgColor]. *)
Definition asExcelColor (c : xlsxColor) : excelColor :=
  {| argb := textOrEmpty (orElse (rgb c) (RGB c)) |}.

Definition asExcelFont (f : xlsxFont) : excelFont :=
  {| efont_color := match font_color f with
                    | Some (Some c) => Some (asExcelColor c)
                    | _ => None
                    end;
     efont_name := font_name f;
     efont_size := font_sz f;
     efont_bold := font_bold f;
     efont_italic := font_italic f |}.

Definition asCellFill (fl : xlsxFill) : cellFill :=
  {| cfill_type := str "pattern";
     cfill_fgColor := option_map asExcelColor
                        (match fgColor fl with Some c => Some c | None => bgColor fl end);
     cfill_bgColor := None |}.
(* ================================================================= *)
(** * Part II: properties *)
(* ================================================================= *)

Unset Implicit Arguments.

(* ----------------------------------------------------------------- *)
(** ** Rounding to binary64 *)

Section Rounding.

Open Scope Q_scope.

Lemma two_pow_pos e : 0 < two_pow e.
Proof. apply Qpower_0_lt. reflexivity. Qed.

Lemma two_pow_plus a b : two_pow (a + b) == two_pow a * two_pow b.
Proof. apply Qpower_plus. discriminate. Qed.

Lemma two_pow_inject (z : Z) : (0 <= z)%Z -> two_pow z == inject_Z (2 ^ z).
Proof. intros H. unfold two_pow. symmetry. apply (Zpower_Qpower 2 z H). Qed.

Lemma roundTiesToEven_near t :
  t - (1 # 2) <= inject_Z (roundTiesToEven t) <= t + (1 # 2).
Proof.
  unfold roundTiesToEven.
  pose proof (Qfloor_le t) as Hlo. pose proof (Qlt_floor t) as Hhi.
  rewrite inject_Z_plus in Hhi. change (inject_Z 1) with 1 in Hhi.
  destruct (Qcompare_spec (t - inject_Z (Qfloor t)) (1 # 2)) as [E|L|G].
  - destruct (Z.even (Qfloor t));
      [|rewrite inject_Z_plus; change (inject_Z 1) with 1]; lra.
  - lra.
  - rewrite inject_Z_plus. change (inject_Z 1) with 1. lra.
Qed.

(** [ilog2 x] is not above the binary logarithm of [|x|]. *)
Lemma ilog2_le x : ~ x == 0 -> two_pow (ilog2 x) <= Qabs x.
Proof.
  intros Hx. unfold ilog2.
  set (N := Z.abs (Qnum x)). set (D := Zpos (Qden x)).
  set (k := (Z.log2 N - Z.log2 D)%Z).
  destruct (Qle_bool (two_pow k) (Qabs x)) eqn:E.
  - apply Qle_bool_iff. exact E.
  - assert (HN : (0 < N)%Z).
    { unfold N. destruct x as [n d]. unfold Qeq in Hx. simpl in *. lia. }
    assert (HD : (0 < D)%Z) by (unfold D; lia).
    pose proof (Z.log2_spec N HN) as [HN1 _].
    pose proof (Z.log2_spec D HD) as [_ HD2].
    pose proof (Z.log2_nonneg N) as HlN. pose proof (Z.log2_nonneg D) as HlD.
    assert (Habs : Qabs x == inject_Z N / inject_Z D).
    { destruct x as [n d]. unfold N, D. simpl Qnum. simpl Qden.
      rewrite <- Zabs_Qabs. rewrite (Qmake_Qdiv (Z.abs n) d). reflexivity. }
    rewrite Habs.
    assert (HDq : 0 < inject_Z D)
      by (change 0 with (inject_Z 0); rewrite <- Zlt_Qlt; exact HD).
    apply Qle_shift_div_l; [exact HDq|].
    apply Qle_trans with (two_pow (k - 1) * two_pow (Z.log2 D + 1)).
    + apply Qmult_le_l; [apply two_pow_pos|].
      rewrite two_pow_inject by lia. rewrite <- Zle_Qle. lia.
    + rewrite <- two_pow_plus.
      replace (k - 1 + (Z.log2 D + 1))%Z with (Z.log2 N) by (unfold k; lia).
      rewrite two_pow_inject by lia. rewrite <- Zle_Qle. exact HN1.
Qed.

Lemma round_binary64_zero x : x == 0 -> round_binary64 x == 0.
Proof.
  intros H. unfold round_binary64.
  set (t := x / two_pow (binary64_exponent x)).
  assert (Z0 : t == 0).
  { unfold t, Qdiv.
    transitivity (0 * / two_pow (binary64_exponent x)); [|ring].
    apply Qmult_comp; [exact H|reflexivity]. }
  assert (E : roundTiesToEven t = 0%Z).
  { pose proof (roundTiesToEven_near t) as [A B].
    assert (L : inject_Z (-1) < inject_Z (roundTiesToEven t))
      by (change (inject_Z (-1)) with (-1); lra).
    assert (U : inject_Z (roundTiesToEven t) < inject_Z 1)
      by (change (inject_Z 1) with 1; lra).
    rewrite <- Zlt_Qlt in L, U. lia. }
  rewrite E. ring.
Qed.

(** One rounding moves [x] by at most [|x| * 2^-53], or by [2^-1075] in the
    subnormal range. *)
Lemma round_binary64_error x :
  Qabs (round_binary64 x - x) <= (Qabs x + 1) * ulp53.
Proof.
  destruct (Qeq_dec x 0) as [Hz|Hnz].
  { rewrite (round_binary64_zero x Hz). rewrite Hz. vm_compute. discriminate. }
  unfold round_binary64.
  set (e := binary64_exponent x).
  pose proof (two_pow_pos e) as He.
  pose proof (roundTiesToEven_near (x / two_pow e)) as [A B].
  set (n := inject_Z (roundTiesToEven (x / two_pow e))) in *.
  assert (Hhalf : Qabs (n * two_pow e - x) <= (1 # 2) * two_pow e).
  { apply Qabs_Qle_condition.
    assert (Hx : x == (x / two_pow e) * two_pow e) by (field; lra).
    set (t := x / two_pow e) in *.
    split.
    - setoid_replace (n * two_pow e - x) with ((n - t) * two_pow e)
        by (rewrite Hx at 1; ring).
      assert (- (1 # 2) <= n - t) by lra. nra.
    - setoid_replace (n * two_pow e - x) with ((n - t) * two_pow e)
        by (rewrite Hx at 1; ring).
      assert (n - t <= 1 # 2) by lra. nra. }
  eapply Qle_trans; [exact Hhalf|].
  pose proof (Qabs_nonneg x) as Hax.
  unfold e, binary64_exponent.
  destruct (Z.max_spec (ilog2 x) (-1022)) as [[Hlt ->]|[Hge ->]].
  - change (two_pow (-1022 - 52)) with (two_pow (-1074)).
    assert (Hc : (1 # 2) * two_pow (-1074) <= ulp53) by (vm_compute; discriminate).
    assert (0 <= Qabs x * ulp53)
      by (apply Qmult_le_0_compat; [exact Hax|vm_compute; discriminate]).
    lra.
  - replace (ilog2 x - 52)%Z with (ilog2 x + (-52))%Z by lia.
    rewrite two_pow_plus.
    pose proof (ilog2_le x Hnz) as Hl.
    setoid_replace ((1 # 2) * (two_pow (ilog2 x) * two_pow (-52)))
      with (two_pow (ilog2 x) * ulp53)
      by (change (two_pow (-52)) with (1 # 4503599627370496); unfold ulp53; field).
    assert (Hu : 0 < ulp53) by reflexivity.
    nra.
Qed.

(** Below [10^30] nothing overflows: the product or quotient is a finite
    number next to the exact one. *)
Lemma toNumber_finite x B :
  Qabs x <= B -> B <= 1000000000000000000000000000000 ->
  exists a, toNumber x = Fin a /\
            x - (B + 1) * ulp53 <= a <= x + (B + 1) * ulp53.
Proof.
  intros Hx HB. unfold toNumber.
  pose proof (round_binary64_error x) as Herr.
  set (r := round_binary64 x) in *.
  apply Qabs_Qle_condition in Herr.
  pose proof (Qabs_nonneg x) as Hax.
  assert (Hu : ulp53 == 1 # 9007199254740992) by reflexivity.
  assert (Hr : x - (B + 1) * ulp53 <= r <= x + (B + 1) * ulp53).
  { rewrite Hu in *. split; nra. }
  assert (Hbig : 3000000000000000000000000000000 < two_pow 1024)
    by (vm_compute; reflexivity).
  destruct (Qle_bool (two_pow 1024) (Qabs r)) eqn:E.
  - exfalso. apply Qle_bool_iff in E.
    apply Qabs_Qle_condition in Hx.
    assert (Qabs r <= 2 * B + 1).
    { apply Qabs_Qle_condition. rewrite Hu in *. split; lra. }
    lra.
  - exists (Qred r). split; [reflexivity|]. rewrite (Qred_correct r). exact Hr.
Qed.

Lemma toNumber_Fin_inv x t : toNumber x = Fin t -> t == round_binary64 x.
Proof.
  unfold toNumber. intros H.
  destruct (Qle_bool (two_pow 1024) (Qabs (round_binary64 x))); [discriminate|].
  assert (E : t = Qred (round_binary64 x)) by congruence.
  rewrite E. apply Qred_correct.
Qed.

(** The rounding agrees with the binary64 multiplication and division of
    the standard library on the constants of the unit codec, on a product
    that overflows, on subnormal ties and on a negative operand. *)
Lemma rounding_agrees_with_SpecFloat :
  let mul64 := SpecFloat.SFmul 53 1024 in
  let div64 := SpecFloat.SFdiv 53 1024 in
  let px := div64 (binary64 4 0) (binary64 3 0) in
  specValue px = PX_PER_POINT /\
  specValue (div64 (binary64 1 0) px) = PT_PER_PX /\
  specValue (mul64 (binary64 12 0) px) = mul (Fin 12) PX_PER_POINT /\
  specValue (mul64 (binary64 10 0) px) = mul (Fin 10) PX_PER_POINT /\
  specValue (div64 (binary64 1333 0) (binary64 100 0)) = div (Fin 1333) (Fin 100) /\
  specValue (div64 (binary64 7 0) (binary64 100 0)) = div (Fin 7) (Fin 100) /\
  specValue (mul64 (binary64 1 1023) (binary64 100 0))
    = mul (Fin (two_pow 1023)) (Fin 100) /\
  specValue (mul64 (binary64 3 (-1074)) (binary64 1 (-1)))
    = mul (Fin (3 * two_pow (-1074))) (Fin (1 # 2)) /\
  specValue (mul64 (binary64 5 (-1074)) (binary64 1 (-1)))
    = mul (Fin (5 * two_pow (-1074))) (Fin (1 # 2)) /\
  specValue (mul64 (binary64 (-1) (-3)) (binary64 100 0))
    = mul (Fin (- (1 # 8))) (Fin 100) /\
  specValue (mul64 (binary64 9007199254740993 0) (binary64 3 0))
    = mul (Fin 9007199254740992) (Fin 3).
Proof. repeat split; vm_compute; reflexivity. Qed.

End Rounding.

(* ----------------------------------------------------------------- *)
(** ** Unit codec: the rounding of [toFixedNumber] *)

Section UnitCodec.

Open Scope Q_scope.

Lemma Qfloor_unique x z :
  inject_Z z <= x -> x < inject_Z z + 1 -> Qfloor x = z.
Proof.
  intros L U.
  pose proof (Qfloor_le x) as Hlo. pose proof (Qlt_floor x) as Hhi.
  rewrite inject_Z_plus in Hhi. change (inject_Z 1) with 1 in Hhi.
  assert (A : inject_Z z < inject_Z (Qfloor x + 1)).
  { rewrite inject_Z_plus. change (inject_Z 1) with 1. lra. }
  assert (B : inject_Z (Qfloor x) < inject_Z (z + 1)).
  { rewrite inject_Z_plus. change (inject_Z 1) with 1. lra. }
  rewrite <- Zlt_Qlt in A, B. lia.
Qed.

(** [Math.round] against rounding half away from zero: the two agree except
    on negative ties, where [Math.round] gives the larger integer. *)
Lemma Math_round_upward t :
  Qfloor (t + (1 # 2)) =
  (roundHalfAwayFromZero t + (if isNegativeTie t then 1 else 0))%Z.
Proof.
  unfold roundHalfAwayFromZero, isNegativeTie, Qnegative.
  destruct t as [n d]. destruct n as [|p|p].
  - cbn [Qnum Z.sgn]. replace (Qle_bool 0 (0 # d)) with true by reflexivity.
    cbn [negb andb]. apply Qfloor_unique.
    + unfold Qle; simpl; lia.
    + unfold Qlt; simpl; lia.
  - cbn [Qnum Z.sgn]. replace (Qle_bool 0 (Z.pos p # d)) with true by reflexivity.
    cbn [negb andb]. change (Qabs (Z.pos p # d)) with (Z.pos p # d). lia.
  - cbn [Qnum Z.sgn]. replace (Qle_bool 0 (Z.neg p # d)) with false by reflexivity.
    cbn [negb andb]. change (Qabs (Z.neg p # d)) with (Z.pos p # d).
    set (s := Z.pos p # d).
    assert (Ht : Z.neg p # d == - s) by reflexivity.
    set (k := Qfloor (s + (1 # 2))).
    pose proof (Qfloor_le (s + (1 # 2))) as Hlo.
    pose proof (Qlt_floor (s + (1 # 2))) as Hhi.
    fold k in Hlo, Hhi.
    rewrite inject_Z_plus in Hhi. change (inject_Z 1) with 1 in Hhi.
    destruct (Qeq_bool (s - inject_Z (Qfloor s)) (1 # 2)) eqn:E.
    + apply Qeq_bool_iff in E.
      pose proof (Qfloor_le s) as Hlo'. pose proof (Qlt_floor s) as Hhi'.
      rewrite inject_Z_plus in Hhi'. change (inject_Z 1) with 1 in Hhi'.
      assert (Hk : k = (Qfloor s + 1)%Z).
      { apply Qfloor_unique; rewrite inject_Z_plus; change (inject_Z 1) with 1; lra. }
      apply Qfloor_unique.
      * rewrite Ht, Hk. rewrite !inject_Z_plus, !inject_Z_mult, inject_Z_plus.
        change (inject_Z 1) with 1. change (inject_Z (-1)) with (-1). lra.
      * rewrite Ht, Hk. rewrite !inject_Z_plus, !inject_Z_mult, inject_Z_plus.
        change (inject_Z 1) with 1. change (inject_Z (-1)) with (-1). lra.
    + assert (Hstrict : inject_Z k - (1 # 2) < s).
      { destruct (Qlt_le_dec (inject_Z k - (1 # 2)) s) as [L|G]; [exact L|].
        exfalso.
        assert (Hs : s == inject_Z k - (1 # 2)) by lra.
        assert (Hf : Qfloor s = (k - 1)%Z).
        { apply Qfloor_unique; unfold Zminus; rewrite inject_Z_plus, inject_Z_opp;
            change (inject_Z 1) with 1; lra. }
        assert (Et : s - inject_Z (Qfloor s) == 1 # 2).
        { rewrite Hf. unfold Zminus. rewrite inject_Z_plus, inject_Z_opp.
          change (inject_Z 1) with 1. lra. }
        apply Qeq_bool_iff in Et. congruence. }
      replace (-1 * k + 0)%Z with (- k)%Z by lia.
      apply Qfloor_unique.
      * rewrite Ht, inject_Z_opp. lra.
      * rewrite Ht, inject_Z_opp. lra.
Qed.

(** [Math.round] on numbers is the upward rounding of ties. *)
Lemma Math_round_ties_upward x : Math_round x = roundTiesUpward x.
Proof.
  destruct x as [| s | t]; cbn [Math_round roundTiesUpward]; try reflexivity.
  rewrite Math_round_upward. reflexivity.
Qed.

Lemma toFixedNumber_finite v :
  toFixedNumber (Fin v) = Some (div (Math_round (mul (Fin v) (Fin 100))) (Fin 100)).
Proof. reflexivity. Qed.

(** Claim C7 (as amended): for every finite [v], [toFixedNumber] scales
    [v] by 100, rounds the product to the nearest integer with a tie going to
    the larger integer, and divides by 100.  The integer is the one rounding
    half away from zero gives, [sign * floor(|v * 100| + 1/2)], except when
    the product is negative and exactly halfway between two integers, where
    it is larger by one. *)
Theorem toFixedNumber_rounds_ties_upward (v : Q) :
  toFixedNumber (Fin v) =
  Some (div (roundTiesUpward (mul (Fin v) (Fin 100))) (Fin 100)).
Proof.
  rewrite toFixedNumber_finite. rewrite Math_round_ties_upward. reflexivity.
Qed.

(** Counterexample to claim C7 as stated: [toFixedNumber(-0.125)] is
    [-0.12], where rounding half away from zero gives [-0.13]. *)
Lemma toFixedNumber_negative_tie :
  toFixedNumber (Fin (- (1 # 8))) = Some (div (Fin (-12)) (Fin 100)) /\
  toFixedHalfAway (Fin (- (1 # 8))) = Some (div (Fin (-13)) (Fin 100)) /\
  toFixedNumber (Fin (- (1 # 8))) <> toFixedHalfAway (Fin (- (1 # 8))).
Proof.
  split; [vm_compute; reflexivity|].
  split; [vm_compute; reflexivity|].
  vm_compute. discriminate.
Qed.

(** Where no negative tie occurs the two roundings coincide; in particular
    for every [v >= 0]. *)
Lemma toFixedNumber_half_away_nonneg (v : Q) :
  0 <= v -> toFixedNumber (Fin v) = toFixedHalfAway (Fin v).
Proof.
  intros Hv. rewrite toFixedNumber_finite, Math_round_ties_upward.
  unfold toFixedHalfAway. cbn [Number_isFinite negb]. f_equal. f_equal.
  change (mul (Fin v) (Fin 100)) with (toNumber (v * 100)).
  destruct (toNumber (v * 100)) as [| s | t] eqn:E; cbn [roundTiesUpward];
    try reflexivity.
  assert (Ht : isNegativeTie t = false).
  { unfold isNegativeTie, Qnegative.
    assert (H0 : Qle_bool 0 t = true).
    { apply Qle_bool_iff. rewrite (toNumber_Fin_inv _ _ E).
      unfold round_binary64.
      set (e := binary64_exponent (v * 100)).
      pose proof (two_pow_pos e) as He.
      pose proof (roundTiesToEven_near (v * 100 / two_pow e)) as [A _].
      assert (Hq : 0 <= v * 100 / two_pow e).
      { apply Qle_shift_div_l; [exact He|]. lra. }
      assert (Hn : (0 <= roundTiesToEven (v * 100 / two_pow e))%Z).
      { assert (L : inject_Z (-1) < inject_Z (roundTiesToEven (v * 100 / two_pow e)))
          by (change (inject_Z (-1)) with (-1); lra).
        rewrite <- Zlt_Qlt in L. lia. }
      rewrite Zle_Qle in Hn. change (inject_Z 0) with 0 in Hn. nra. }
    rewrite H0. reflexivity. }
  rewrite Ht. rewrite Z.add_0_r. reflexivity.
Qed.

(* ----------------------------------------------------------------- *)
(** ** Unit codec: the round trip points, pixels, points *)

Lemma PX_PER_POINT_value :
  PX_PER_POINT = Fin (6004799503160661 # 4503599627370496).
Proof. vm_compute. reflexivity. Qed.

Lemma PT_PER_PX_value : PT_PER_PX = Fin (3 # 4).
Proof. vm_compute. reflexivity. Qed.

Ltac hundredths := unfold Qdiv in *; change (/ 100) with (1 # 100) in *.
Ltac by_bounds := apply Qabs_Qle_condition; unfold ulp53 in *; hundredths; split; lra.

(** [toFixedNumber] on a bounded value returns the quotient by 100 of an
    integer within a half, plus the error of one rounding, of [100 * v]. *)
Lemma toFixedNumber_bounded v B :
  Qabs v <= B -> B <= 1000000000000 ->
  exists m : Z,
    toFixedNumber (Fin v) = Some (toNumber (inject_Z m / 100)) /\
    100 * v - (1 # 2) - (100 * B + 1) * ulp53 <= inject_Z m
      <= 100 * v + (1 # 2) + (100 * B + 1) * ulp53.
Proof.
  intros Hv HB. unfold toFixedNumber. cbn [Number_isFinite negb mul].
  destruct (toNumber_finite (v * 100) (100 * B)) as (b & Eb & Hb).
  { rewrite Qabs_Qmult. change (Qabs 100) with 100.
    pose proof (Qabs_nonneg v). lra. }
  { lra. }
  rewrite Eb. cbn [Math_round div].
  exists (Qfloor (b + (1 # 2))). split.
  - reflexivity.
  - pose proof (Qfloor_le (b + (1 # 2))) as Hlo.
    pose proof (Qlt_floor (b + (1 # 2))) as Hhi.
    rewrite inject_Z_plus in Hhi. change (inject_Z 1) with 1 in Hhi.
    split; lra.
Qed.

Lemma ptToPx_bounded p :
  Qabs p <= 1000000001 ->
  exists m : Z,
    ptToPx (Fin p) = Some (toNumber (inject_Z m / 100)) /\
    (400 # 3) * p - (501 # 1000) <= inject_Z m <= (400 # 3) * p + (501 # 1000).
Proof.
  intros Hp. unfold ptToPx. cbn [Number_isFinite negb].
  rewrite PX_PER_POINT_value. cbn [mul].
  apply Qabs_Qle_condition in Hp.
  destruct (toNumber_finite (p * (6004799503160661 # 4503599627370496)) 1400000000)
    as (a & Ea & Ha); [by_bounds|lra|].
  rewrite Ea.
  destruct (toFixedNumber_bounded a 1400000001) as (m & Em & Hm); [by_bounds|lra|].
  exists m. split; [exact Em|].
  unfold ulp53 in *. split; lra.
Qed.

Lemma pxToPt_bounded x :
  Qabs x <= 2000000000 ->
  exists n : Z,
    pxToPt (Fin x) = Some (toNumber (inject_Z n / 100)) /\
    75 * x - (501 # 1000) <= inject_Z n <= 75 * x + (501 # 1000).
Proof.
  intros Hx. unfold pxToPt. cbn [Number_isFinite negb].
  rewrite PT_PER_PX_value. cbn [mul].
  apply Qabs_Qle_condition in Hx.
  destruct (toNumber_finite (x * (3 # 4)) 1500000000) as (a & Ea & Ha);
    [by_bounds|lra|].
  rewrite Ea.
  destruct (toFixedNumber_bounded a 1500000001) as (n & En & Hn); [by_bounds|lra|].
  exists n. split; [exact En|].
  unfold ulp53 in *. split; lra.
Qed.

Lemma toNumber_hundredths (m : Z) :
  Qabs (inject_Z m) <= 200000000000 ->
  exists r, toNumber (inject_Z m / 100) = Fin r /\
            inject_Z m / 100 - (1 # 1000000) <= r
              <= inject_Z m / 100 + (1 # 1000000).
Proof.
  intros Hm. apply Qabs_Qle_condition in Hm.
  destruct (toNumber_finite (inject_Z m / 100) 2000000000) as (r & Er & Hr);
    [by_bounds|lra|].
  exists r. split; [exact Er|]. unfold ulp53 in *. hundredths. split; lra.
Qed.

(** One round trip, with the two integers it goes through: [m] hundredths of
    a pixel and [n] hundredths of a point. *)
Lemma pointsRoundTrip_bounded p :
  Qabs p <= 1000000001 ->
  exists (m n : Z) (r : Q),
    pointsRoundTrip (Fin p) = Some (Fin r) /\
    toNumber (inject_Z n / 100) = Fin r /\
    (400 # 3) * p - (501 # 1000) <= inject_Z m <= (400 # 3) * p + (501 # 1000) /\
    (3 # 4) * inject_Z m - (502 # 1000) <= inject_Z n
      <= (3 # 4) * inject_Z m + (502 # 1000) /\
    inject_Z n / 100 - (1 # 1000000) <= r <= inject_Z n / 100 + (1 # 1000000).
Proof.
  intros Hp. unfold pointsRoundTrip.
  destruct (ptToPx_bounded p Hp) as (m & Em & Hm). rewrite Em.
  apply Qabs_Qle_condition in Hp.
  destruct (toNumber_hundredths m) as (px & Epx & Hpx); [by_bounds|].
  rewrite Epx.
  destruct (pxToPt_bounded px) as (n & En & Hn); [by_bounds|].
  rewrite En.
  destruct (toNumber_hundredths n) as (r & Er & Hr); [by_bounds|].
  exists m, n, r. rewrite Er. repeat split; try reflexivity; try tauto.
  - hundredths. lra.
  - hundredths. lra.
Qed.

Lemma pointsRoundTrip_near p :
  0 <= p <= 1000000000 ->
  exists r, pointsRoundTrip (Fin p) = Some (Fin r) /\ Qabs (r - p) <= 1 # 100.
Proof.
  intros Hp.
  destruct (pointsRoundTrip_bounded p) as (m & n & r & E & _ & Hm & Hn & Hr);
    [by_bounds|].
  exists r. split; [exact E|]. by_bounds.
Qed.

(** The result of a round trip is a fixed point of the round trip. *)
Lemma pointsRoundTrip_stable p r :
  0 <= p <= 1000000000 ->
  pointsRoundTrip (Fin p) = Some (Fin r) ->
  pointsRoundTrip (Fin r) = Some (Fin r).
Proof.
  intros Hp E.
  destruct (pointsRoundTrip_bounded p) as (m & n & r0 & E0 & En & Hm & Hn & Hr);
    [by_bounds|].
  rewrite E in E0. injection E0 as <-.
  destruct (pointsRoundTrip_bounded r)
    as (m' & n' & r' & E' & En' & Hm' & Hn' & Hr'); [by_bounds|].
  rewrite E'. rewrite <- En', <- En.
  assert (H3 : (-1 <= 3 * m' - 4 * n <= 1)%Z).
  { assert (L : inject_Z (-2) < inject_Z (3 * m' - 4 * n)).
    { unfold Zminus. rewrite inject_Z_plus, inject_Z_opp, !inject_Z_mult.
      change (inject_Z (-2)) with (-2). change (inject_Z 3) with 3.
      change (inject_Z 4) with 4. hundredths. lra. }
    assert (U : inject_Z (3 * m' - 4 * n) < inject_Z 2).
    { unfold Zminus. rewrite inject_Z_plus, inject_Z_opp, !inject_Z_mult.
      change (inject_Z 2) with 2. change (inject_Z 3) with 3.
      change (inject_Z 4) with 4. hundredths. lra. }
    rewrite <- Zlt_Qlt in L, U. lia. }
  assert (Hq : -1 <= 3 * inject_Z m' - 4 * inject_Z n <= 1).
  { destruct H3 as [L U]. rewrite Zle_Qle in L, U.
    unfold Zminus in L, U.
    rewrite inject_Z_plus, inject_Z_opp, !inject_Z_mult in L, U.
    change (inject_Z (-1)) with (-1) in L. change (inject_Z 1) with 1 in U.
    change (inject_Z 3) with 3 in L, U. change (inject_Z 4) with 4 in L, U.
    split; lra. }
  assert (Hnn : n' = n).
  { assert (L : inject_Z (n - 1) < inject_Z n').
    { unfold Zminus. rewrite inject_Z_plus, inject_Z_opp.
      change (inject_Z 1) with 1. lra. }
    assert (U : inject_Z n' < inject_Z (n + 1)).
    { rewrite inject_Z_plus. change (inject_Z 1) with 1. lra. }
    rewrite <- Zlt_Qlt in L, U. lia. }
  rewrite Hnn. reflexivity.
Qed.

(** Claim C1 (as amended): for every point size [p] with
    [0 <= p <= 10^9], [pxToPt(ptToPx(p))] is a number within 0.01 of [p],
    and applying the pair twice more returns that same number, so the
    distance from [p] does not grow. *)
Theorem font_size_round_trip (p : Q) :
  0 <= p <= 1000000000 -> roundTripWithinUnit p.
Proof.
  intros Hp.
  destruct (pointsRoundTrip_near p Hp) as (r & E & Hr).
  pose proof (pointsRoundTrip_stable p r Hp E) as Hs.
  exists r. split; [exact E|]. split; [exact Hr|].
  exists r. split.
  - cbn [roundTripAgain]. rewrite Hs. cbn [roundTripAgain]. exact Hs.
  - apply Qle_refl.
Qed.

Lemma font_size_round_trip_witness :
  0 <= 12 <= 1000000000 /\ roundTripWithinUnit 12.
Proof.
  assert (H : 0 <= 12 <= 1000000000) by (split; discriminate).
  split; [exact H|]. exact (font_size_round_trip 12 H).
Defined.

(** Counterexample to claim C1 as stated.  [2^1023] is a finite point size;
    its pixel size overflows when scaled by 100, [ptToPx] returns [Infinity]
    and [pxToPt] of that is [null].  Without any overflow, at [10^14] the
    roundings of the products already move the result by [1/64]. *)
Lemma font_size_round_trip_overflow :
  0 <= two_pow 1023 /\
  ptToPx (Fin (two_pow 1023)) = Some (Inf false) /\
  pointsRoundTrip (Fin (two_pow 1023)) = None /\
  ~ roundTripWithinUnit (two_pow 1023) /\
  pointsRoundTrip (Fin 100000000000000) = Some (Fin (100000000000000 - (1 # 64))) /\
  ~ roundTripWithinUnit 100000000000000.
Proof.
  split; [vm_compute; discriminate|].
  split; [vm_compute; reflexivity|].
  assert (E : pointsRoundTrip (Fin (two_pow 1023)) = None)
    by (vm_compute; reflexivity).
  split; [exact E|].
  split; [intros (r & Hr & _); rewrite E in Hr; discriminate|].
  assert (E2 : pointsRoundTrip (Fin 100000000000000)
               = Some (Fin (6399999999999999 # 64)))
    by (vm_compute; reflexivity).
  split; [exact E2|].
  intros (r & Hr & Hd & _). rewrite E2 in Hr. injection Hr as <-.
  vm_compute in Hd. apply Hd. reflexivity.
Qed.

(** [parseFloat] and [Number] on sample texts. *)
Lemma numeric_literal_examples :
  parseFloat (str "12pt") = Fin 12 /\
  parseFloat (str " 16.5px") = Fin (33 # 2) /\
  parseFloat (str "1e3x") = Fin 1000 /\
  parseFloat (str ".5") = Fin (1 # 2) /\
  parseFloat (str "-Infinity") = Inf true /\
  parseFloat (str "large") = NaN /\
  parseFloat (str "0x10") = Fin 0 /\
  StringToNumber (str "42") = Fin 42 /\
  StringToNumber (str " 42 ") = Fin 42 /\
  StringToNumber (str "42abc") = NaN /\
  StringToNumber (str "") = Fin 0 /\
  StringToNumber (str "0x1F") = Fin 31 /\
  StringToNumber (str "-1.5e2") = Fin (-150) /\
  StringToNumber (str "1e999") = Inf false /\
  StringToNumber (str "Infinity") = Inf false /\
  StringToNumber (str "1e") = NaN.
Proof. repeat split; vm_compute; reflexivity. Qed.

End UnitCodec.

(* ----------------------------------------------------------------- *)
(** ** Strings: trimming *)

Lemma trimStart_keeps c s : isWhiteSpace c = false -> trimStart (c :: s) = c :: s.
Proof. intros H. simpl. rewrite H. reflexivity. Qed.

(** A string that neither starts nor ends with white space is its own trim. *)
Lemma trim_fixed s : trimStart s = s -> trimStart (rev s) = rev s -> trim s = s.
Proof.
  intros H1 H2. unfold trim, trimEnd. rewrite H1, H2. apply rev_involutive.
Qed.

Lemma trimStart_idempotent s : trimStart (trimStart s) = trimStart s.
Proof.
  induction s as [|c s IH]; [reflexivity|].
  simpl. destruct (isWhiteSpace c) eqn:E; [exact IH|].
  simpl. rewrite E. reflexivity.
Qed.

Lemma trimStart_length s : length (trimStart s) <= length s.
Proof.
  induction s as [|c s IH]; simpl; [lia|].
  destruct (isWhiteSpace c); simpl; lia.
Qed.

Lemma trimStart_fixed_head c s :
  trimStart (c :: s) = c :: s -> isWhiteSpace c = false.
Proof.
  simpl. destruct (isWhiteSpace c); [|reflexivity].
  intros H. pose proof (trimStart_length s) as L. rewrite H in L.
  simpl in L. lia.
Qed.

Lemma trimStart_same_length s :
  length (trimStart s) = length s -> trimStart s = s.
Proof.
  destruct s as [|c s]; [reflexivity|]. simpl.
  destruct (isWhiteSpace c); [|reflexivity].
  intros H. pose proof (trimStart_length s). lia.
Qed.

Lemma trim_fixed_inv s :
  trim s = s -> trimStart s = s /\ trimStart (rev s) = rev s.
Proof.
  unfold trim, trimEnd. intros H.
  assert (L : length (trimStart (rev (trimStart s))) = length s).
  { rewrite <- (length_rev (trimStart (rev (trimStart s)))). rewrite H.
    reflexivity. }
  pose proof (trimStart_length (rev (trimStart s))) as L1.
  rewrite length_rev in L1.
  pose proof (trimStart_length s) as L2.
  assert (E1 : trimStart s = s) by (apply trimStart_same_length; lia).
  split; [exact E1|].
  rewrite E1 in H.
  rewrite <- (rev_involutive (trimStart (rev s))). rewrite H. reflexivity.
Qed.

(* ----------------------------------------------------------------- *)
(** ** Colour codec *)

Lemma hex_not_space c : isHexDigit c = true -> isWhiteSpace c = false.
Proof.
  destruct c as [[] [] [] [] [] [] [] []]; vm_compute; intros H;
    solve [reflexivity | discriminate H].
Qed.

Lemma hex_not_hash c : isHexDigit c = true -> Ascii.eqb "#" c = false.
Proof.
  destruct c as [[] [] [] [] [] [] [] []]; vm_compute; intros H;
    solve [reflexivity | discriminate H].
Qed.

Lemma lower_upper c : lowerChar (upperChar c) = lowerChar c.
Proof. destruct c as [[] [] [] [] [] [] [] []]; vm_compute; reflexivity. Qed.

Lemma toLowerCase_toUpperCase s : toLowerCase (toUpperCase s) = toLowerCase s.
Proof.
  unfold toLowerCase, toUpperCase. rewrite map_map.
  apply map_ext. exact lower_upper.
Qed.

Ltac hex_facts :=
  repeat match goal with
         | H : isHexDigit ?c = true |- _ =>
             pose proof (hex_not_space c H); pose proof (hex_not_hash c H);
             clear H
         end.

Ltac split_hex H :=
  cbn [forallb] in H;
  repeat match type of H with
         | (_ && _)%bool = true =>
             let A := fresh "Hd" in
             apply andb_prop in H; destruct H as [A H]
         end.

Lemma trim_hex6 a b c d e f :
  isWhiteSpace a = false -> isWhiteSpace f = false ->
  trim [a; b; c; d; e; f] = [a; b; c; d; e; f].
Proof.
  intros Ha Hf. apply trim_fixed; simpl; [rewrite Ha|rewrite Hf]; reflexivity.
Qed.

Lemma trim_hex3 a b c :
  isWhiteSpace a = false -> isWhiteSpace c = false ->
  trim [a; b; c] = [a; b; c].
Proof.
  intros Ha Hc. apply trim_fixed; simpl; [rewrite Ha|rewrite Hc]; reflexivity.
Qed.

Lemma trim_hash s : trim s = s -> trim ("#"%char :: s) = "#"%char :: s.
Proof.
  intros H. destruct s as [|c s]; [reflexivity|].
  destruct (trim_fixed_inv _ H) as [H1 H2].
  apply trim_fixed.
  - reflexivity.
  - change (rev ("#"%char :: c :: s)) with (rev (c :: s) ++ ["#"%char]).
    destruct (rev (c :: s)) as [|y t] eqn:Er.
    + exfalso. apply (f_equal (@length ascii)) in Er. rewrite length_rev in Er.
      discriminate Er.
    + pose proof (trimStart_fixed_head _ _ H2) as Hy.
      simpl. rewrite Hy. reflexivity.
Qed.

(** Claim C2: for every 3-digit or 6-digit hex colour, with or without
    the leading [#] and in any letter case, [xlsxColorToCSS(cssColorToXlsx(h))]
    is the canonical 6-digit form of [h]: [#] followed by the six digits, a
    3-digit input having each digit doubled; it has seven characters and
    differs from the digits of [h] in letter case only. *)
Theorem hex_color_round_trip (hash : bool) (digits : jsstring) :
  forallb isHexDigit digits = true ->
  length digits = 3 \/ length digits = 6 ->
  let h := if hash then "#"%char :: digits else digits in
  xlsxColorToCSS (cssColorToXlsx h) = Some (canonicalHex digits) /\
  length (canonicalHex digits) = 7 /\
  toLowerCase (canonicalHex digits) =
    "#"%char :: toLowerCase (expandShortHex digits).
Proof.
  intros Hhex Hlen h. split; [|split].
  - destruct Hlen as [H3|H6].
    + destruct digits as [|a [|b [|c [|]]]]; try discriminate H3.
      split_hex Hhex. hex_facts.
      assert (Ht : trim [a; b; c] = [a; b; c]) by (apply trim_hex3; assumption).
      unfold h, cssColorToXlsx. destruct hash.
      * cbn [truthy negb]. rewrite (trim_hash _ Ht). reflexivity.
      * cbn [truthy negb]. rewrite Ht.
        cbn [startsWith str String.list_ascii_of_string].
        match goal with H : Ascii.eqb "#" a = false |- _ => rewrite H end.
        reflexivity.
    + destruct digits as [|a [|b [|c [|d [|e [|f [|]]]]]]]; try discriminate H6.
      split_hex Hhex. hex_facts.
      assert (Ht : trim [a; b; c; d; e; f] = [a; b; c; d; e; f])
        by (apply trim_hex6; assumption).
      unfold h, cssColorToXlsx. destruct hash.
      * cbn [truthy negb]. rewrite (trim_hash _ Ht). reflexivity.
      * cbn [truthy negb]. rewrite Ht.
        cbn [startsWith str String.list_ascii_of_string].
        match goal with H : Ascii.eqb "#" a = false |- _ => rewrite H end.
        reflexivity.
  - unfold canonicalHex, toUpperCase. cbn [length]. rewrite length_map.
    destruct Hlen as [H|H];
      destruct digits as [|a [|b [|c [|d [|e [|f [|]]]]]]]; try discriminate H;
      reflexivity.
  - unfold canonicalHex. cbn [toLowerCase map].
    change (map lowerChar (toUpperCase (expandShortHex digits)))
      with (toLowerCase (toUpperCase (expandShortHex digits))).
    rewrite toLowerCase_toUpperCase. reflexivity.
Qed.

Lemma hex_color_round_trip_witness :
  xlsxColorToCSS (cssColorToXlsx (str "#aBc")) = Some (str "#AABBCC") /\
  xlsxColorToCSS (cssColorToXlsx (str "1f2E3d")) = Some (str "#1F2E3D").
Proof.
  split.
  - exact (proj1 (hex_color_round_trip true (str "aBc") eq_refl (or_introl eq_refl))).
  - exact (proj1 (hex_color_round_trip false (str "1f2E3d") eq_refl (or_intror eq_refl))).
Defined.


(** Claim C6 (code defect): the ExcelJS variant inside [cssToExcelStyle]
    pads the digits on the left with [0] instead of doubling a 3-digit
    colour, and rejects no length.  For [#abc] the xlsx variant packs
    [FFAABBCC] and the ExcelJS variant [FF000ABC]; for the 4-digit [#abcd]
    the xlsx variant gives no colour and the ExcelJS variant [FF00ABCD]. *)
Theorem excel_color_not_expanded :
  cssColorToXlsx (str "#abc") = Some {| rgb := Some (str "FFAABBCC"); RGB := None |} /\
  option_map efont_color (efont (cssToExcelStyle (str "color: #abc")))
    = Some (Some {| argb := str "FF000ABC" |}) /\
  option_map efill_fgColor (efill (cssToExcelStyle (str "background-color: #abc")))
    = Some {| argb := str "FF000ABC" |} /\
  cssColorToXlsx (str "#abcd") = None /\
  option_map efont_color (efont (cssToExcelStyle (str "color: #abcd")))
    = Some (Some {| argb := str "FF00ABCD" |}).
Proof. repeat split; vm_compute; reflexivity. Qed.

(* ----------------------------------------------------------------- *)
(** ** Font resolution *)

Lemma jsstring_eqb_eq a b : jsstring_eqb a b = true <-> a = b.
Proof.
  unfold jsstring_eqb. destruct (list_eq_dec ascii_dec a b); split; intros H;
    try reflexivity; try assumption; try discriminate; contradiction.
Qed.

Lemma jsstring_eqb_refl a : jsstring_eqb a a = true.
Proof. apply jsstring_eqb_eq. reflexivity. Qed.

Lemma jsstring_eqb_neq a b : jsstring_eqb a b = false <-> a <> b.
Proof.
  unfold jsstring_eqb. destruct (list_eq_dec ascii_dec a b); split; intros H;
    try reflexivity; try assumption; try discriminate; contradiction.
Qed.

Lemma seen_spec key seen :
  existsb (jsstring_eqb key) seen = true <-> In key seen.
Proof.
  rewrite existsb_exists. split.
  - intros (x & Hx & E). apply jsstring_eqb_eq in E. subst. exact Hx.
  - intros H. exists key. split; [exact H|apply jsstring_eqb_refl].
Qed.

(** The parts kept by the filter have pairwise different lower-cased texts,
    none of them seen before. *)
Lemma dedupe_distinct parts : forall seen,
  NoDup (map toLowerCase (dedupe seen parts)) /\
  forall part, In part (dedupe seen parts) -> ~ In (toLowerCase part) seen.
Proof.
  induction parts as [|p parts IH]; intros seen; simpl.
  - split; [constructor|intros ? []].
  - destruct (existsb (jsstring_eqb (toLowerCase p)) seen) eqn:E.
    + apply IH.
    + destruct (IH (toLowerCase p :: seen)) as [ND Hnot].
      assert (Hp : ~ In (toLowerCase p) seen).
      { intros Hin. apply seen_spec in Hin. congruence. }
      split.
      * simpl. constructor; [|exact ND].
        intros Hin. apply in_map_iff in Hin. destruct Hin as (q & Eq & Hq).
        apply (Hnot q Hq). left. symmetry. exact Eq.
      * intros part [<-|Hin]; [exact Hp|].
        intros Hs. apply (Hnot part Hin). right. exact Hs.
Qed.

(** The filter keeps the parts in their order. *)
Lemma dedupe_in_order parts : forall seen,
  exists keep : list bool,
    length keep = length parts /\
    dedupe seen parts =
      map snd (filter fst (combine keep parts)).
Proof.
  induction parts as [|p parts IH]; intros seen; simpl.
  - exists []. split; reflexivity.
  - destruct (existsb (jsstring_eqb (toLowerCase p)) seen).
    + destruct (IH seen) as (keep & L & E).
      exists (false :: keep). split; [simpl; lia|]. simpl. exact E.
    + destruct (IH (toLowerCase p :: seen)) as (keep & L & E).
      exists (true :: keep). split; [simpl; lia|]. simpl. rewrite E. reflexivity.
Qed.

(** What holds of [buildFontFamily] for every name that does not hit an
    inherited member: the first part is the requested name, defaulted when
    empty and quoted when it contains white space, and no two parts have the
    same text up to letter case. *)
Lemma fontFamilyParts_tokens (name : jsstring) (parts : list jsstring) :
  fontFamilyParts name = Ok parts ->
  hd [] parts = primaryToken (primaryFont name) /\
  NoDup (map toLowerCase parts).
Proof.
  unfold fontFamilyParts. destruct (fallbacksFor (primaryFont name)) as [fb|];
    [|discriminate].
  intros H. injection H as <-. split.
  - reflexivity.
  - apply (dedupe_distinct (primaryToken (primaryFont name) :: fb) []).
Qed.

(** Claim C8 (code defect): the de-duplication compares the parts with
    their quotes.  The requested name [Inter] is written without quotes and
    the fallback ["Inter"] with quotes, so both are kept and the family
    Inter is listed twice. *)
Theorem buildFontFamily_lists_Inter_twice :
  fontFamilyParts (str "Inter") =
    Ok [ str "Inter"; quoted (str "Inter"); quoted (str "Noto Sans");
         quoted (str "Helvetica Neue"); str "Arial"; str "sans-serif" ] /\
  buildFontFamily (str "Inter") =
    Ok (str "Inter, " ++ quoted (str "Inter") ++ str ", "
        ++ quoted (str "Noto Sans") ++ str ", "
        ++ quoted (str "Helvetica Neue") ++ str ", Arial, sans-serif") /\
  familyName (str "Inter") = familyName (quoted (str "Inter")) /\
  match fontFamilyParts (str "Inter") with
  | Ok parts => distinctFamilies parts = false
  | TypeError => False
  end.
Proof. repeat split; vm_compute; reflexivity. Qed.

(** The two names of the override table, and a name that equals a fallback
    written without quotes, resolve to lists without a repeated family, the
    requested name first. *)
Lemma buildFontFamily_override_table :
  buildFontFamily (str "Calibri") =
    Ok (str "Calibri, " ++ quoted (str "Carlito") ++ str ", "
        ++ quoted (str "Inter") ++ str ", " ++ quoted (str "Noto Sans")
        ++ str ", " ++ quoted (str "Helvetica Neue") ++ str ", Arial, sans-serif") /\
  buildFontFamily (str "Segoe UI") =
    Ok (quoted (str "Segoe UI") ++ str ", " ++ quoted (str "Inter") ++ str ", "
        ++ quoted (str "Noto Sans") ++ str ", "
        ++ quoted (str "Helvetica Neue") ++ str ", Arial, sans-serif") /\
  buildFontFamily (str "ARIAL") =
    Ok (str "ARIAL, " ++ quoted (str "Inter") ++ str ", "
        ++ quoted (str "Noto Sans") ++ str ", "
        ++ quoted (str "Helvetica Neue") ++ str ", sans-serif") /\
  buildFontFamily [] = buildFontFamily (str "Segoe UI") /\
  match fontFamilyParts (str "Calibri"), fontFamilyParts (str "Segoe UI") with
  | Ok a, Ok b => distinctFamilies a = true /\ distinctFamilies b = true
  | _, _ => False
  end.
Proof. repeat split; vm_compute; reflexivity. Qed.

(** A name equal to a member inherited from [Object.prototype] makes the
    lookup in the override table return that member, and the spread throws. *)
Lemma buildFontFamily_inherited_member :
  buildFontFamily (str "constructor") = TypeError.
Proof. vm_compute. reflexivity. Qed.

(* ----------------------------------------------------------------- *)
(** ** Style strings: parsing *)

Lemma split_first sep s :
  split sep s =
  beforeChar sep s :: match afterChar sep s with
                      | Some rest => split sep rest
                      | None => []
                      end.
Proof.
  induction s as [|c s IH]; [reflexivity|].
  simpl. destruct (Ascii.eqb c sep); [reflexivity|].
  rewrite IH. reflexivity.
Qed.

Lemma split_not_nil sep s : split sep s <> [].
Proof. rewrite split_first. discriminate. Qed.

(** The first two pieces of the split are the text before the first colon
    and the text between the first and the second. *)
Lemma parseDeclaration_second_colon part :
  parseDeclaration part = declarationUpToSecondColon part.
Proof.
  unfold parseDeclaration, declarationUpToSecondColon.
  rewrite (split_first ":" part).
  destruct (afterChar ":" part) as [rest|]; [|reflexivity].
  rewrite (split_first ":" rest). reflexivity.
Qed.

(** Claim C9 (as amended): for every input string, [parseStyleString]
    splits on [;], trims the segments and drops the empty ones, cuts each
    segment at its first [:], takes the trimmed text before it as property
    and the trimmed text between the first and the second [:] (or the end)
    as value, and drops the segments without [:], without property or
    without value.  A value that contains a [:] is cut at that colon. *)
Theorem parseStyleString_cuts_at_colons (s : jsstring) :
  parseStyleString s = parseWith declarationUpToSecondColon s.
Proof.
  unfold parseStyleString, parseWith.
  generalize (@nil (jsstring * jsstring)) as acc.
  induction (styleSegments s) as [|part segs IH]; intros acc; [reflexivity|].
  simpl. rewrite parseDeclaration_second_colon. apply IH.
Qed.

(** Counterexample to claim C9 as stated: in [a: b:c] the value is [b], not
    the whole text [b:c] after the first colon. *)
Lemma parseStyleString_value_with_colon :
  parseStyleString (str "a: b:c") = [(str "a", str "b")] /\
  parseWith declarationAtFirstColon (str "a: b:c") = [(str "a", str "b:c")] /\
  parseStyleString (str "a: b:c") <> parseWith declarationAtFirstColon (str "a: b:c").
Proof.
  split; [vm_compute; reflexivity|].
  split; [vm_compute; reflexivity|].
  vm_compute. discriminate.
Qed.

(** The two readings agree on a segment with at most one colon. *)
Lemma declaration_one_colon part :
  (forall rest, afterChar ":" part = Some rest -> afterChar ":" rest = None) ->
  declarationUpToSecondColon part = declarationAtFirstColon part.
Proof.
  intros H. unfold declarationUpToSecondColon, declarationAtFirstColon.
  destruct (afterChar ":" part) as [rest|]; [|reflexivity].
  specialize (H rest eq_refl).
  assert (E : beforeChar ":" rest = rest).
  { clear -H. induction rest as [|c rest IH]; [reflexivity|].
    simpl in *. destruct (Ascii.eqb c ":"); [discriminate|].
    rewrite (IH H). reflexivity. }
  rewrite E. reflexivity.
Qed.

(* ----------------------------------------------------------------- *)
(** ** Objects: reading after writing *)

Lemma obj_get_replace k v o k' v0 :
  obj_get k o = Some v0 ->
  obj_get k' (obj_replace k v o) =
  if jsstring_eqb k' k then Some v else obj_get k' o.
Proof.
  unfold obj_get. induction o as [|[k1 v1] rest IH]; [discriminate|].
  simpl. destruct (jsstring_eqb k k1) eqn:E.
  - apply jsstring_eqb_eq in E. subst k1. intros _. simpl.
    destruct (jsstring_eqb k' k); reflexivity.
  - intros H. simpl. rewrite (IH H).
    destruct (jsstring_eqb k' k1) eqn:E1; [|reflexivity].
    apply jsstring_eqb_eq in E1. subst k1.
    destruct (jsstring_eqb k' k) eqn:E2; [|reflexivity].
    apply jsstring_eqb_eq in E2. subst k'. rewrite jsstring_eqb_refl in E.
    discriminate.
Qed.

Lemma obj_replace_keys k v o : map fst (obj_replace k v o) = map fst o.
Proof.
  induction o as [|[k1 v1] rest IH]; [reflexivity|].
  simpl. destruct (jsstring_eqb k k1); simpl; [reflexivity|].
  rewrite IH. reflexivity.
Qed.

Lemma obj_insert_index_split i k v o :
  exists o1 o2, o = o1 ++ o2 /\ obj_insert_index i k v o = o1 ++ (k, v) :: o2.
Proof.
  induction o as [|[k1 v1] rest IH].
  - exists [], []. split; reflexivity.
  - simpl. destruct (arrayIndex k1) as [j|].
    + destruct (j <? i)%Z.
      * destruct IH as (o1 & o2 & E1 & E2).
        exists ((k1, v1) :: o1), o2. split; simpl; congruence.
      * exists [], ((k1, v1) :: rest). split; reflexivity.
    + exists [], ((k1, v1) :: rest). split; reflexivity.
Qed.

(** Writing a key the object does not have puts one new entry somewhere
    among the others. *)
Lemma obj_set_new k v o :
  jsstring_eqb k (str "__proto__") = false ->
  obj_get k o = None ->
  exists o1 o2, o = o1 ++ o2 /\ obj_set k v o = o1 ++ (k, v) :: o2.
Proof.
  intros Hp Hn. unfold obj_set. rewrite Hp, Hn.
  destruct (arrayIndex k) as [i|].
  - apply obj_insert_index_split.
  - exists o, []. split; [symmetry; apply app_nil_r|reflexivity].
Qed.

Lemma assoc_middle {A : Type} k (v : A) o1 o2 k' :
  assoc k (o1 ++ o2) = None ->
  assoc k' (o1 ++ (k, v) :: o2) =
  if jsstring_eqb k' k then Some v else assoc k' (o1 ++ o2).
Proof.
  induction o1 as [|[k1 v1] o1 IH]; simpl.
  - reflexivity.
  - destruct (jsstring_eqb k k1) eqn:E; [discriminate|].
    intros H. rewrite (IH H).
    destruct (jsstring_eqb k' k1) eqn:E1; [|reflexivity].
    apply jsstring_eqb_eq in E1. subst k1.
    destruct (jsstring_eqb k' k) eqn:E2; [|reflexivity].
    apply jsstring_eqb_eq in E2. subst k'. rewrite jsstring_eqb_refl in E.
    discriminate.
Qed.

Lemma obj_get_set k v o k' :
  obj_get k' (obj_set k v o) =
  if jsstring_eqb k (str "__proto__") then obj_get k' o
  else if jsstring_eqb k' k then Some v else obj_get k' o.
Proof.
  destruct (jsstring_eqb k (str "__proto__")) eqn:Hp.
  - unfold obj_set. rewrite Hp. reflexivity.
  - destruct (obj_get k o) as [v0|] eqn:Hg.
    + unfold obj_set. rewrite Hp, Hg. apply (obj_get_replace k v o k' v0 Hg).
    + destruct (obj_set_new k v o Hp Hg) as (o1 & o2 & E1 & E2).
      rewrite E2. subst o. unfold obj_get in *. apply assoc_middle. exact Hg.
Qed.

Lemma assoc_None_iff {A : Type} k (o : list (jsstring * A)) :
  assoc k o = None <-> ~ In k (map fst o).
Proof.
  induction o as [|[k1 v1] rest IH]; simpl.
  - split; [intros _ []|reflexivity].
  - destruct (jsstring_eqb k k1) eqn:E.
    + apply jsstring_eqb_eq in E. subst. split; [discriminate|].
      intros H. exfalso. apply H. left. reflexivity.
    + apply jsstring_eqb_neq in E. rewrite IH. split.
      * intros H [H1|H2]; [congruence|contradiction].
      * intros H H2. apply H. right. exact H2.
Qed.

(** Writing keeps the keys distinct. *)
Lemma obj_set_NoDup k v o :
  NoDup (map fst o) -> NoDup (map fst (obj_set k v o)).
Proof.
  intros ND.
  destruct (jsstring_eqb k (str "__proto__")) eqn:Hp.
  - unfold obj_set. rewrite Hp. exact ND.
  - destruct (obj_get k o) as [v0|] eqn:Hg.
    + unfold obj_set. rewrite Hp, Hg. rewrite obj_replace_keys. exact ND.
    + destruct (obj_set_new k v o Hp Hg) as (o1 & o2 & E1 & E2).
      rewrite E2. subst o. rewrite map_app. simpl.
      apply NoDup_Add with (a := k) (l := map fst o1 ++ map fst o2).
      * apply Add_app.
      * split; [rewrite <- map_app; exact ND|].
        rewrite <- map_app. apply assoc_None_iff. exact Hg.
Qed.

(** Writing an entry that has a property keeps the property of all
    entries. *)
Lemma obj_set_Forall (P : jsstring * jsstring -> Prop) k v o :
  (jsstring_eqb k (str "__proto__") = false -> P (k, v)) ->
  Forall P o -> Forall P (obj_set k v o).
Proof.
  intros Hkv Ho.
  destruct (jsstring_eqb k (str "__proto__")) eqn:Hp.
  - unfold obj_set. rewrite Hp. exact Ho.
  - specialize (Hkv eq_refl).
    destruct (obj_get k o) as [v0|] eqn:Hg.
    + unfold obj_set. rewrite Hp, Hg. clear Hg.
      induction Ho as [|[k1 v1] rest H1 H2 IH]; simpl; [constructor|].
      destruct (jsstring_eqb k k1) eqn:E.
      * apply jsstring_eqb_eq in E. subst k1. constructor; [exact Hkv|exact H2].
      * constructor; [exact H1|exact IH].
    + destruct (obj_set_new k v o Hp Hg) as (o1 & o2 & E1 & E2).
      rewrite E2. subst o. apply Forall_app in Ho. destruct Ho as [A B].
      apply Forall_app. split; [exact A|]. constructor; [exact Hkv|exact B].
Qed.

Lemma obj_set_proto_absent k v o :
  ~ In (str "__proto__") (map fst o) ->
  ~ In (str "__proto__") (map fst (obj_set k v o)).
Proof.
  intros H.
  destruct (jsstring_eqb k (str "__proto__")) eqn:Hp.
  - unfold obj_set. rewrite Hp. exact H.
  - destruct (obj_get k o) as [v0|] eqn:Hg.
    + unfold obj_set. rewrite Hp, Hg. rewrite obj_replace_keys. exact H.
    + destruct (obj_set_new k v o Hp Hg) as (o1 & o2 & E1 & E2).
      rewrite E2. subst o. rewrite map_app in *. simpl.
      intros Hin. apply in_app_or in Hin. destruct Hin as [Hin|[Hin|Hin]].
      * apply H. apply in_or_app. left. exact Hin.
      * subst k. rewrite jsstring_eqb_refl in Hp. discriminate.
      * apply H. apply in_or_app. right. exact Hin.
Qed.

(** A sequence of writes, read back: the last write of the key, or what the
    object held before. *)
Lemma obj_get_writes k (l : list (jsstring * jsstring)) : forall o,
  jsstring_eqb k (str "__proto__") = false ->
  obj_get k (fold_left (fun acc kv => obj_set (fst kv) (snd kv) acc) l o) =
  match rev (filter (fun kv => jsstring_eqb (fst kv) k) l) with
  | kv :: _ => Some (snd kv)
  | [] => obj_get k o
  end.
Proof.
  induction l as [|[k1 v1] l IH] using rev_ind; intros o Hp; [reflexivity|].
  rewrite fold_left_app. simpl fold_left. rewrite obj_get_set.
  rewrite filter_app, rev_app_distr. simpl filter.
  destruct (jsstring_eqb k1 k) eqn:E.
  - apply jsstring_eqb_eq in E. subst k1. rewrite Hp.
    rewrite jsstring_eqb_refl. reflexivity.
  - simpl rev. simpl app.
    assert (E' : jsstring_eqb k k1 = false).
    { apply jsstring_eqb_neq. apply jsstring_eqb_neq in E. congruence. }
    rewrite E'. rewrite (IH o Hp).
    destruct (jsstring_eqb k1 (str "__proto__")); reflexivity.
Qed.

(* ----------------------------------------------------------------- *)
(** ** Style strings: serialising and parsing back *)

Lemma existsb_eqb_false sep (s : jsstring) :
  existsb (Ascii.eqb sep) s = false <-> ~ In sep s.
Proof.
  split.
  - intros H Hin.
    assert (E : existsb (Ascii.eqb sep) s = true).
    { apply existsb_exists. exists sep. split; [exact Hin|apply Ascii.eqb_refl]. }
    congruence.
  - intros H. destruct (existsb (Ascii.eqb sep) s) eqn:E; [|reflexivity].
    exfalso. apply existsb_exists in E. destruct E as (c & Hc & E).
    apply Ascii.eqb_eq in E. subst c. exact (H Hc).
Qed.

Lemma split_no_sep sep s : ~ In sep s -> split sep s = [s].
Proof.
  induction s as [|c s IH]; intros H; [reflexivity|].
  simpl. destruct (Ascii.eqb c sep) eqn:E.
  - apply Ascii.eqb_eq in E. subst c. exfalso. apply H. left. reflexivity.
  - rewrite IH; [reflexivity|]. intros Hin. apply H. right. exact Hin.
Qed.

Lemma split_app_sep sep a b :
  ~ In sep a -> split sep (a ++ sep :: b) = a :: split sep b.
Proof.
  induction a as [|c a IH]; intros H.
  - simpl. rewrite Ascii.eqb_refl. reflexivity.
  - simpl. destruct (Ascii.eqb c sep) eqn:E.
    + apply Ascii.eqb_eq in E. subst c. exfalso. apply H. left. reflexivity.
    + rewrite IH; [reflexivity|]. intros Hin. apply H. right. exact Hin.
Qed.

Lemma split_pieces sep s : Forall (fun piece => ~ In sep piece) (split sep s).
Proof.
  induction s as [|c s IH]; simpl.
  - constructor; [intros []|constructor].
  - destruct (Ascii.eqb c sep) eqn:E.
    + constructor; [intros []|exact IH].
    + destruct (split sep s) as [|h t]; [constructor; [|constructor]|].
      * intros [H|[]]. subst c. rewrite Ascii.eqb_refl in E. discriminate.
      * inversion IH as [|? ? Hh Ht]; subst. constructor; [|exact Ht].
        intros [H|H]; [|exact (Hh H)].
        subst c. rewrite Ascii.eqb_refl in E. discriminate.
Qed.

(** Splitting a join on [; ] at [;]: the first part, then every other part
    behind a space. *)
Lemma split_join parts : forall pre,
  ~ In ";"%char pre ->
  Forall (fun p => ~ In ";"%char p) parts ->
  split ";" (pre ++ join (str "; ") parts) =
  match parts with
  | p :: rest => (pre ++ p) :: map (cons " "%char) rest
  | [] => [pre]
  end.
Proof.
  induction parts as [|p parts IH]; intros pre Hpre Hparts.
  - simpl. rewrite app_nil_r. apply split_no_sep. exact Hpre.
  - inversion Hparts as [|? ? Hp Hrest]; subst.
    destruct parts as [|q rest].
    + simpl. apply split_no_sep. intros Hin. apply in_app_or in Hin. tauto.
    + change (join (str "; ") (p :: q :: rest))
        with (p ++ ";"%char :: ([" "%char] ++ join (str "; ") (q :: rest))).
      rewrite app_assoc. rewrite split_app_sep.
      * rewrite (IH [" "%char]); [reflexivity| |exact Hrest].
        intros [H|[]]. discriminate H.
      * intros Hin. apply in_app_or in Hin. tauto.
Qed.

Lemma trimStart_suffix s : exists w, s = w ++ trimStart s.
Proof.
  induction s as [|c s IH]; [exists []; reflexivity|].
  simpl. destruct (isWhiteSpace c).
  - destruct IH as (w & E). exists (c :: w). simpl. congruence.
  - exists []. reflexivity.
Qed.

Lemma trimEnd_prefix s : exists z, s = trimEnd s ++ z.
Proof.
  unfold trimEnd. destruct (trimStart_suffix (rev s)) as (w & E).
  exists (rev w). rewrite <- rev_app_distr, <- E. symmetry. apply rev_involutive.
Qed.

Lemma trim_subset c s : In c (trim s) -> In c s.
Proof.
  unfold trim. intros H.
  destruct (trimEnd_prefix (trimStart s)) as (z & Ez).
  destruct (trimStart_suffix s) as (w & Ew).
  rewrite Ew. apply in_or_app. right. rewrite Ez. apply in_or_app. left. exact H.
Qed.

Lemma trimStart_fixed_iff s :
  trimStart s = s <-> match s with c :: _ => isWhiteSpace c = false | [] => True end.
Proof.
  destruct s as [|c s]; [tauto|]. split.
  - apply trimStart_fixed_head.
  - apply trimStart_keeps.
Qed.

Lemma trim_idempotent s : trim (trim s) = trim s.
Proof.
  apply trim_fixed.
  - unfold trim. set (y := trimStart s).
    assert (Hy : trimStart y = y) by apply trimStart_idempotent.
    destruct (trimEnd_prefix y) as (z & Ez).
    destruct (trimEnd y) as [|c t] eqn:Et; [reflexivity|].
    apply trimStart_keeps. rewrite Ez in Hy. simpl in Hy.
    destruct (isWhiteSpace c) eqn:Ec; [|reflexivity].
    exfalso. pose proof (trimStart_length (t ++ z)) as L. rewrite Hy in L.
    simpl in L. lia.
  - unfold trim, trimEnd. rewrite rev_involutive. apply trimStart_idempotent.
Qed.

Lemma trim_space s : trim (" "%char :: s) = trim s.
Proof. reflexivity. Qed.

(** The facts a clean text gives. *)
Lemma cleanText_facts s :
  cleanText s = true ->
  s <> [] /\ trim s = s /\ ~ In ";"%char s /\ ~ In ":"%char s.
Proof.
  unfold cleanText. intros H.
  apply andb_prop in H. destruct H as [H H4].
  apply andb_prop in H. destruct H as [H H3].
  apply andb_prop in H. destruct H as [H1 H2].
  repeat split.
  - destruct s; [discriminate|discriminate].
  - apply jsstring_eqb_eq. exact H2.
  - apply existsb_eqb_false. destruct (existsb (Ascii.eqb ";") s); [discriminate|reflexivity].
  - apply existsb_eqb_false. destruct (existsb (Ascii.eqb ":") s); [discriminate|reflexivity].
Qed.

Lemma cleanText_intro s :
  truthy s = true -> trim s = s -> ~ In ";"%char s -> ~ In ":"%char s ->
  cleanText s = true.
Proof.
  intros H1 H2 H3 H4. unfold cleanText. rewrite H1.
  apply jsstring_eqb_eq in H2. rewrite H2.
  apply existsb_eqb_false in H3. apply existsb_eqb_false in H4.
  rewrite H3, H4. reflexivity.
Qed.

Lemma head_not_space s :
  s <> [] -> trim s = s -> exists c t, s = c :: t /\ isWhiteSpace c = false.
Proof.
  intros Hn Ht. destruct s as [|c t]; [contradiction|].
  exists c, t. split; [reflexivity|].
  apply (trimStart_fixed_head c t). apply (trim_fixed_inv _ Ht).
Qed.

Lemma last_not_space s :
  s <> [] -> trim s = s -> exists c t, rev s = c :: t /\ isWhiteSpace c = false.
Proof.
  intros Hn Ht. destruct (rev s) as [|c t] eqn:Er.
  - exfalso. apply Hn. rewrite <- (rev_involutive s), Er. reflexivity.
  - exists c, t. split; [reflexivity|].
    apply (trimStart_fixed_head c t). rewrite <- Er.
    apply (trim_fixed_inv _ Ht).
Qed.

(** A serialised entry is its own trim, holds no [;] and parses to the
    entry. *)
Lemma entryText_facts k v :
  cleanText k = true -> cleanText v = true ->
  trim (entryText (k, v)) = entryText (k, v) /\
  ~ In ";"%char (entryText (k, v)) /\
  truthy (entryText (k, v)) = true /\
  parseDeclaration (entryText (k, v)) = Some (k, v).
Proof.
  intros Hk Hv.
  destruct (cleanText_facts k Hk) as (Hk1 & Hk2 & Hk3 & Hk4).
  destruct (cleanText_facts v Hv) as (Hv1 & Hv2 & Hv3 & Hv4).
  destruct (head_not_space k Hk1 Hk2) as (c & t & Ek & Hc).
  destruct (last_not_space v Hv1 Hv2) as (d & u & Ev & Hd).
  unfold entryText. cbn [fst snd].
  repeat split.
  - apply trim_fixed.
    + rewrite Ek. simpl. rewrite Hc. reflexivity.
    + rewrite !rev_app_distr. rewrite Ev. simpl. rewrite Hd. reflexivity.
  - intros Hin. apply in_app_or in Hin. destruct Hin as [Hin|Hin]; [tauto|].
    simpl in Hin. destruct Hin as [H|[H|H]]; try discriminate H. tauto.
  - rewrite Ek. reflexivity.
  - rewrite parseDeclaration_second_colon. unfold declarationUpToSecondColon.
    assert (A : afterChar ":" (k ++ str ": " ++ v) = Some (" "%char :: v)).
    { clear -Hk4. induction k as [|x k IH]; [reflexivity|].
      simpl. destruct (Ascii.eqb x ":") eqn:E.
      - apply Ascii.eqb_eq in E. subst x. exfalso. apply Hk4. left. reflexivity.
      - apply IH. intros H. apply Hk4. right. exact H. }
    assert (B : beforeChar ":" (k ++ str ": " ++ v) = k).
    { clear -Hk4. induction k as [|x k IH]; [reflexivity|].
      simpl. destruct (Ascii.eqb x ":") eqn:E.
      - apply Ascii.eqb_eq in E. subst x. exfalso. apply Hk4. left. reflexivity.
      - f_equal. apply IH. intros H. apply Hk4. right. exact H. }
    assert (C : beforeChar ":" (" "%char :: v) = " "%char :: v).
    { change (beforeChar ":" (" "%char :: v)) with (" "%char :: beforeChar ":" v).
      f_equal. clear -Hv4. induction v as [|x v IH]; [reflexivity|].
      simpl. destruct (Ascii.eqb x ":") eqn:E.
      - apply Ascii.eqb_eq in E. subst x. exfalso. apply Hv4. left. reflexivity.
      - rewrite IH; [reflexivity|]. intros H. apply Hv4. right. exact H. }
    rewrite A, B, C. rewrite trim_space, Hk2, Hv2.
    rewrite Ek. destruct v as [|y v']; [contradiction|]. reflexivity.
Qed.

Lemma cleanEntry_facts kv :
  cleanEntry kv = true ->
  cleanText (fst kv) = true /\ cleanText (snd kv) = true /\
  jsstring_eqb (fst kv) (str "__proto__") = false.
Proof.
  unfold cleanEntry. intros H.
  apply andb_prop in H. destruct H as [H H3].
  apply andb_prop in H. destruct H as [H1 H2].
  repeat split; try assumption.
  destruct (jsstring_eqb (fst kv) (str "__proto__")); [discriminate|reflexivity].
Qed.

(** The segments of a serialised map are its entries. *)
Lemma styleSegments_serialize m :
  forallb cleanEntry m = true ->
  styleSegments (serializeStyle m) = map entryText m.
Proof.
  intros Hm. rewrite forallb_forall in Hm.
  unfold styleSegments, serializeStyle.
  change (map (fun kv => fst kv ++ str ": " ++ snd kv) m) with (map entryText m).
  assert (F : Forall (fun e => trim e = e /\ ~ In ";"%char e /\ truthy e = true)
                     (map entryText m)).
  { apply Forall_forall. intros e He. apply in_map_iff in He.
    destruct He as ([k v] & <- & Hin).
    destruct (cleanEntry_facts _ (Hm _ Hin)) as (Hk & Hv & _).
    destruct (entryText_facts k v Hk Hv) as (A & B & C & _). tauto. }
  change (join (str "; ") (map entryText m))
    with ([] ++ join (str "; ") (map entryText m)).
  rewrite split_join.
  - destruct (map entryText m) as [|e rest]; [reflexivity|].
    inversion F as [|? ? (He1 & He2 & He3) Frest]; subst.
    simpl app. cbn [map filter]. rewrite He1, He3. f_equal.
    clear -Frest. induction Frest as [|e rest (H1 & H2 & H3) _ IH]; [reflexivity|].
    cbn [map filter]. rewrite trim_space, H1, H3. f_equal. exact IH.
  - intros [].
  - eapply Forall_impl; [|exact F]. cbv beta. tauto.
Qed.

(** Parsing a serialised map writes its entries, in order, into an empty
    object. *)
Lemma parse_serialize m :
  forallb cleanEntry m = true ->
  parseStyleString (serializeStyle m) =
  fold_left (fun acc kv => obj_set (fst kv) (snd kv) acc) m [].
Proof.
  intros Hm. unfold parseStyleString. rewrite (styleSegments_serialize m Hm).
  rewrite forallb_forall in Hm.
  generalize (@nil (jsstring * jsstring)) as acc.
  induction m as [|[k v] m IH]; intros acc; [reflexivity|].
  cbn [map fold_left].
  destruct (cleanEntry_facts (k, v) (Hm _ (or_introl eq_refl))) as (Hk & Hv & _).
  destruct (entryText_facts k v Hk Hv) as (_ & _ & _ & E). rewrite E.
  apply IH. intros x Hx. apply Hm. right. exact Hx.
Qed.

Lemma distinctKeys_NoDup m : distinctKeys m = true <-> NoDup (map fst m).
Proof.
  induction m as [|[k v] m IH]; simpl.
  - split; [constructor|reflexivity].
  - rewrite andb_true_iff, IH, negb_true_iff. split.
    + intros [A B]. constructor; [|exact B].
      intros Hin. apply seen_spec in Hin. congruence.
    + intros H. inversion H as [|? ? A B]; subst. split; [|exact B].
      destruct (existsb (jsstring_eqb k) (map fst m)) eqn:E; [|reflexivity].
      apply seen_spec in E. contradiction.
Qed.

Lemma filter_key_absent k (m : jsobject) :
  ~ In k (map fst m) -> filter (fun kv => jsstring_eqb (fst kv) k) m = [].
Proof.
  induction m as [|[k1 v1] m IH]; intros H; [reflexivity|].
  simpl. destruct (jsstring_eqb k1 k) eqn:E.
  - apply jsstring_eqb_eq in E. subst k1. exfalso. apply H. left. reflexivity.
  - apply IH. intros Hin. apply H. right. exact Hin.
Qed.

Lemma last_write_distinct k (m : jsobject) :
  NoDup (map fst m) ->
  match rev (filter (fun kv => jsstring_eqb (fst kv) k) m) with
  | kv :: _ => Some (snd kv)
  | [] => None
  end = obj_get k m.
Proof.
  unfold obj_get. induction m as [|[k1 v1] m IH]; intros ND; [reflexivity|].
  inversion ND as [|? ? A B]; subst. simpl.
  destruct (jsstring_eqb k1 k) eqn:E.
  - apply jsstring_eqb_eq in E. subst k1. rewrite jsstring_eqb_refl.
    rewrite (filter_key_absent k m A). reflexivity.
  - assert (E' : jsstring_eqb k k1 = false).
    { apply jsstring_eqb_neq. apply jsstring_eqb_neq in E. congruence. }
    rewrite E'. apply IH. exact B.
Qed.

Lemma writes_proto_absent (l : list (jsstring * jsstring)) : forall o,
  ~ In (str "__proto__") (map fst o) ->
  ~ In (str "__proto__")
       (map fst (fold_left (fun acc kv => obj_set (fst kv) (snd kv) acc) l o)).
Proof.
  induction l as [|[k v] l IH]; intros o H; [exact H|].
  simpl. apply IH. apply obj_set_proto_absent. exact H.
Qed.

(** Parsing the serialisation of a well-formed map gives the same mapping. *)
Lemma parse_serialize_same m :
  wellFormedMap m = true -> same_map (parseStyleString (serializeStyle m)) m.
Proof.
  unfold wellFormedMap. rewrite andb_true_iff. intros [Hc Hd] k.
  rewrite (parse_serialize m Hc).
  apply distinctKeys_NoDup in Hd.
  destruct (jsstring_eqb k (str "__proto__")) eqn:Hp.
  - apply jsstring_eqb_eq in Hp. subst k.
    assert (A : obj_get (str "__proto__") m = None).
    { apply assoc_None_iff. intros Hin. apply in_map_iff in Hin.
      destruct Hin as (kv & E & Hin). rewrite forallb_forall in Hc.
      destruct (cleanEntry_facts kv (Hc kv Hin)) as (_ & _ & F).
      rewrite E, jsstring_eqb_refl in F. discriminate. }
    rewrite A. apply assoc_None_iff. apply writes_proto_absent. intros [].
  - rewrite (obj_get_writes k m [] Hp).
    rewrite <- (last_write_distinct k m Hd).
    destruct (rev (filter (fun kv => jsstring_eqb (fst kv) k) m)); reflexivity.
Qed.

Lemma beforeChar_subset sep c s : In c (beforeChar sep s) -> In c s.
Proof.
  induction s as [|x s IH]; simpl; [tauto|].
  destruct (Ascii.eqb x sep); simpl; [tauto|].
  intros [H|H]; [left; exact H|right; exact (IH H)].
Qed.

Lemma beforeChar_no_sep sep s : ~ In sep (beforeChar sep s).
Proof.
  induction s as [|x s IH]; simpl; [tauto|].
  destruct (Ascii.eqb x sep) eqn:E; simpl; [tauto|].
  intros [H|H]; [|exact (IH H)].
  subst x. rewrite Ascii.eqb_refl in E. discriminate.
Qed.

Lemma afterChar_subset sep c s rest :
  afterChar sep s = Some rest -> In c rest -> In c s.
Proof.
  induction s as [|x s IH]; simpl; [discriminate|].
  destruct (Ascii.eqb x sep).
  - intros H Hin. injection H as <-. right. exact Hin.
  - intros H Hin. right. exact (IH H Hin).
Qed.

(** A declaration read from a segment without [;] is a clean entry. *)
Lemma parseDeclaration_clean part p v :
  ~ In ";"%char part ->
  parseDeclaration part = Some (p, v) ->
  cleanText p = true /\ cleanText v = true.
Proof.
  intros Hsemi. rewrite parseDeclaration_second_colon.
  unfold declarationUpToSecondColon.
  destruct (afterChar ":" part) as [rest|] eqn:Ea; [|discriminate].
  destruct (truthy (trim (beforeChar ":" part))) eqn:T1; [|discriminate].
  destruct (truthy (trim (beforeChar ":" rest))) eqn:T2; [|discriminate].
  cbn [andb]. intros H. injection H as <- <-. split.
  - apply cleanText_intro.
    + exact T1.
    + apply trim_idempotent.
    + intros Hin. apply Hsemi. apply (beforeChar_subset ":").
      apply trim_subset. exact Hin.
    + intros Hin. apply (beforeChar_no_sep ":" part). apply trim_subset. exact Hin.
  - apply cleanText_intro.
    + exact T2.
    + apply trim_idempotent.
    + intros Hin. apply Hsemi. apply (afterChar_subset ":" _ part rest Ea).
      apply (beforeChar_subset ":"). apply trim_subset. exact Hin.
    + intros Hin. apply (beforeChar_no_sep ":" rest). apply trim_subset. exact Hin.
Qed.

Lemma styleSegments_no_semicolon s :
  Forall (fun part => ~ In ";"%char part) (styleSegments s).
Proof.
  unfold styleSegments. apply Forall_forall. intros part Hin.
  apply filter_In in Hin. destruct Hin as [Hin _].
  apply in_map_iff in Hin. destruct Hin as (piece & <- & Hp).
  pose proof (split_pieces ";" s) as F. rewrite Forall_forall in F.
  intros H. apply (F piece Hp). apply trim_subset. exact H.
Qed.

Lemma wellFormedMap_iff o : wellFormedMap o = true <-> wellFormedObject o.
Proof.
  unfold wellFormedMap, wellFormedObject.
  rewrite andb_true_iff, distinctKeys_NoDup, forallb_forall, Forall_forall.
  tauto.
Qed.

Lemma obj_set_wellFormed k v o :
  cleanText k = true -> cleanText v = true ->
  wellFormedObject o -> wellFormedObject (obj_set k v o).
Proof.
  intros Hk Hv [ND F]. split.
  - apply obj_set_NoDup. exact ND.
  - apply obj_set_Forall; [|exact F].
    intros Hp. unfold cleanEntry. cbn [fst snd]. rewrite Hk, Hv, Hp. reflexivity.
Qed.

(** Every parse result is a well-formed map. *)
Lemma parseStyleString_wellFormed s : wellFormedObject (parseStyleString s).
Proof.
  unfold parseStyleString.
  pose proof (styleSegments_no_semicolon s) as F.
  assert (W : wellFormedObject []) by (split; constructor).
  revert W. generalize (@nil (jsstring * jsstring)) as acc.
  induction F as [|part segs Hpart _ IH]; intros acc W; [exact W|].
  simpl. apply IH.
  destruct (parseDeclaration part) as [[p v]|] eqn:E; [|exact W].
  destruct (parseDeclaration_clean part p v Hpart E) as [Hp Hv].
  apply obj_set_wellFormed; assumption.
Qed.

(** Merging clean updates into a style string gives a well-formed map. *)
Lemma mergedStyle_wellFormed s updates :
  forallb cleanEntry updates = true ->
  wellFormedObject (mergedStyle s updates).
Proof.
  intros Hu. unfold mergedStyle.
  pose proof (parseStyleString_wellFormed s) as W. revert W.
  generalize (parseStyleString s) as acc.
  induction updates as [|[k v] updates IH]; intros acc W; [exact W|].
  simpl in Hu. apply andb_prop in Hu. destruct Hu as [Hkv Hu].
  destruct (cleanEntry_facts _ Hkv) as (Hk & Hv & _).
  simpl. apply (IH Hu). apply obj_set_wellFormed; assumption.
Qed.


(* ----------------------------------------------------------------- *)
(** ** Objects: the order of the properties *)

Lemma digitsValue_from (s : jsstring) : forall acc,
  fold_left (fun acc c => (acc * 10 + digitValue c)%Z) s acc =
  (acc * 10 ^ Z.of_nat (length s) + digitsValue s)%Z.
Proof.
  unfold digitsValue.
  induction s as [|c s IH]; intros acc.
  - simpl. lia.
  - cbn [fold_left length]. rewrite (IH (acc * 10 + digitValue c)%Z).
    rewrite (IH (0 * 10 + digitValue c)%Z).
    rewrite Nat2Z.inj_succ, Z.pow_succ_r by lia. lia.
Qed.

Lemma digitsValue_cons c s :
  digitsValue (c :: s) = (digitValue c * 10 ^ Z.of_nat (length s) + digitsValue s)%Z.
Proof.
  unfold digitsValue at 1. cbn [fold_left]. rewrite digitsValue_from. lia.
Qed.

Lemma digitValue_range c : isDigit c = true -> (0 <= digitValue c <= 9)%Z.
Proof.
  unfold isDigit, digitValue. intros H. apply andb_prop in H.
  destruct H as [A B]. apply Nat.leb_le in A, B. lia.
Qed.

Lemma digitValue_inj a b :
  isDigit a = true -> isDigit b = true -> digitValue a = digitValue b -> a = b.
Proof.
  unfold isDigit, digitValue, code. intros Ha Hb E.
  apply andb_prop in Ha, Hb. destruct Ha as [A1 A2], Hb as [B1 B2].
  apply Nat.leb_le in A1, A2, B1, B2.
  assert (En : nat_of_ascii a = nat_of_ascii b) by lia.
  rewrite <- (ascii_nat_embedding a), <- (ascii_nat_embedding b), En.
  reflexivity.
Qed.

Lemma digitsValue_range s :
  forallb isDigit s = true ->
  (0 <= digitsValue s < 10 ^ Z.of_nat (length s))%Z.
Proof.
  induction s as [|c s IH]; intros H.
  - cbn. lia.
  - cbn [forallb] in H. apply andb_prop in H. destruct H as [Hc Hs].
    specialize (IH Hs). pose proof (digitValue_range c Hc) as Hd.
    rewrite digitsValue_cons. cbn [length].
    rewrite Nat2Z.inj_succ, Z.pow_succ_r by lia. nia.
Qed.

Lemma digitsValue_inj_length a : forall b,
  length a = length b ->
  forallb isDigit a = true -> forallb isDigit b = true ->
  digitsValue a = digitsValue b -> a = b.
Proof.
  induction a as [|x a IH]; intros [|y b] L Ha Hb E; try discriminate L.
  - reflexivity.
  - cbn [forallb] in Ha, Hb. apply andb_prop in Ha, Hb.
    destruct Ha as [Hx Ha], Hb as [Hy Hb].
    injection L as L. rewrite !digitsValue_cons in E. rewrite L in E.
    pose proof (digitsValue_range a Ha) as Ra. rewrite L in Ra.
    pose proof (digitsValue_range b Hb) as Rb.
    pose proof (digitValue_range x Hx) as Dx.
    pose proof (digitValue_range y Hy) as Dy.
    assert (Ed : digitValue x = digitValue y) by nia.
    assert (Ev : digitsValue a = digitsValue b) by (rewrite Ed in E; lia).
    f_equal; [apply digitValue_inj; assumption|apply IH; assumption].
Qed.

(** What an array index is: digits, no leading zero, the value. *)
Lemma arrayIndex_canonical k i :
  arrayIndex k = Some i ->
  forallb isDigit k = true /\ digitsValue k = i /\
  exists c rest, k = c :: rest /\
    (rest = [] \/ (1 <= digitValue c)%Z).
Proof.
  unfold arrayIndex. destruct k as [|c rest]; [discriminate|].
  destruct (forallb isDigit (c :: rest)) eqn:Hd; [|discriminate].
  cbn [andb].
  destruct (negb (Ascii.eqb c "0") || negb (truthy rest)) eqn:Hz; [|discriminate].
  destruct (digitsValue (c :: rest) <? 2 ^ 32 - 1)%Z; [|discriminate].
  intros H. injection H as <-. repeat split.
  exists c, rest. split; [reflexivity|].
  apply orb_prop in Hz. destruct Hz as [Hz|Hz].
  - right. cbn [forallb] in Hd. apply andb_prop in Hd. destruct Hd as [Hc _].
    pose proof (digitValue_range c Hc) as R.
    assert (digitValue c <> 0%Z); [|lia].
    intros E. apply negb_true_iff in Hz.
    assert (c = "0"%char).
    { apply digitValue_inj; [exact Hc|reflexivity|rewrite E; reflexivity]. }
    subst c. discriminate Hz.
  - left. destruct rest; [reflexivity|discriminate Hz].
Qed.

Lemma canonical_lower_bound c rest :
  forallb isDigit (c :: rest) = true -> (1 <= digitValue c)%Z ->
  (10 ^ Z.of_nat (length rest) <= digitsValue (c :: rest))%Z.
Proof.
  intros Hd Hc. cbn [forallb] in Hd. apply andb_prop in Hd.
  destruct Hd as [_ Hr]. pose proof (digitsValue_range rest Hr) as R.
  rewrite digitsValue_cons.
  assert (0 < 10 ^ Z.of_nat (length rest))%Z by (apply Z.pow_pos_nonneg; lia).
  nia.
Qed.

(** Two array-index keys with the same index are the same key. *)
Lemma arrayIndex_inj a b i :
  arrayIndex a = Some i -> arrayIndex b = Some i -> a = b.
Proof.
  intros Ha Hb.
  destruct (arrayIndex_canonical a i Ha) as (Da & Va & ca & ra & Ea & Ca).
  destruct (arrayIndex_canonical b i Hb) as (Db & Vb & cb & rb & Eb & Cb).
  assert (L : length a = length b).
  { subst a b. cbn [length]. f_equal.
    pose proof (digitsValue_range (ca :: ra) Da) as Ra.
    pose proof (digitsValue_range (cb :: rb) Db) as Rb.
    cbn [length] in Ra, Rb. rewrite Nat2Z.inj_succ, Z.pow_succ_r in Ra, Rb by lia.
    destruct (Nat.lt_trichotomy (length ra) (length rb)) as [H|[H|H]];
      [exfalso|exact H|exfalso].
    - destruct Cb as [->|Cb]; [simpl in H; lia|].
      pose proof (canonical_lower_bound cb rb Db Cb) as Lb.
      assert (10 * 10 ^ Z.of_nat (length ra) <= 10 ^ Z.of_nat (length rb))%Z.
      { rewrite <- Z.pow_succ_r by lia. apply Z.pow_le_mono_r; lia. }
      lia.
    - destruct Ca as [->|Ca]; [simpl in H; lia|].
      pose proof (canonical_lower_bound ca ra Da Ca) as La.
      assert (10 * 10 ^ Z.of_nat (length rb) <= 10 ^ Z.of_nat (length ra))%Z.
      { rewrite <- Z.pow_succ_r by lia. apply Z.pow_le_mono_r; lia. }
      lia. }
  apply digitsValue_inj_length; try assumption. congruence.
Qed.

Lemma Forall_middle {A : Type} (P : A -> Prop) l1 x l2 :
  Forall P (l1 ++ l2) -> P x -> Forall P (l1 ++ x :: l2).
Proof.
  intros H Hx. apply Forall_app in H. destruct H as [H1 H2].
  apply Forall_app. split; [exact H1|]. constructor; assumption.
Qed.

Lemma orderedKeys_append keys k :
  arrayIndex k = None -> orderedKeys keys -> orderedKeys (keys ++ [k]).
Proof.
  intros Hk. induction keys as [|k1 keys IH]; intros H.
  - simpl. rewrite Hk. split; constructor.
  - simpl in *. destruct H as [H1 H2]. split; [|exact (IH H2)].
    destruct (arrayIndex k1) as [i|].
    + apply Forall_app. split; [exact H1|].
      constructor; [rewrite Hk; exact I|constructor].
    + apply Forall_app. split; [exact H1|].
      constructor; [exact Hk|constructor].
Qed.

Lemma obj_insert_index_keys i k v o :
  exists k1 k2, map fst o = k1 ++ k2 /\
                map fst (obj_insert_index i k v o) = k1 ++ k :: k2.
Proof.
  destruct (obj_insert_index_split i k v o) as (o1 & o2 & E1 & E2).
  exists (map fst o1), (map fst o2). rewrite E2, E1, !map_app. split; reflexivity.
Qed.

Lemma orderedKeys_insert i k v o :
  arrayIndex k = Some i -> ~ In k (map fst o) ->
  enumerationOrder o -> enumerationOrder (obj_insert_index i k v o).
Proof.
  unfold enumerationOrder. intros Hk.
  induction o as [|[k1 v1] o IH]; intros Hnew H.
  - simpl. rewrite Hk. split; constructor.
  - cbn [map fst orderedKeys] in H. destruct H as [H1 H2].
    assert (Hne : k <> k1) by (intros E; apply Hnew; left; symmetry; exact E).
    assert (Hnew' : ~ In k (map fst o)) by (intros Hin; apply Hnew; right; exact Hin).
    cbn [obj_insert_index].
    destruct (arrayIndex k1) as [j|] eqn:Ej.
    + destruct (j <? i)%Z eqn:Lt.
      * apply Z.ltb_lt in Lt. cbn [map fst orderedKeys]. rewrite Ej.
        split; [|exact (IH Hnew' H2)].
        destruct (obj_insert_index_keys i k v o) as (a & b & Ea & Eb).
        rewrite Eb. apply Forall_middle; [rewrite <- Ea; exact H1|].
        rewrite Hk. exact Lt.
      * apply Z.ltb_ge in Lt.
        assert (Hij : (i < j)%Z).
        { assert (i <> j); [|lia]. intros E. subst j.
          apply Hne. exact (arrayIndex_inj k k1 i Hk Ej). }
        cbn [map fst orderedKeys]. rewrite Hk, Ej. split.
        -- constructor; [rewrite Ej; exact Hij|].
           eapply Forall_impl; [|exact H1]. intros x. cbv beta.
           destruct (arrayIndex x); [lia|intros _; exact I].
        -- split; assumption.
    + cbn [map fst orderedKeys]. rewrite Hk, Ej. split.
      * constructor; [rewrite Ej; exact I|].
        eapply Forall_impl; [|exact H1]. intros x Hx. rewrite Hx. exact I.
      * split; assumption.
Qed.

(** Writing keeps the properties in the order of enumeration. *)
Lemma obj_set_order k v o :
  enumerationOrder o -> enumerationOrder (obj_set k v o).
Proof.
  intros H. unfold obj_set.
  destruct (jsstring_eqb k (str "__proto__")); [exact H|].
  destruct (obj_get k o) as [v0|] eqn:Hg.
  - unfold enumerationOrder. rewrite obj_replace_keys. exact H.
  - apply assoc_None_iff in Hg.
    destruct (arrayIndex k) as [i|] eqn:Hk.
    + apply orderedKeys_insert; assumption.
    + unfold enumerationOrder. rewrite map_app. apply orderedKeys_append; assumption.
Qed.

Lemma parseStyleString_order s : enumerationOrder (parseStyleString s).
Proof.
  unfold parseStyleString.
  assert (W : enumerationOrder []) by exact I.
  revert W. generalize (@nil (jsstring * jsstring)) as acc.
  induction (styleSegments s) as [|part segs IH]; intros acc W; [exact W|].
  simpl. apply IH. destruct (parseDeclaration part) as [[p v]|]; [|exact W].
  apply obj_set_order. exact W.
Qed.

Lemma mergedStyle_order s updates : enumerationOrder (mergedStyle s updates).
Proof.
  unfold mergedStyle. pose proof (parseStyleString_order s) as W. revert W.
  generalize (parseStyleString s) as acc.
  induction updates as [|[k v] updates IH]; intros acc W; [exact W|].
  simpl. apply IH. apply obj_set_order. exact W.
Qed.

(** A new key that enumeration puts after all the present ones is appended. *)
Lemma obj_set_last k v pre suf :
  enumerationOrder (pre ++ (k, v) :: suf) ->
  ~ In k (map fst pre) ->
  jsstring_eqb k (str "__proto__") = false ->
  obj_set k v pre = pre ++ [(k, v)].
Proof.
  intros Ho Hnew Hp. unfold obj_set. rewrite Hp.
  assert (Hg : obj_get k pre = None) by (apply assoc_None_iff; exact Hnew).
  rewrite Hg. destruct (arrayIndex k) as [i|] eqn:Hk; [|reflexivity].
  clear Hg Hnew Hp. unfold enumerationOrder in Ho.
  induction pre as [|[k1 v1] pre IH]; [reflexivity|].
  cbn [app map fst orderedKeys] in Ho. destruct Ho as [H1 H2].
  assert (Hin : In k (map fst (pre ++ (k, v) :: suf))).
  { rewrite map_app. apply in_or_app. right. left. reflexivity. }
  cbn [obj_insert_index app].
  destruct (arrayIndex k1) as [j|].
  - rewrite Forall_forall in H1. specialize (H1 k Hin). rewrite Hk in H1.
    apply Z.ltb_lt in H1. rewrite H1. f_equal. exact (IH H2).
  - rewrite Forall_forall in H1. specialize (H1 k Hin). congruence.
Qed.

(** Writing the entries of an object, in their order, into an empty object
    gives that object. *)
Lemma writes_rebuild suf : forall pre,
  enumerationOrder (pre ++ suf) ->
  NoDup (map fst (pre ++ suf)) ->
  Forall (fun kv => jsstring_eqb (fst kv) (str "__proto__") = false) suf ->
  fold_left (fun acc kv => obj_set (fst kv) (snd kv) acc) suf pre = pre ++ suf.
Proof.
  induction suf as [|[k v] suf IH]; intros pre Ho Hd Hp.
  - simpl. symmetry. apply app_nil_r.
  - inversion Hp as [|? ? Hk Hrest]; subst. cbn [fold_left fst snd].
    assert (Hnew : ~ In k (map fst pre)).
    { rewrite map_app in Hd. cbn [map fst] in Hd.
      apply NoDup_remove_2 in Hd. intros Hin. apply Hd.
      apply in_or_app. left. exact Hin. }
    rewrite (obj_set_last k v pre suf Ho Hnew Hk).
    replace (pre ++ (k, v) :: suf) with ((pre ++ [(k, v)]) ++ suf) in *
      by (rewrite <- app_assoc; reflexivity).
    apply IH; assumption.
Qed.

(** Parsing the serialisation of a well-formed map whose entries are in the
    order of enumeration gives the map itself, entry by entry. *)
Lemma parse_serialize_exact m :
  wellFormedMap m = true -> enumerationOrder m ->
  parseStyleString (serializeStyle m) = m.
Proof.
  intros Hm Ho. unfold wellFormedMap in Hm. apply andb_prop in Hm.
  destruct Hm as [Hc Hd]. rewrite (parse_serialize m Hc).
  apply (writes_rebuild m []).
  - exact Ho.
  - apply distinctKeys_NoDup. exact Hd.
  - apply Forall_forall. intros kv Hin. rewrite forallb_forall in Hc.
    apply (cleanEntry_facts kv (Hc kv Hin)).
Qed.

(** Serialising is idempotent on strings: once a style string has gone
    through [mergeStyleStrings], going through it again with no update
    returns the same string. *)
Lemma mergeStyleStrings_idempotent s updates :
  forallb cleanEntry updates = true ->
  mergeStyleStrings (mergeStyleStrings s updates) [] = mergeStyleStrings s updates.
Proof.
  intros Hu. unfold mergeStyleStrings at 1. unfold mergedStyle. cbn [fold_left].
  unfold mergeStyleStrings. f_equal.
  apply parse_serialize_exact.
  - apply wellFormedMap_iff. apply mergedStyle_wellFormed. exact Hu.
  - apply mergedStyle_order.
Qed.

(** Claim C3 (as amended): for every property map [m] whose keys are
    distinct and whose keys and values are non-empty, free of white space at
    both ends and free of [;] and [:] (every map [parseStyleString] returns
    is one), parsing the serialisation of [m] gives the mapping [m]; so for
    every style string [s], re-parsing [mergeStyleStrings(s, m)] gives the
    merged object, [mergeStyleStrings(s, {})] parses to the same object as
    [s], and sending the output of [mergeStyleStrings] through parse, merge
    and serialise again returns the same string. *)
Theorem style_string_round_trip (s : jsstring) (m : jsobject) :
  wellFormedMap m = true ->
  same_map (parseStyleString (serializeStyle m)) m /\
  parseStyleString (mergeStyleStrings s m) = mergedStyle s m /\
  parseStyleString (mergeStyleStrings s []) = parseStyleString s /\
  mergeStyleStrings (mergeStyleStrings s m) [] = mergeStyleStrings s m /\
  wellFormedMap (parseStyleString s) = true.
Proof.
  intros Hm.
  assert (Hc : forallb cleanEntry m = true).
  { unfold wellFormedMap in Hm. apply andb_prop in Hm. tauto. }
  split; [|split; [|split; [|split]]].
  - apply parse_serialize_same. exact Hm.
  - unfold mergeStyleStrings. apply parse_serialize_exact.
    + apply wellFormedMap_iff. apply mergedStyle_wellFormed. exact Hc.
    + apply mergedStyle_order.
  - unfold mergeStyleStrings, mergedStyle. cbn [fold_left].
    apply parse_serialize_exact.
    + apply wellFormedMap_iff. apply parseStyleString_wellFormed.
    + apply parseStyleString_order.
  - apply mergeStyleStrings_idempotent. exact Hc.
  - apply wellFormedMap_iff. apply parseStyleString_wellFormed.
Qed.

Lemma style_string_round_trip_witness :
  wellFormedMap [(str "background-color", str "blue")] = true /\
  parseStyleString (mergeStyleStrings (str "color: red")
                      [(str "background-color", str "blue")])
  = mergedStyle (str "color: red") [(str "background-color", str "blue")].
Proof.
  split; [reflexivity|].
  exact (proj1 (proj2 (style_string_round_trip (str "color: red")
                         [(str "background-color", str "blue")] eq_refl))).
Defined.

(** Counterexample to claim C3 as stated: the property map with the one
    entry [a] to [b;c] serialises to [a: b;c], which parses to [a] to [b]. *)
Lemma style_string_value_with_semicolon :
  serializeStyle [(str "a", str "b;c")] = str "a: b;c" /\
  parseStyleString (str "a: b;c") = [(str "a", str "b")] /\
  ~ same_map (parseStyleString (serializeStyle [(str "a", str "b;c")]))
             [(str "a", str "b;c")].
Proof.
  split; [reflexivity|]. split; [vm_compute; reflexivity|].
  intros H. specialize (H (str "a")). vm_compute in H. discriminate H.
Qed.

(** An example of a merge: the style [color: red] with the update
    [background-color] to [blue]. *)
Lemma mergeStyleStrings_example :
  mergeStyleStrings (str "color: red") [(str "background-color", str "blue")]
  = str "color: red; background-color: blue".
Proof. vm_compute. reflexivity. Qed.

(* ----------------------------------------------------------------- *)
(** ** Font size decoding *)

Lemma fontOrEmpty_size style : font_sz (fontOrEmpty style) = xlsxSizeOf style.
Proof. unfold fontOrEmpty, xlsxSizeOf. destruct (font style); reflexivity. Qed.

Lemma applyDeclaration_size style prop value :
  xlsxSizeOf (applyDeclaration style prop value) =
  if jsstring_eqb prop (str "font-size")
  then match xlsxDecodedSize value with
       | Some pt => Some pt
       | None => xlsxSizeOf style
       end
  else xlsxSizeOf style.
Proof.
  unfold applyDeclaration, xlsxDecodedSize.
  destruct (jsstring_eqb prop (str "font-size")) eqn:E.
  - apply jsstring_eqb_eq in E. subst prop.
    replace (jsstring_eqb (str "font-size") (str "color")) with false
      by (vm_compute; reflexivity).
    replace (jsstring_eqb (str "font-size") (str "background-color")) with false
      by (vm_compute; reflexivity).
    replace (jsstring_eqb (str "font-size") (str "font-family")) with false
      by (vm_compute; reflexivity).
    destruct (pxToPt _); cbn [xlsxSizeOf withFont font font_sz];
      [reflexivity|apply fontOrEmpty_size].
  - destruct (jsstring_eqb prop (str "color"));
      [cbn [xlsxSizeOf withFont font font_sz]; apply fontOrEmpty_size|].
    destruct (jsstring_eqb prop (str "background-color")); [reflexivity|].
    destruct (jsstring_eqb prop (str "font-family"));
      [cbn [xlsxSizeOf withFont font font_sz]; apply fontOrEmpty_size|].
    destruct (jsstring_eqb prop (str "font-weight"));
      [cbn [xlsxSizeOf withFont font font_sz]; apply fontOrEmpty_size|].
    destruct (jsstring_eqb prop (str "font-style"));
      [cbn [xlsxSizeOf withFont font font_sz]; apply fontOrEmpty_size|].
    reflexivity.
Qed.

Lemma fold_applyPart segs : forall style,
  fold_left applyPart segs style = applyDeclarations (declarationsOf segs) style.
Proof.
  unfold applyDeclarations.
  induction segs as [|part segs IH]; intros style; [reflexivity|].
  simpl. unfold applyPart at 2.
  destruct (parseDeclaration part) as [[p v]|]; simpl; apply IH.
Qed.

Lemma fold_parse segs : forall acc,
  fold_left (fun acc part =>
               match parseDeclaration part with
               | Some (prop, value) => obj_set prop value acc
               | None => acc
               end) segs acc =
  fold_left (fun acc kv => obj_set (fst kv) (snd kv) acc) (declarationsOf segs) acc.
Proof.
  induction segs as [|part segs IH]; intros acc; [reflexivity|].
  simpl. destruct (parseDeclaration part) as [[p v]|]; simpl; apply IH.
Qed.

(** After all declarations the size is the one of the last [font-size]
    value that gives a size. *)
Lemma applyDeclarations_size decls : forall style,
  xlsxSizeOf (applyDeclarations decls style) =
  fold_left (fun size V => match xlsxDecodedSize V with
                           | Some pt => Some pt
                           | None => size
                           end)
            (sizeValues decls) (xlsxSizeOf style).
Proof.
  unfold sizeValues, applyDeclarations.
  induction decls as [|[p v] decls IH]; intros style; [reflexivity|].
  cbn [map filter fold_left fst snd].
  rewrite (IH (applyDeclaration style p v)).
  rewrite (applyDeclaration_size style p v).
  destruct (jsstring_eqb p (str "font-size")); reflexivity.
Qed.

Lemma declarations_clean s p v :
  In (p, v) (declarations s) -> cleanText p = true /\ cleanText v = true.
Proof.
  unfold declarations. intros H. apply in_flat_map in H.
  destruct H as (part & Hpart & Hd).
  destruct (parseDeclaration part) as [[p' v']|] eqn:E; [|destruct Hd].
  simpl in Hd. destruct Hd as [Hd|[]]. injection Hd as -> ->.
  pose proof (styleSegments_no_semicolon s) as F. rewrite Forall_forall in F.
  exact (parseDeclaration_clean part p v (F part Hpart) E).
Qed.

Lemma sizeValues_In decls V :
  In V (sizeValues decls) -> In (str "font-size", V) decls.
Proof.
  unfold sizeValues. intros Hin.
  apply in_map_iff in Hin. destruct Hin as ([p v] & Ev & Hf).
  apply filter_In in Hf. destruct Hf as [Hin Hp].
  apply jsstring_eqb_eq in Hp. simpl in Ev, Hp. subst. exact Hin.
Qed.

(** The two decoders compute the same size from a clean value, the one
    described by [fontSizeInPoints]. *)
Lemma xlsxDecodedSize_clean V :
  cleanText V = true -> xlsxDecodedSize V = fontSizeInPoints V.
Proof.
  intros HV. destruct (cleanText_facts V HV) as (Hn & Ht & _).
  unfold xlsxDecodedSize, fontSizeInPoints, parseCssFontSize.
  destruct V as [|c V']; [contradiction|]. cbn [truthy negb]. rewrite Ht.
  destruct (Number_isNaN (parseFloat (c :: V'))) eqn:EN; [reflexivity|].
  destruct (endsWith (str "pt") (toLowerCase (c :: V'))).
  - unfold pointsRoundTrip. destruct (ptToPx (parseFloat (c :: V'))); reflexivity.
  - reflexivity.
Qed.

Lemma excelDecodedSize_clean V :
  cleanText V = true ->
  match parseCssFontSize V with
  | Some sizePx => pxToPt sizePx
  | None => None
  end = fontSizeInPoints V.
Proof.
  intros HV. destruct (cleanText_facts V HV) as (Hn & Ht & _).
  unfold fontSizeInPoints, parseCssFontSize.
  destruct V as [|c V']; [contradiction|]. cbn [truthy negb]. rewrite Ht.
  destruct (Number_isNaN (parseFloat (c :: V'))) eqn:EN; [reflexivity|].
  destruct (endsWith (str "pt") (toLowerCase (c :: V'))).
  - unfold pointsRoundTrip. destruct (ptToPx (parseFloat (c :: V'))); reflexivity.
  - reflexivity.
Qed.

Lemma declarations_nonempty s : declarations s <> [] -> truthy s = true.
Proof. destruct s; [intros H; exfalso; apply H; reflexivity|reflexivity]. Qed.

(** With several [font-size] declarations the last one decides in
    [cssToExcelStyle]; in [cssToXlsxStyle] the last one decides when it gives
    a size, and an earlier size stays when it gives none. *)
Lemma font_size_last_declaration (s : jsstring) (vs : list jsstring) (V : jsstring) :
  fontSizeValues s = vs ++ [V] ->
  excelFontSizeOf s = fontSizeInPoints V /\
  (fontSizeInPoints V <> None -> xlsxFontSize s = fontSizeInPoints V) /\
  (vs = [] -> xlsxFontSize s = fontSizeInPoints V).
Proof.
  intros H.
  assert (Hin : In (str "font-size", V) (declarations s)).
  { apply sizeValues_In. unfold fontSizeValues in H. rewrite H.
    apply in_or_app. right. left. reflexivity. }
  destruct (declarations_clean s _ _ Hin) as [_ HV].
  assert (Hs : truthy s = true).
  { apply declarations_nonempty. intros E. rewrite E in Hin. destruct Hin. }
  assert (Hx : xlsxFontSize s =
               match fontSizeInPoints V with
               | Some pt => Some pt
               | None => fold_left (fun size V => match xlsxDecodedSize V with
                                                  | Some pt => Some pt
                                                  | None => size
                                                  end) vs None
               end).
  { unfold xlsxFontSize, cssToXlsxStyle. rewrite Hs. cbn [negb].
    rewrite fold_applyPart.
    set (style := applyDeclarations (declarationsOf (styleSegments s))
                                    {| font := None; fill := None |}).
    assert (Hsize : xlsxSizeOf style =
                    match fontSizeInPoints V with
                    | Some pt => Some pt
                    | None => fold_left (fun size V => match xlsxDecodedSize V with
                                                       | Some pt => Some pt
                                                       | None => size
                                                       end) vs None
                    end).
    { unfold style. rewrite applyDeclarations_size.
      unfold fontSizeValues, declarations in H. rewrite H.
      rewrite fold_left_app. cbn [fold_left xlsxSizeOf font].
      rewrite (xlsxDecodedSize_clean V HV). reflexivity. }
    rewrite <- Hsize. unfold xlsxSizeOf.
    destruct (font style) as [f|] eqn:Ef; destruct (fill style) as [fl|] eqn:Efl;
      cbn [font]; rewrite ?Ef; reflexivity. }
  split; [|split].
  - unfold excelFontSizeOf, cssToExcelStyle. rewrite Hs. cbn [negb efont].
    assert (Hsize : excelFontSize (parseStyleString s) = fontSizeInPoints V).
    { unfold excelFontSize, truthyProp, parseStyleString.
      rewrite fold_parse.
      rewrite (obj_get_writes (str "font-size") (declarationsOf (styleSegments s)) []
                 eq_refl).
      unfold fontSizeValues, sizeValues, declarations in H.
      set (found := filter (fun d => jsstring_eqb (fst d) (str "font-size"))
                           (declarationsOf (styleSegments s))) in *.
      assert (Hlast : exists kv rest, rev found = kv :: rest /\ snd kv = V).
      { apply (f_equal (@rev jsstring)) in H. rewrite <- map_rev in H.
        rewrite rev_app_distr in H. cbn [rev app] in H.
        destruct (rev found) as [|kv rest]; [discriminate H|].
        exists kv, rest. split; [reflexivity|]. simpl in H. congruence. }
      destruct Hlast as (kv & rest & -> & <-).
      destruct (cleanText_facts (snd kv) HV) as (Hn & _).
      destruct (snd kv) as [|c V'] eqn:EV; [contradiction|]. cbn [truthy].
      apply (excelDecodedSize_clean (c :: V') HV). }
    rewrite <- Hsize.
    destruct (excelFontSize (parseStyleString s)) as [size|].
    + rewrite !orb_true_r. cbn [orb]. reflexivity.
    + destruct (isSome _ || isSome _ || isSome None || isSome _ || isSome _);
        reflexivity.
  - intros Hsome. rewrite Hx. destruct (fontSizeInPoints V); [reflexivity|].
    contradiction.
  - intros ->. rewrite Hx. destruct (fontSizeInPoints V); reflexivity.
Qed.

(** Claim C10: for every style string with one [font-size] declaration,
    both decoders ([cssToXlsxStyle] and [cssToExcelStyle]) give the size
    [fontSizeInPoints] describes: when the value does not start with a number
    there is no size field; when it ends with [pt], in any letter case, the
    number is converted from points to pixels and the pixels back to points;
    otherwise the number is taken as pixels and converted to points. *)
Theorem font_size_decoding (s V : jsstring) :
  fontSizeValues s = [V] ->
  xlsxFontSize s = fontSizeInPoints V /\
  excelFontSizeOf s = fontSizeInPoints V.
Proof.
  intros H.
  destruct (font_size_last_declaration s [] V H) as (He & _ & Hx).
  split; [exact (Hx eq_refl)|exact He].
Qed.

Lemma font_size_decoding_witness :
  fontSizeValues (str "font-size: 12pt") = [str "12pt"] /\
  xlsxFontSize (str "font-size: 12pt") = fontSizeInPoints (str "12pt") /\
  excelFontSizeOf (str "font-size: 12pt") = fontSizeInPoints (str "12pt") /\
  fontSizeInPoints (str "12pt") = Some (Fin 12).
Proof.
  assert (H : fontSizeValues (str "font-size: 12pt") = [str "12pt"])
    by (vm_compute; reflexivity).
  split; [exact H|].
  split; [exact (proj1 (font_size_decoding _ _ H))|].
  split; [exact (proj2 (font_size_decoding _ _ H))|].
  vm_compute. reflexivity.
Defined.

(** The two decoders on a string with two [font-size] declarations, the
    second without a number: [cssToExcelStyle] reads the second and gives no
    size, [cssToXlsxStyle] keeps the size of the first. *)
Lemma font_size_two_declarations :
  excelFontSizeOf (str "font-size: 12px; font-size: large") = None /\
  xlsxFontSize (str "font-size: 12px; font-size: large") = Some (Fin 9).
Proof. split; vm_compute; reflexivity. Qed.

(* ----------------------------------------------------------------- *)
(** ** Document reader: the grid *)

Lemma length_update {A : Type} i (x : A) a : length (update i x a) = length a.
Proof.
  revert i. induction a as [|y a IH]; intros [|i]; simpl; try reflexivity.
  rewrite IH. reflexivity.
Qed.













(** An empty sheet gives the grid with the one entry [''], and a hole or a
    cell whose value is [null] gives ['']. *)
Lemma reader_empty_sheet :
  extractData [] = [[emptyString]] /\ gridEntry emptyCell = emptyString.
Proof. split; reflexivity. Qed.

(* ----------------------------------------------------------------- *)
(** ** Document writer: the stored value *)

(** Claim C5 (as amended): for every grid cell whose string form does not
    start with [=], the writer stores the number [Number(cellValue)] when
    that number is not NaN and the trimmed string form is not empty, and
    stores the original value unchanged otherwise.  The number stored may be
    infinite: the text [Infinity] is stored as the number Infinity. *)
Theorem written_value_coercion (Number_toString : number -> jsstring)
        (cellValue : primitive) :
  startsWith (str "=") (cellStrOf Number_toString cellValue) = false ->
  (coercesToNumber Number_toString cellValue = true ->
   writtenValue Number_toString cellValue = PlainValue (PNumber (ToNumber cellValue))) /\
  (coercesToNumber Number_toString cellValue = false ->
   writtenValue Number_toString cellValue = PlainValue cellValue) /\
  (forall s, cellValue = PString s ->
     ((exists n, writtenValue Number_toString cellValue = PlainValue (PNumber n))
      <-> trim s <> [] /\ StringToNumber s <> NaN)).
Proof.
  intros Heq. unfold writtenValue, coercesToNumber. rewrite Heq.
  split; [|split].
  - intros H. rewrite H. reflexivity.
  - intros H. rewrite H. reflexivity.
  - intros s ->. cbn [ToNumber cellStrOf orEmptyString String_].
    destruct (Number_isNaN (StringToNumber s)) eqn:EN;
      destruct (jsstring_eqb (trim s) []) eqn:ET; cbn [negb andb].
    + split; [intros (n & H); discriminate H|].
      intros [_ H]. destruct (StringToNumber s); try discriminate EN. contradiction.
    + split; [intros (n & H); discriminate H|].
      intros [_ H]. destruct (StringToNumber s); try discriminate EN. contradiction.
    + split; [intros (n & H); discriminate H|].
      intros [H _]. apply jsstring_eqb_eq in ET. contradiction.
    + split.
      * intros _. split.
        -- apply jsstring_eqb_neq. exact ET.
        -- intros H. rewrite H in EN. discriminate EN.
      * intros _. exists (StringToNumber s). reflexivity.
Qed.

Lemma written_value_coercion_witness :
  writtenValue (fun _ => []) (PString (str "42")) = PlainValue (PNumber (Fin 42)) /\
  writtenValue (fun _ => []) (PString (str "42abc")) = PlainValue (PString (str "42abc")) /\
  writtenValue (fun _ => []) (PString []) = PlainValue (PString []).
Proof.
  split; [|split].
  - exact (proj1 (written_value_coercion (fun _ => []) (PString (str "42")) eq_refl)
                 eq_refl).
  - exact (proj1 (proj2 (written_value_coercion (fun _ => []) (PString (str "42abc"))
                                                eq_refl)) eq_refl).
  - exact (proj1 (proj2 (written_value_coercion (fun _ => []) (PString []) eq_refl))
                 eq_refl).
Defined.

(** Counterexample to claim C5 as stated: the text [Infinity] does not parse
    as a finite number, and the writer stores the number Infinity for it, not
    the text.  (The conversion of numbers to strings plays no part for a
    text cell.) *)
Lemma written_value_Infinity :
  (fun nts => writtenValue nts (PString (str "Infinity")))
    = (fun _ => PlainValue (PNumber (Inf false))) /\
  (fun nts => writtenValueIfFinite nts (PString (str "Infinity")))
    = (fun _ => PlainValue (PString (str "Infinity"))) /\
  Number_isFinite (StringToNumber (str "Infinity")) = false /\
  (fun nts => writtenValue nts (PString (str "Infinity")))
    <> (fun nts => writtenValueIfFinite nts (PString (str "Infinity"))).
Proof.
  split; [vm_compute; reflexivity|].
  split; [vm_compute; reflexivity|].
  split; [vm_compute; reflexivity|].
  intros H.
  apply (f_equal (fun f => f (fun _ : number => @nil ascii))) in H.
  vm_compute in H. discriminate H.
Qed.

(* ----------------------------------------------------------------- *)
(** ** Rounding to binary64: exact values and equal arguments *)

Section Representable.

Open Scope Q_scope.

Lemma two_pow_le a b : (a <= b)%Z -> two_pow a <= two_pow b.
Proof. intros H. apply Qpower_le_compat_l; [exact H|discriminate]. Qed.

Lemma two_pow_lt_inv a b : two_pow a < two_pow b -> (a < b)%Z.
Proof. intros H. apply (Qpower_lt_compat_l_inv 2); [exact H|reflexivity]. Qed.

(** [ilog2 x] is the binary logarithm of [|x|] rounded down. *)
Lemma ilog2_lt x : ~ x == 0 -> Qabs x < two_pow (ilog2 x + 1).
Proof.
  intros Hx. unfold ilog2.
  set (N := Z.abs (Qnum x)). set (D := Zpos (Qden x)).
  set (k := (Z.log2 N - Z.log2 D)%Z).
  destruct (Qle_bool (two_pow k) (Qabs x)) eqn:E.
  - assert (HN : (0 < N)%Z).
    { unfold N. destruct x as [n d]. unfold Qeq in Hx. simpl in *. lia. }
    assert (HD : (0 < D)%Z) by (unfold D; lia).
    pose proof (Z.log2_spec N HN) as [_ HN2].
    pose proof (Z.log2_spec D HD) as [HD1 _].
    pose proof (Z.log2_nonneg N) as HlN. pose proof (Z.log2_nonneg D) as HlD.
    assert (Habs : Qabs x == inject_Z N / inject_Z D).
    { destruct x as [n d]. unfold N, D. simpl Qnum. simpl Qden.
      rewrite <- Zabs_Qabs. rewrite (Qmake_Qdiv (Z.abs n) d). reflexivity. }
    rewrite Habs.
    assert (HDq : 0 < inject_Z D)
      by (change 0 with (inject_Z 0); rewrite <- Zlt_Qlt; exact HD).
    apply Qlt_shift_div_r; [exact HDq|].
    apply Qlt_le_trans with (two_pow (k + 1) * two_pow (Z.log2 D)).
    + rewrite <- two_pow_plus.
      replace (k + 1 + Z.log2 D)%Z with (Z.succ (Z.log2 N)) by (unfold k; lia).
      rewrite two_pow_inject by lia. rewrite <- Zlt_Qlt. exact HN2.
    + apply Qmult_le_l; [apply two_pow_pos|].
      rewrite two_pow_inject by lia. rewrite <- Zle_Qle. exact HD1.
  - replace (k - 1 + 1)%Z with k by lia.
    apply Qnot_le_lt. intros H. apply Qle_bool_iff in H. congruence.
Qed.

Lemma ilog2_unique x k :
  two_pow k <= Qabs x -> Qabs x < two_pow (k + 1) -> ilog2 x = k.
Proof.
  intros L U.
  assert (Hx : ~ x == 0).
  { intros H. rewrite H in L. pose proof (two_pow_pos k). 
    change (Qabs 0) with 0 in L. lra. }
  pose proof (ilog2_le x Hx) as L'. pose proof (ilog2_lt x Hx) as U'.
  assert (A : (ilog2 x < k + 1)%Z) by (apply two_pow_lt_inv; lra).
  assert (B : (k < ilog2 x + 1)%Z) by (apply two_pow_lt_inv; lra).
  lia.
Qed.

Lemma ilog2_compat x y : x == y -> ~ x == 0 -> ilog2 x = ilog2 y.
Proof.
  intros E Hx. symmetry. apply ilog2_unique.
  - rewrite <- E. apply ilog2_le. exact Hx.
  - rewrite <- E. apply ilog2_lt. exact Hx.
Qed.

Lemma roundTiesToEven_compat s t : s == t -> roundTiesToEven s = roundTiesToEven t.
Proof.
  intros E. unfold roundTiesToEven. rewrite (Qfloor_comp s t E).
  assert (C : (s - inject_Z (Qfloor t) ?= 1 # 2) = (t - inject_Z (Qfloor t) ?= 1 # 2)).
  { apply Qcompare_comp; [rewrite E; reflexivity|reflexivity]. }
  rewrite C. reflexivity.
Qed.

(** The rounding does not depend on the way its argument is written. *)
Lemma round_binary64_compat x y : x == y -> round_binary64 x == round_binary64 y.
Proof.
  intros E. destruct (Qeq_dec x 0) as [Hz|Hnz].
  - rewrite (round_binary64_zero x Hz).
    rewrite (round_binary64_zero y); [reflexivity|]. rewrite <- E. exact Hz.
  - unfold round_binary64, binary64_exponent.
    rewrite <- (ilog2_compat x y E Hnz).
    set (e := (Z.max (ilog2 x) (-1022) - 52)%Z).
    assert (T : x / two_pow e == y / two_pow e) by (rewrite E; reflexivity).
    rewrite (roundTiesToEven_compat _ _ T). reflexivity.
Qed.

Lemma toNumber_compat x y : x == y -> toNumber x = toNumber y.
Proof.
  intros E. unfold toNumber.
  pose proof (round_binary64_compat x y E) as R.
  assert (A : Qle_bool (two_pow 1024) (Qabs (round_binary64 x))
              = Qle_bool (two_pow 1024) (Qabs (round_binary64 y))).
  { apply Qleb_comp; [reflexivity|rewrite R; reflexivity]. }
  rewrite A. rewrite (Qred_complete _ _ R).
  assert (B : Qnegative x = Qnegative y).
  { unfold Qnegative. f_equal. apply Qleb_comp; [reflexivity|exact E]. }
  rewrite B. reflexivity.
Qed.

(** The distance to the rounded value is at most half a unit in the last
    place. *)
Lemma round_binary64_half_ulp x :
  Qabs (round_binary64 x - x) <= (1 # 2) * two_pow (binary64_exponent x).
Proof.
  unfold round_binary64.
  set (e := binary64_exponent x).
  pose proof (two_pow_pos e) as He.
  pose proof (roundTiesToEven_near (x / two_pow e)) as [A B].
  set (n := inject_Z (roundTiesToEven (x / two_pow e))) in *.
  assert (Hx : x == (x / two_pow e) * two_pow e) by (field; lra).
  set (t := x / two_pow e) in *.
  apply Qabs_Qle_condition. split.
  - setoid_replace (n * two_pow e - x) with ((n - t) * two_pow e)
      by (rewrite Hx at 1; ring).
    assert (- (1 # 2) <= n - t) by lra. nra.
  - setoid_replace (n * two_pow e - x) with ((n - t) * two_pow e)
      by (rewrite Hx at 1; ring).
    assert (n - t <= 1 # 2) by lra. nra.
Qed.

(** In the normal range one rounding moves [x] by at most [|x| * 2^-53]. *)
Lemma round_binary64_relative x :
  two_pow (-1022) <= Qabs x ->
  Qabs (round_binary64 x - x) <= Qabs x * ulp53.
Proof.
  intros Hn.
  assert (Hx : ~ x == 0).
  { intros H. rewrite H in Hn. change (Qabs 0) with 0 in Hn.
    pose proof (two_pow_pos (-1022)). lra. }
  pose proof (ilog2_le x Hx) as L. pose proof (ilog2_lt x Hx) as U.
  assert (Hk : (-1022 <= ilog2 x)%Z).
  { assert (A : (-1022 < ilog2 x + 1)%Z) by (apply two_pow_lt_inv; lra). lia. }
  eapply Qle_trans; [apply round_binary64_half_ulp|].
  unfold binary64_exponent. rewrite Z.max_l by lia.
  replace (ilog2 x - 52)%Z with (ilog2 x + (-52))%Z by lia.
  rewrite two_pow_plus.
  change (two_pow (-52)) with (1 # 4503599627370496). unfold ulp53.
  pose proof (two_pow_pos (ilog2 x)). lra.
Qed.

(** An integer within a half of [t] that is an integer is [t]. *)
Lemma roundTiesToEven_integer t z : t == inject_Z z -> roundTiesToEven t = z.
Proof.
  intros E. pose proof (roundTiesToEven_near t) as [A B].
  assert (L : inject_Z (z - 1) < inject_Z (roundTiesToEven t)).
  { unfold Zminus. rewrite inject_Z_plus, inject_Z_opp.
    change (inject_Z 1) with 1. lra. }
  assert (U : inject_Z (roundTiesToEven t) < inject_Z (z + 1)).
  { rewrite inject_Z_plus. change (inject_Z 1) with 1. lra. }
  rewrite <- Zlt_Qlt in L, U. lia.
Qed.

(** A number [m * 2^e] with [|m| < 2^53] and [e >= -1074] is a binary64:
    rounding leaves it as it is. *)
Lemma round_binary64_exact x m e :
  x == inject_Z m * two_pow e ->
  (Z.abs m < 2 ^ 53)%Z -> (-1074 <= e)%Z ->
  round_binary64 x == x.
Proof.
  intros E Hm He.
  destruct (Qeq_dec x 0) as [Hz|Hnz].
  { rewrite (round_binary64_zero x Hz). symmetry. exact Hz. }
  pose proof (ilog2_le x Hnz) as L.
  assert (Hax : Qabs x < two_pow (53 + e)).
  { rewrite E, Qabs_Qmult. rewrite (Qabs_pos (two_pow e))
      by (apply Qlt_le_weak, two_pow_pos).
    rewrite two_pow_plus. apply Qmult_lt_compat_r; [apply two_pow_pos|].
    change (Qabs (inject_Z m)) with (inject_Z (Z.abs m)).
    rewrite two_pow_inject by lia. rewrite <- Zlt_Qlt. exact Hm. }
  assert (Hk : (ilog2 x < 53 + e)%Z) by (apply two_pow_lt_inv; lra).
  unfold round_binary64.
  set (ex := binary64_exponent x).
  assert (Hex : (ex <= e)%Z) by (unfold ex, binary64_exponent; lia).
  pose proof (two_pow_pos ex) as Hpos.
  assert (T : x / two_pow ex == inject_Z (m * 2 ^ (e - ex))).
  { rewrite inject_Z_mult. rewrite <- two_pow_inject by lia.
    rewrite E. replace e with ((e - ex) + ex)%Z at 1 by lia.
    rewrite two_pow_plus. field. lra. }
  rewrite (roundTiesToEven_integer _ _ T).
  rewrite <- T. field. lra.
Qed.

Lemma Qred_integer z : Qred (inject_Z z) = inject_Z z.
Proof.
  unfold Qred, inject_Z.
  pose proof (Z.ggcd_gcd z 1) as G. pose proof (Z.ggcd_correct_divisors z 1) as C.
  destruct (Z.ggcd z 1) as [g [a b]]. cbn [fst snd] in *.
  rewrite Z.gcd_1_r in G. subst g. destruct C as [Ca Cb].
  assert (a = z) by lia. assert (b = 1%Z) by lia. subst a b. reflexivity.
Qed.

(** In particular every integer below [2^53] in absolute value. *)
Lemma toNumber_integer z :
  (Z.abs z < 2 ^ 53)%Z -> toNumber (inject_Z z) = Fin (inject_Z z).
Proof.
  intros Hz. unfold toNumber.
  assert (R : round_binary64 (inject_Z z) == inject_Z z).
  { apply (round_binary64_exact _ z 0); [|exact Hz|lia].
    change (two_pow 0) with 1. ring. }
  assert (A : Qle_bool (two_pow 1024) (Qabs (round_binary64 (inject_Z z))) = false).
  { destruct (Qle_bool _ _) eqn:E; [|reflexivity]. exfalso.
    apply Qle_bool_iff in E. rewrite R in E.
    change (Qabs (inject_Z z)) with (inject_Z (Z.abs z)) in E.
    rewrite two_pow_inject in E by lia. rewrite <- Zle_Qle in E.
    assert ((2 ^ 53 < 2 ^ 1024)%Z) by (apply Z.pow_lt_mono_r; lia). lia. }
  rewrite A. f_equal. rewrite (Qred_complete _ _ R).
  apply Qred_integer.
Qed.

End Representable.

(* ----------------------------------------------------------------- *)
(** ** Unit codec: fixed points of the conversions *)

Section UnitFixedPoints.

Open Scope Q_scope.

Ltac hundredths := unfold Qdiv in *; change (/ 100) with (1 # 100) in *.
Ltac by_bounds := apply Qabs_Qle_condition; unfold ulp53 in *; hundredths; split; lra.

Lemma between_integers (a b : Z) :
  inject_Z a - 1 < inject_Z b -> inject_Z b < inject_Z a + 1 -> b = a.
Proof.
  intros L U.
  assert (L' : inject_Z (a - 1) < inject_Z b).
  { unfold Zminus. rewrite inject_Z_plus, inject_Z_opp.
    change (inject_Z 1) with 1. lra. }
  assert (U' : inject_Z b < inject_Z (a + 1)).
  { rewrite inject_Z_plus. change (inject_Z 1) with 1. lra. }
  rewrite <- Zlt_Qlt in L', U'. lia.
Qed.

(** [toFixedNumber] with the integer of hundredths it rounds to. *)
Lemma toFixedNumber_hundredths v :
  Qabs v <= 1999999999 ->
  exists (m : Z) (r : Q),
    toFixedNumber (Fin v) = Some (Fin r) /\
    toNumber (inject_Z m / 100) = Fin r /\
    100 * v - (50003 # 100000) <= inject_Z m <= 100 * v + (50003 # 100000) /\
    inject_Z m / 100 - (1 # 1000000) <= r <= inject_Z m / 100 + (1 # 1000000).
Proof.
  intros Hv.
  destruct (toFixedNumber_bounded v 1999999999) as (m & Em & Hm); [exact Hv|lra|].
  apply Qabs_Qle_condition in Hv.
  assert (Hm' : 100 * v - (50003 # 100000) <= inject_Z m <= 100 * v + (50003 # 100000)).
  { unfold ulp53 in Hm. split; lra. }
  destruct (toNumber_hundredths m) as (r & Er & Hr); [by_bounds|].
  exists m, r. rewrite Em, Er. repeat split; try reflexivity; tauto.
Qed.

(** A number of hundredths is a fixed point of [toFixedNumber]. *)
Lemma toFixedNumber_fixed (m : Z) (r : Q) :
  Qabs (inject_Z m) <= 199999999000 ->
  toNumber (inject_Z m / 100) = Fin r ->
  toFixedNumber (Fin r) = Some (Fin r).
Proof.
  intros Hm Em.
  destruct (toNumber_hundredths m) as (r0 & Er & Hr).
  { eapply Qle_trans; [exact Hm|]. discriminate. }
  rewrite Em in Er. injection Er as <-.
  apply Qabs_Qle_condition in Hm.
  destruct (toFixedNumber_hundredths r) as (m' & r' & E' & Em' & Hm' & Hr').
  { by_bounds. }
  rewrite E'. rewrite <- Em', <- Em.
  assert (Hmm : m' = m) by (apply between_integers; hundredths; lra).
  rewrite Hmm. reflexivity.
Qed.

(** X1.  On a value of absolute value at most [10^9], [toFixedNumber]
    returns a number within 0.00501 of the value, and that number is a fixed
    point: rounding it again changes nothing. *)
Theorem toFixedNumber_idempotent (v : Q) :
  Qabs v <= 1000000000 ->
  exists r,
    toFixedNumber (Fin v) = Some (Fin r) /\
    Qabs (r - v) <= 501 # 100000 /\
    toFixedNumber (Fin r) = Some (Fin r).
Proof.
  intros Hv.
  destruct (toFixedNumber_hundredths v) as (m & r & E & Em & Hm & Hr).
  { eapply Qle_trans; [exact Hv|]. discriminate. }
  apply Qabs_Qle_condition in Hv.
  exists r. split; [exact E|]. split; [by_bounds|].
  apply (toFixedNumber_fixed m); [by_bounds|exact Em].
Qed.

Lemma toFixedNumber_idempotent_witness :
  exists r,
    toFixedNumber (Fin (1467 # 100)) = Some (Fin r) /\
    Qabs (r - (1467 # 100)) <= 501 # 100000 /\
    toFixedNumber (Fin r) = Some (Fin r).
Proof.
  apply (toFixedNumber_idempotent (1467 # 100)). vm_compute. discriminate.
Defined.

(** X2.  A size in points with two decimals, [k / 100] as a binary64 with
    [|k| <= 10^11], comes back from [pxToPt(ptToPx(.))] exactly. *)
Theorem points_with_two_decimals_round_trip (k : Z) :
  (Z.abs k <= 100000000000)%Z ->
  pointsRoundTrip (toNumber (inject_Z k / 100)) = Some (toNumber (inject_Z k / 100)).
Proof.
  intros Hk.
  assert (Hq : Qabs (inject_Z k) <= 100000000000).
  { change (Qabs (inject_Z k)) with (inject_Z (Z.abs k)).
    change 100000000000 with (inject_Z 100000000000). rewrite <- Zle_Qle. exact Hk. }
  destruct (toNumber_hundredths k) as (p & Ep & Hp).
  { eapply Qle_trans; [exact Hq|]. discriminate. }
  rewrite Ep. apply Qabs_Qle_condition in Hq.
  destruct (pointsRoundTrip_bounded p) as (m & n & r & E & En & Hm & Hn & Hr).
  { by_bounds. }
  rewrite E. rewrite <- En, <- Ep.
  assert (Hnk : n = k) by (apply between_integers; hundredths; lra).
  rewrite Hnk. reflexivity.
Qed.

Lemma points_with_two_decimals_round_trip_witness :
  pointsRoundTrip (toNumber (inject_Z 1050 / 100))
  = Some (toNumber (inject_Z 1050 / 100)).
Proof.
  apply (points_with_two_decimals_round_trip 1050). vm_compute. discriminate.
Defined.

Lemma pixels_integer_steps (n : Z) :
  (Z.abs n <= 1000000000)%Z ->
  exists q, pxToPt (Fin (inject_Z n)) = Some (Fin q) /\
            ptToPx (Fin q) = Some (Fin (inject_Z n)).
Proof.
  intros Hn.
  assert (Hq : Qabs (inject_Z n) <= 1000000000).
  { change (Qabs (inject_Z n)) with (inject_Z (Z.abs n)).
    change 1000000000 with (inject_Z 1000000000). rewrite <- Zle_Qle. exact Hn. }
  destruct (pxToPt_bounded (inject_Z n)) as (a & Ea & Ha).
  { eapply Qle_trans; [exact Hq|]. discriminate. }
  apply Qabs_Qle_condition in Hq.
  assert (Ha' : a = (75 * n)%Z).
  { apply between_integers; rewrite inject_Z_mult; change (inject_Z 75) with 75; lra. }
  subst a.
  assert (H75 : inject_Z (75 * n) == 75 * inject_Z n)
    by (rewrite inject_Z_mult; reflexivity).
  destruct (toNumber_hundredths (75 * n)) as (q & Eq & Hq').
  { rewrite H75. by_bounds. }
  exists q. rewrite Ea. split; [rewrite Eq; reflexivity|].
  rewrite H75 in Hq'.
  destruct (ptToPx_bounded q) as (m & Em & Hm); [by_bounds|].
  assert (Hm' : m = (100 * n)%Z).
  { apply between_integers; rewrite inject_Z_mult; change (inject_Z 100) with 100;
      hundredths; lra. }
  subst m. rewrite Em.
  rewrite (toNumber_compat (inject_Z (100 * n) / 100) (inject_Z n)).
  - f_equal. apply toNumber_integer.
    assert ((1000000000 < 2 ^ 53)%Z) by reflexivity. lia.
  - rewrite inject_Z_mult. change (inject_Z 100) with 100. field.
Qed.

(** X3.  A whole number of pixels, up to [10^9] in absolute value, comes
    back from [ptToPx(pxToPt(.))] exactly: the sizes the size box of the
    toolbar produces are kept when a sheet is saved and loaded again. *)
Theorem pixels_integer_round_trip (n : Z) :
  (Z.abs n <= 1000000000)%Z ->
  pixelsRoundTrip (Fin (inject_Z n)) = Some (Fin (inject_Z n)).
Proof.
  intros Hn. destruct (pixels_integer_steps n Hn) as (q & E1 & E2).
  unfold pixelsRoundTrip. rewrite E1. exact E2.
Qed.

Lemma pixels_integer_round_trip_witness :
  pixelsRoundTrip (Fin (inject_Z 12)) = Some (Fin (inject_Z 12)).
Proof.
  apply (pixels_integer_round_trip 12). vm_compute. discriminate.
Defined.

(** A pixel size with decimals need not come back: 13.5 pixels are 10.13
    points, which are 13.51 pixels. *)
Lemma pixels_with_decimals_drift :
  pixelsRoundTrip (Fin (27 # 2)) = Some (toNumber (1351 # 100)).
Proof. vm_compute. reflexivity. Qed.

End UnitFixedPoints.

(* ----------------------------------------------------------------- *)
(** ** Numbers as strings: digits *)

Lemma digitChar_digit d :
  (0 <= d <= 9)%Z -> isDigit (digitChar d) = true /\ digitValue (digitChar d) = d.
Proof.
  intros H. unfold isDigit, digitValue, digitChar, code.
  rewrite nat_ascii_embedding by lia.
  split.
  - apply andb_true_intro. split; apply Nat.leb_le; lia.
  - lia.
Qed.

Lemma digitsValue_app a b :
  digitsValue (a ++ b) = (digitsValue a * 10 ^ Z.of_nat (length b) + digitsValue b)%Z.
Proof.
  unfold digitsValue at 1. rewrite fold_left_app.
  rewrite digitsValue_from. reflexivity.
Qed.

Lemma digitsValue_zeros j : digitsValue (repeat "0"%char j) = 0%Z.
Proof.
  induction j as [|j IH]; [reflexivity|].
  cbn [repeat]. rewrite digitsValue_cons, IH. reflexivity.
Qed.

Lemma forallb_isDigit_zeros j : forallb isDigit (repeat "0"%char j) = true.
Proof. induction j as [|j IH]; [reflexivity|]. cbn [repeat forallb]. rewrite IH. reflexivity. Qed.

(** With enough fuel [digitsFrom] writes the digits of [z] in front of the
    accumulator. *)
Lemma digitsFrom_spec fuel : forall z acc,
  (0 <= z < 10 ^ Z.of_nat (S fuel))%Z ->
  exists ds,
    digitsFrom (S fuel) z acc = ds ++ acc /\
    forallb isDigit ds = true /\
    digitsValue ds = z /\
    ds <> [] /\
    (1 <= z -> 10 ^ (Z.of_nat (length ds) - 1) <= z < 10 ^ Z.of_nat (length ds))%Z.
Proof.
  assert (Small : forall fuel z acc, (0 <= z < 10)%Z ->
            exists ds,
              digitsFrom (S fuel) z acc = ds ++ acc /\
              forallb isDigit ds = true /\
              digitsValue ds = z /\
              ds <> [] /\
              (1 <= z -> 10 ^ (Z.of_nat (length ds) - 1) <= z < 10 ^ Z.of_nat (length ds))%Z).
  { intros f z acc E. cbn [digitsFrom].
    replace (z <? 10)%Z with true by (symmetry; apply Z.ltb_lt; lia).
    rewrite Z.mod_small by lia.
    destruct (digitChar_digit z) as [D V]; [lia|].
    exists [digitChar z]. cbn [app forallb length]. rewrite D.
    repeat split; try reflexivity.
    * unfold digitsValue. cbn [fold_left]. lia.
    * discriminate.
    * change (Z.of_nat 1 - 1)%Z with 0%Z. lia.
    * change (10 ^ Z.of_nat 1)%Z with 10%Z. lia. }
  induction fuel as [|fuel IH]; intros z acc Hz.
  - apply Small. change (10 ^ Z.of_nat 1)%Z with 10%Z in Hz. exact Hz.
  - destruct (z <? 10)%Z eqn:E.
    + apply Z.ltb_lt in E. apply Small. lia.
    + cbn [digitsFrom]. rewrite E. cbn [digitsFrom] in IH.
      apply Z.ltb_ge in E.
      assert (Hq : (0 <= z / 10 < 10 ^ Z.of_nat (S fuel))%Z).
      { split; [apply Z.div_pos; lia|].
        apply Z.div_lt_upper_bound; [lia|].
        rewrite (Nat2Z.inj_succ (S fuel)), Z.pow_succ_r in Hz by lia. lia. }
      destruct (IH (z / 10)%Z (digitChar (z mod 10) :: acc) Hq)
        as (ds & Eds & Dds & Vds & Nds & Lds).
      pose proof (Z.mod_pos_bound z 10 ltac:(lia)) as Hm.
      destruct (digitChar_digit (z mod 10) ltac:(lia)) as [D V].
      exists (ds ++ [digitChar (z mod 10)]).
      rewrite Eds, <- app_assoc. split; [reflexivity|].
      split; [rewrite forallb_app, Dds; cbn [forallb]; rewrite D; reflexivity|].
      split.
      { rewrite digitsValue_app. cbn [length].
        change (10 ^ Z.of_nat 1)%Z with 10%Z.
        unfold digitsValue at 2. cbn [fold_left]. rewrite V, Vds.
        pose proof (Z.div_mod z 10 ltac:(lia)). lia. }
      split; [destruct ds; discriminate|].
      intros _. rewrite length_app. cbn [length].
      assert (H1 : (1 <= z / 10)%Z).
      { apply Z.div_le_lower_bound; lia. }
      specialize (Lds H1).
      replace (Z.of_nat (length ds + 1) - 1)%Z with (Z.succ (Z.of_nat (length ds) - 1))
        by lia.
      replace (Z.of_nat (length ds + 1)) with (Z.succ (Z.of_nat (length ds))) by lia.
      assert (0 <= Z.of_nat (length ds) - 1)%Z by (destruct ds; [contradiction|cbn [length]; lia]).
      rewrite !Z.pow_succ_r by lia.
      pose proof (Z.div_mod z 10 ltac:(lia)). lia.
Qed.


Lemma digitsOf_spec z :
  (0 <= z)%Z ->
  forallb isDigit (digitsOf z) = true /\
  digitsValue (digitsOf z) = z /\
  digitsOf z <> [] /\
  (1 <= z -> 10 ^ (decimalLength z - 1) <= z < 10 ^ decimalLength z)%Z.
Proof.
  intros Hz. unfold decimalLength, digitsOf.
  destruct (digitsFrom_spec (Z.to_nat (Z.log2 z)) z []) as (ds & E & D & V & N & L).
  { split; [exact Hz|].
    rewrite Nat2Z.inj_succ, Z2Nat.id by apply Z.log2_nonneg.
    destruct (Z.eq_dec z 0) as [->|Hnz]; [reflexivity|].
    pose proof (Z.log2_spec z ltac:(lia)) as [_ U].
    eapply Z.lt_le_trans; [exact U|].
    apply Z.pow_le_mono_l. pose proof (Z.log2_nonneg z). lia. }
  rewrite E, app_nil_r. tauto.
Qed.

Lemma decimalLength_unique z k :
  (10 ^ (k - 1) <= z < 10 ^ k)%Z -> (1 <= k)%Z -> decimalLength z = k.
Proof.
  intros Hz Hk.
  assert (H1 : (1 <= z)%Z).
  { assert (0 < 10 ^ (k - 1))%Z by (apply Z.pow_pos_nonneg; lia). lia. }
  destruct (digitsOf_spec z ltac:(lia)) as (_ & _ & N & L). specialize (L H1).
  assert (Hl : (1 <= decimalLength z)%Z).
  { unfold decimalLength. destruct (digitsOf z); [contradiction|cbn [length]; lia]. }
  assert (A : (decimalLength z - 1 < k)%Z).
  { apply (Z.pow_lt_mono_r_iff 10); lia. }
  assert (B : (k - 1 < decimalLength z)%Z).
  { apply (Z.pow_lt_mono_r_iff 10); lia. }
  lia.
Qed.

Lemma digitsOf_length s k :
  (10 ^ (k - 1) <= s < 10 ^ k)%Z -> (1 <= k)%Z ->
  length (digitsOf s) = Z.to_nat k.
Proof.
  intros Hs Hk. pose proof (decimalLength_unique s k Hs Hk) as E.
  unfold decimalLength in E. lia.
Qed.

(** The first digit of a positive integer is not zero. *)
Lemma digitsOf_head s :
  (1 <= s)%Z -> exists c rest, digitsOf s = c :: rest /\ isDigit c = true /\ c <> "0"%char.
Proof.
  intros Hs. destruct (digitsOf_spec s ltac:(lia)) as (D & V & N & L).
  specialize (L Hs). unfold decimalLength in L.
  destruct (digitsOf s) as [|c rest]; [contradiction|].
  exists c, rest. split; [reflexivity|].
  cbn [forallb] in D. apply andb_prop in D. destruct D as [Dc Dr].
  split; [exact Dc|]. intros ->.
  rewrite digitsValue_cons in V. change (digitValue "0") with 0%Z in V.
  pose proof (digitsValue_range rest Dr) as R.
  cbn [length] in L.
  replace (Z.of_nat (S (length rest)) - 1)%Z with (Z.of_nat (length rest)) in L by lia.
  lia.
Qed.

(* ----------------------------------------------------------------- *)
(** ** Numbers as strings: the shortest decimal *)

Section ShortestDecimal.

Open Scope Q_scope.

Lemma pow10_pos e : 0 < 10 ^ e.
Proof. apply Qpower_0_lt. reflexivity. Qed.

Lemma pow10_plus a b : 10 ^ (a + b) == 10 ^ a * 10 ^ b.
Proof. apply Qpower_plus. discriminate. Qed.

Lemma pow10_inject (z : Z) : (0 <= z)%Z -> 10 ^ z == inject_Z (10 ^ z).
Proof. intros H. symmetry. apply (Zpower_Qpower 10 z H). Qed.

Lemma pow10_le a b : (a <= b)%Z -> 10 ^ a <= 10 ^ b.
Proof. intros H. apply Qpower_le_compat_l; [exact H|discriminate]. Qed.

Lemma pow10_lt_inv a b : 10 ^ a < 10 ^ b -> (a < b)%Z.
Proof. intros H. apply (Qpower_lt_compat_l_inv 10); [exact H|reflexivity]. Qed.

Lemma pow10_opp a : 10 ^ (- a) == / 10 ^ a.
Proof. apply Qpower_opp. Qed.

Lemma decimalLength_bounds z :
  (1 <= z)%Z ->
  (1 <= decimalLength z)%Z /\
  10 ^ (decimalLength z - 1) <= inject_Z z /\
  inject_Z z + 1 <= 10 ^ decimalLength z.
Proof.
  intros Hz. destruct (digitsOf_spec z ltac:(lia)) as (_ & _ & N & L).
  specialize (L Hz).
  assert (Hl : (1 <= decimalLength z)%Z).
  { unfold decimalLength. destruct (digitsOf z); [contradiction|cbn [length]; lia]. }
  split; [exact Hl|]. split.
  - rewrite pow10_inject by lia. rewrite <- Zle_Qle. lia.
  - rewrite pow10_inject by lia.
    change 1 with (inject_Z 1). rewrite <- inject_Z_plus, <- Zle_Qle. lia.
Qed.

(** [decimalExponent x] is the decimal logarithm of [x] rounded down, plus
    one. *)
Lemma decimalExponent_spec x :
  0 < x ->
  10 ^ (decimalExponent x - 1) <= x /\ x < 10 ^ decimalExponent x.
Proof.
  intros Hx. unfold decimalExponent.
  destruct (Qle_bool 1 x) eqn:E.
  - apply Qle_bool_iff in E.
    assert (Hf : (1 <= Qfloor x)%Z).
    { change 1%Z with (Qfloor 1). apply Qfloor_resp_le. exact E. }
    destruct (decimalLength_bounds (Qfloor x) Hf) as (Hl & L & U).
    pose proof (Qfloor_le x) as Flo. pose proof (Qlt_floor x) as Fhi.
    rewrite inject_Z_plus in Fhi. change (inject_Z 1) with 1 in Fhi.
    split; lra.
  - assert (Hlt : x < 1).
    { apply Qnot_le_lt. intros H. apply Qle_bool_iff in H. congruence. }
    set (y := / x).
    assert (Hy : 1 < y).
    { unfold y. apply Qlt_shift_inv_l; [exact Hx|]. lra. }
    assert (Hxy : x * y == 1) by (unfold y; field; lra).
    pose proof (Qceiling_lt y) as Clo. pose proof (Qle_ceiling y) as Chi.
    set (w := (Qceiling y - 1)%Z) in *.
    assert (Hc : inject_Z (Qceiling y) == inject_Z w + 1).
    { unfold w, Zminus. rewrite inject_Z_plus, inject_Z_opp.
      change (inject_Z 1) with 1. ring. }
    assert (Hw : (1 <= w)%Z).
    { assert (A : inject_Z 0 < inject_Z w)
        by (change (inject_Z 0) with 0; lra).
      rewrite <- Zlt_Qlt in A. lia. }
    destruct (decimalLength_bounds w Hw) as (Hl & L & U).
    set (c := decimalLength w) in *.
    pose proof (pow10_pos (c - 1)) as P1. pose proof (pow10_pos c) as P2.
    replace (1 - c - 1)%Z with (- c)%Z by lia.
    replace (1 - c)%Z with (- (c - 1))%Z by lia.
    rewrite !pow10_opp. split.
    + apply Qle_shift_inv_r; [exact P2|].
      assert (y <= 10 ^ c) by lra. nra.
    + apply Qlt_shift_inv_l; [exact P1|].
      assert (10 ^ (c - 1) < y) by lra. nra.
Qed.

(** The two neighbours have [k] digits, and the exponent of [x] or the
    next one. *)
Lemma neighbours_shape x n k :
  10 ^ (n - 1) <= x -> x < 10 ^ n -> (1 <= k)%Z ->
  let (lo, hi) := neighbours x n k in
  ((10 ^ (k - 1) <= fst lo < 10 ^ k)%Z /\ snd lo = n) /\
  ((10 ^ (k - 1) <= fst hi < 10 ^ k)%Z /\ (snd hi = n \/ snd hi = (n + 1)%Z)).
Proof.
  intros L U Hk. unfold neighbours.
  set (t := x * 10 ^ (k - n)).
  pose proof (pow10_pos (k - n)) as P.
  assert (Lt : inject_Z (10 ^ (k - 1)) <= t).
  { rewrite <- pow10_inject by lia. unfold t.
    replace (k - 1)%Z with ((n - 1) + (k - n))%Z by lia.
    rewrite pow10_plus. nra. }
  assert (Ut : t < inject_Z (10 ^ k)).
  { rewrite <- pow10_inject by lia. unfold t.
    replace k with (n + (k - n))%Z at 2 by lia.
    rewrite pow10_plus. nra. }
  pose proof (Qfloor_le t) as Flo. pose proof (Qlt_floor t) as Fhi.
  assert (A : (10 ^ (k - 1) <= Qfloor t)%Z).
  { assert (B : inject_Z (10 ^ (k - 1)) < inject_Z (Qfloor t + 1)) by lra.
    rewrite <- Zlt_Qlt in B. lia. }
  assert (B : (Qfloor t < 10 ^ k)%Z).
  { assert (C : inject_Z (Qfloor t) < inject_Z (10 ^ k)) by lra.
    rewrite <- Zlt_Qlt in C. exact C. }
  cbn [fst snd]. split; [split; [lia|reflexivity]|].
  destruct (Qfloor t + 1 =? 10 ^ k)%Z eqn:E; cbn [fst snd].
  - split; [|right; reflexivity]. split; [lia|].
    apply Z.pow_lt_mono_r; lia.
  - apply Z.eqb_neq in E. split; [lia|left; reflexivity].
Qed.

Lemma bestOf_sound x n k c :
  bestOf x n k = Some c ->
  readsBackAs x k c = true /\
  (c = fst (neighbours x n k) \/ c = snd (neighbours x n k)).
Proof.
  unfold bestOf. destruct (neighbours x n k) as [lo hi]. cbn [fst snd].
  destruct (readsBackAs x k lo) eqn:A; destruct (readsBackAs x k hi) eqn:B;
    intros H; try discriminate; injection H as <-.
  - unfold nearer.
    destruct (Qcompare _ _); [destruct (Z.even (fst lo))| |]; auto.
  - auto.
  - auto.
Qed.

Lemma bestOf_complete x n k :
  readsBackAs x k (fst (neighbours x n k)) = true \/
  readsBackAs x k (snd (neighbours x n k)) = true ->
  bestOf x n k <> None.
Proof.
  unfold bestOf. destruct (neighbours x n k) as [lo hi]. cbn [fst snd].
  intros [H|H]; rewrite H; clear H; destruct (readsBackAs x k _); discriminate.
Qed.

(** A search that passes a number of digits for which a decimal reads back
    stops at such a number of digits, with such a decimal. *)
Lemma shortestFrom_sound fuel : forall x n k0 kstar,
  (k0 <= kstar < k0 + Z.of_nat fuel)%Z ->
  bestOf x n kstar <> None ->
  exists c k,
    shortestFrom fuel x n k0 = (c, k) /\
    (k0 <= k <= kstar)%Z /\ bestOf x n k = Some c.
Proof.
  induction fuel as [|fuel IH]; intros x n k0 kstar Hk Hb; [lia|].
  cbn [shortestFrom]. destruct (bestOf x n k0) as [c|] eqn:E.
  - exists c, k0. split; [reflexivity|]. split; [lia|exact E].
  - assert (Hne : kstar <> k0) by (intros ->; contradiction).
    destruct (IH x n (k0 + 1)%Z kstar ltac:(lia) Hb) as (c & k & Es & Hr & Eb).
    exists c, k. split; [exact Es|]. split; [lia|exact Eb].
Qed.

(** A number [toNumber] returns is written in lowest terms. *)
Lemma toNumber_canonical x t : toNumber x = Fin t -> Qred t = t.
Proof.
  unfold toNumber.
  destruct (Qle_bool (two_pow 1024) (Qabs (round_binary64 x))); [discriminate|].
  intros H. assert (Et : t = Qred (round_binary64 x)) by congruence.
  rewrite Et. apply Qred_complete, Qred_correct.
Qed.

Lemma readsBackAs_spec x k c :
  Qred x = x -> readsBackAs x k c = true ->
  toNumber (decimalValue (fst c) (snd c) k) = Fin x.
Proof.
  intros Hx. unfold readsBackAs.
  destruct (toNumber (decimalValue (fst c) (snd c) k)) as [| |y] eqn:E;
    try discriminate.
  intros H. apply Qeq_bool_iff in H.
  pose proof (toNumber_canonical _ _ E) as Hy.
  f_equal. rewrite <- Hy, <- Hx. apply Qred_complete. exact H.
Qed.

Lemma readsBackAs_intro x k c :
  toNumber (decimalValue (fst c) (snd c) k) = Fin x -> readsBackAs x k c = true.
Proof. intros H. unfold readsBackAs. rewrite H. apply Qeq_bool_refl. Qed.

(** A number of hundredths, [m / 100] as a binary64 with [1 <= m <= 2 *
    10^11]: the search finds, within 15 digits, a decimal that reads back as
    it. *)
Lemma shortestDecimal_hundredths (m : Z) (r : Q) :
  (1 <= m <= 200000000000)%Z ->
  toNumber (inject_Z m / 100) = Fin r ->
  0 < r /\
  exists s n k,
    shortestDecimal r = ((s, n), k) /\
    (1 <= k <= 15)%Z /\ (10 ^ (k - 1) <= s < 10 ^ k)%Z /\ (-2 <= n <= 11)%Z /\
    toNumber (decimalValue s n k) = Fin r.
Proof.
  intros Hm E.
  set (d := inject_Z m / 100) in *.
  assert (Hmq : 1 <= inject_Z m <= 200000000000).
  { change 1 with (inject_Z 1). change 200000000000 with (inject_Z 200000000000).
    rewrite <- !Zle_Qle. exact Hm. }
  assert (Hd : (1 # 100) <= d <= 2000000000).
  { unfold d, Qdiv. change (/ 100) with (1 # 100). split; lra. }
  pose proof (toNumber_Fin_inv _ _ E) as Er.
  pose proof (toNumber_canonical _ _ E) as Hcanon.
  assert (Hrel : Qabs (r - d) <= d * ulp53).
  { assert (Hnormal : two_pow (-1022) <= Qabs d).
    { rewrite Qabs_pos by lra.
      apply Qle_trans with (1 # 100); [vm_compute; discriminate|lra]. }
    pose proof (round_binary64_relative d Hnormal) as R.
    rewrite (Qabs_pos d) in R by lra. rewrite Er. exact R. }
  apply Qabs_Qle_condition in Hrel. unfold ulp53 in Hrel.
  assert (Hr : (99 # 10000) <= r <= 2100000000) by (split; lra).
  assert (Hpos : 0 < r) by lra.
  split; [exact Hpos|].
  destruct (decimalExponent_spec r Hpos) as [Ln Un].
  set (n := decimalExponent r) in *.
  assert (Hn : (-2 <= n <= 10)%Z).
  { split.
    - assert (A : 10 ^ (-3) < 10 ^ n).
      { change (10 ^ (-3)) with (1 # 1000). lra. }
      apply pow10_lt_inv in A. lia.
    - assert (A : 10 ^ (n - 1) < 10 ^ 10).
      { change (10 ^ 10) with 10000000000. lra. }
      apply pow10_lt_inv in A. lia. }
  set (P := 10 ^ (15 - n)).
  pose proof (pow10_pos (15 - n)) as HP. fold P in HP.
  set (S := (m * 10 ^ (13 - n))%Z).
  assert (HS : inject_Z S == d * P).
  { unfold S, d, P. rewrite inject_Z_mult, <- pow10_inject by lia.
    replace (15 - n)%Z with (2 + (13 - n))%Z by lia.
    rewrite pow10_plus. change (10 ^ 2) with 100. field. }
  assert (HrP : r * P < 1000000000000000).
  { change 1000000000000000 with (10 ^ 15). unfold P.
    replace 15%Z with (n + (15 - n))%Z at 2 by lia.
    rewrite pow10_plus. fold P. nra. }
  assert (Hnear : inject_Z S - (1 # 2) <= r * P <= inject_Z S + (1 # 2)).
  { rewrite HS.
    assert (A : - (d * P * (1 # 9007199254740992)) <= r * P - d * P
                <= d * P * (1 # 9007199254740992)) by (split; nra).
    set (u := r * P) in *. set (v := d * P) in *. split; lra. }
  assert (Hvalue : decimalValue S n 15 == d).
  { unfold decimalValue. rewrite HS. unfold P.
    rewrite <- Qmult_assoc, <- pow10_plus.
    replace (15 - n + (n - 15))%Z with 0%Z by lia. change (10 ^ 0) with 1. ring. }
  assert (HreadS : readsBackAs r 15 (S, n) = true).
  { apply readsBackAs_intro. cbn [fst snd].
    rewrite (toNumber_compat _ _ Hvalue). exact E. }
  assert (Hbest : bestOf r n 15 <> None).
  { apply bestOf_complete. unfold neighbours. cbn [fst snd]. fold P.
    pose proof (Qfloor_le (r * P)) as Flo. pose proof (Qlt_floor (r * P)) as Fhi.
    rewrite inject_Z_plus in Fhi. change (inject_Z 1) with 1 in Fhi.
    assert (Hcases : Qfloor (r * P) = S \/ Qfloor (r * P) = (S - 1)%Z).
    { assert (A : inject_Z (S - 2) < inject_Z (Qfloor (r * P))).
      { unfold Zminus. rewrite inject_Z_plus, inject_Z_opp.
        change (inject_Z 2) with 2. lra. }
      assert (B : inject_Z (Qfloor (r * P)) < inject_Z (S + 1)).
      { rewrite inject_Z_plus. change (inject_Z 1) with 1. lra. }
      rewrite <- Zlt_Qlt in A, B. lia. }
    destruct Hcases as [-> | ->].
    - left. exact HreadS.
    - right. replace (S - 1 + 1)%Z with S by lia.
      destruct (S =? 10 ^ 15)%Z eqn:E15; [|exact HreadS].
      apply Z.eqb_eq in E15. apply readsBackAs_intro. cbn [fst snd].
      rewrite <- E.
      apply toNumber_compat. rewrite <- Hvalue. unfold decimalValue.
      rewrite E15. rewrite <- !pow10_inject by lia. rewrite <- !pow10_plus.
      replace (15 - 1 + (n + 1 - 15))%Z with (15 + (n - 15))%Z by lia.
      reflexivity. }
  destruct (shortestFrom_sound 16 r n 1 15 ltac:(lia) Hbest)
    as (c & k & Es & Hk & Eb).
  destruct (bestOf_sound _ _ _ _ Eb) as [Hread Hc].
  pose proof (neighbours_shape r n k Ln Un ltac:(lia)) as Hshape.
  destruct (neighbours r n k) as [lo hi]. cbn [fst snd] in Hc.
  destruct Hshape as [[Hlo Hlon] [Hhi Hhin]].
  destruct c as [s n'].
  exists s, n', k. split; [exact Es|]. split; [lia|].
  pose proof (readsBackAs_spec r k (s, n') Hcanon Hread) as Hback.
  cbn [fst snd] in Hback.
  destruct Hc as [Hc|Hc]; rewrite <- Hc in *; cbn [fst snd] in *.
  - split; [exact Hlo|]. split; [lia|exact Hback].
  - split; [exact Hhi|]. split; [lia|exact Hback].
Qed.

End ShortestDecimal.

(* ----------------------------------------------------------------- *)
(** ** Numbers as strings: reading the digits back *)

Lemma spanDigits_app ds rest :
  forallb isDigit ds = true ->
  match rest with c :: _ => isDigit c = false | [] => True end ->
  spanDigits (ds ++ rest) = (ds, rest).
Proof.
  intros D R. induction ds as [|c ds IH].
  - cbn [app]. destruct rest as [|c rest]; [reflexivity|].
    cbn [spanDigits]. rewrite R. reflexivity.
  - cbn [forallb] in D. apply andb_prop in D. destruct D as [Dc Dr].
    cbn [app spanDigits]. rewrite Dc, (IH Dr). reflexivity.
Qed.

Lemma endsNumber_facts suffix :
  endsNumber suffix = true ->
  match suffix with
  | c :: _ => isDigit c = false /\ Ascii.eqb c "." = false /\
              Ascii.eqb c "e" = false /\ Ascii.eqb c "E" = false
  | [] => True
  end.
Proof.
  destruct suffix as [|c rest]; [trivial|]. cbn [endsNumber]. intros H.
  repeat (apply andb_prop in H; destruct H as [H ?]).
  repeat split; apply negb_true_iff; assumption.
Qed.

Lemma scanExponent_none suffix :
  endsNumber suffix = true -> scanExponent suffix = (0%Z, suffix).
Proof.
  intros H. apply endsNumber_facts in H.
  destruct suffix as [|c rest]; [reflexivity|].
  destruct H as (_ & _ & He & HE). cbn [scanExponent]. rewrite He, HE. reflexivity.
Qed.

Lemma digit_not_letter c d :
  isDigit c = true -> isDigit d = false -> Ascii.eqb d c = false.
Proof.
  intros Hc Hd. destruct (Ascii.eqb_spec d c) as [->|]; [congruence|reflexivity].
Qed.

Lemma digit_is_not c d :
  isDigit c = true -> isDigit d = false -> Ascii.eqb c d = false.
Proof.
  intros Hc Hd. destruct (Ascii.eqb_spec c d) as [->|]; [congruence|reflexivity].
Qed.

Lemma startsWith_Infinity_digit c rest :
  isDigit c = true -> startsWith (str "Infinity") (c :: rest) = false.
Proof.
  intros Hc. change (str "Infinity") with ("I"%char :: str "nfinity").
  cbn [startsWith]. rewrite (digit_not_letter c "I" Hc eq_refl). reflexivity.
Qed.

(** Digits, then something that ends the number: an integer literal. *)
Lemma scanUnsignedDecimal_integer ds suffix :
  ds <> [] -> forallb isDigit ds = true -> endsNumber suffix = true ->
  scanUnsignedDecimal (ds ++ suffix)
  = Some (LitDecimal (digitsValue ds) 0, suffix).
Proof.
  intros N D S.
  pose proof (endsNumber_facts _ S) as F.
  unfold scanUnsignedDecimal.
  destruct ds as [|c ds']; [contradiction|].
  assert (Dc : isDigit c = true) by (cbn [forallb] in D; apply andb_prop in D; tauto).
  change ((c :: ds') ++ suffix) with (c :: ds' ++ suffix) at 1.
  rewrite (startsWith_Infinity_digit c _ Dc).
  rewrite spanDigits_app; [|exact D|destruct suffix; tauto].
  rewrite (scanExponent_none _ S).
  destruct suffix as [|x rest]; [reflexivity|].
  destruct F as (_ & Hp & _). rewrite Hp. reflexivity.
Qed.

(** Digits, a point, digits, then something that ends the number. *)
Lemma scanUnsignedDecimal_fraction ip fp suffix :
  ip <> [] -> forallb isDigit ip = true -> forallb isDigit fp = true ->
  endsNumber suffix = true ->
  scanUnsignedDecimal (ip ++ "."%char :: fp ++ suffix)
  = Some (LitDecimal (digitsValue (ip ++ fp)) (0 - Z.of_nat (length fp)), suffix).
Proof.
  intros N Di Df S.
  pose proof (endsNumber_facts _ S) as F.
  unfold scanUnsignedDecimal.
  destruct ip as [|c ip']; [contradiction|].
  assert (Dc : isDigit c = true) by (cbn [forallb] in Di; apply andb_prop in Di; tauto).
  change ((c :: ip') ++ "."%char :: fp ++ suffix)
    with (c :: ip' ++ "."%char :: fp ++ suffix) at 1.
  rewrite (startsWith_Infinity_digit c _ Dc).
  rewrite spanDigits_app; [|exact Di|reflexivity].
  change (Ascii.eqb "." ".") with true. cbv iota.
  rewrite spanDigits_app; [|exact Df|destruct suffix; tauto].
  rewrite (scanExponent_none _ S).
  destruct fp; reflexivity.
Qed.

Lemma digit_not_space c : isDigit c = true -> isWhiteSpace c = false.
Proof.
  intros H. destruct (isWhiteSpace c) eqn:E; [|reflexivity].
  unfold isDigit, isWhiteSpace in *. 
  apply andb_prop in H. destruct H as [A B].
  apply Nat.leb_le in A, B.
  apply orb_prop in E. destruct E as [E|E].
  - apply orb_prop in E. destruct E as [E|E].
    + apply andb_prop in E. destruct E as [_ E]. apply Nat.leb_le in E. lia.
    + apply Nat.eqb_eq in E. lia.
  - apply Nat.eqb_eq in E. lia.
Qed.

(** [parseFloat] on a text that starts with a digit reads the unsigned
    literal at its start. *)
Lemma parseFloat_unsigned c rest l after :
  isDigit c = true ->
  scanUnsignedDecimal (c :: rest) = Some (l, after) ->
  parseFloat (c :: rest) = literalValue false l.
Proof.
  intros Dc E. unfold parseFloat.
  rewrite (trimStart_keeps c rest (digit_not_space c Dc)).
  unfold scanDecimal.
  rewrite (digit_is_not c "-" Dc eq_refl), (digit_is_not c "+" Dc eq_refl).
  rewrite E. reflexivity.
Qed.

Section ReadingBack.

Open Scope Q_scope.

(** A decimal written without exponent is read back as its value, whatever
    follows it that is not part of a number. *)
Lemma parseFloat_formatDecimal s n k suffix :
  (10 ^ (k - 1) <= s < 10 ^ k)%Z -> (1 <= k)%Z -> (-6 < n <= 21)%Z ->
  endsNumber suffix = true ->
  parseFloat (formatDecimal s n k ++ suffix) = toNumber (decimalValue s n k).
Proof.
  intros Hs Hk Hn Hsuf.
  assert (H1 : (1 <= s)%Z).
  { assert (0 < 10 ^ (k - 1))%Z by (apply Z.pow_pos_nonneg; lia). lia. }
  destruct (digitsOf_spec s ltac:(lia)) as (D & V & N & _).
  pose proof (digitsOf_length s k Hs Hk) as Hlen.
  unfold formatDecimal. set (ds := digitsOf s) in *.
  destruct ((k <=? n)%Z && (n <=? 21)%Z) eqn:EA.
  { (* an integer *)
    apply andb_prop in EA. destruct EA as [EA _]. apply Z.leb_le in EA.
    set (zeros := repeat "0"%char (Z.to_nat (n - k))).
    assert (Dz : forallb isDigit (ds ++ zeros) = true)
      by (rewrite forallb_app, D; apply forallb_isDigit_zeros).
    assert (Nz : ds ++ zeros <> []) by (destruct ds; [contradiction|discriminate]).
    pose proof (scanUnsignedDecimal_integer (ds ++ zeros) suffix Nz Dz Hsuf) as E.
    destruct (ds ++ zeros) as [|c rest] eqn:Eds; [contradiction|].
    assert (Dc : isDigit c = true) by (cbn [forallb] in Dz; apply andb_prop in Dz; tauto).
    cbn [app] in E |- *.
    rewrite (parseFloat_unsigned c (rest ++ suffix) _ _ Dc E).
    cbn [literalValue]. apply toNumber_compat.
    rewrite <- Eds, digitsValue_app. unfold zeros.
    rewrite digitsValue_zeros, repeat_length, V, Z2Nat.id by lia.
    unfold decimalValue. rewrite Z.add_0_r, inject_Z_mult.
    rewrite <- pow10_inject by lia. change (10 ^ 0) with 1. ring. }
  destruct ((0 <? n)%Z && (n <=? 21)%Z) eqn:EB.
  { (* a point inside the digits *)
    apply andb_prop in EB. destruct EB as [EB _]. apply Z.ltb_lt in EB.
    assert (Hnk : (n < k)%Z).
    { destruct (Z.leb_spec k n) as [Hle|]; [|lia].
      destruct (Z.leb_spec n 21); [discriminate EA|lia]. }
    set (ip := firstn (Z.to_nat n) ds). set (fp := skipn (Z.to_nat n) ds).
    assert (Eds : ip ++ fp = ds) by apply firstn_skipn.
    assert (Di : forallb isDigit ip = true /\ forallb isDigit fp = true).
    { rewrite <- Eds, forallb_app in D. apply andb_prop in D. exact D. }
    assert (Li : length ip = Z.to_nat n) by (unfold ip; rewrite length_firstn; lia).
    assert (Lf : length fp = Z.to_nat (k - n)) by (unfold fp; rewrite length_skipn; lia).
    assert (Ni : ip <> []) by (intros H0; rewrite H0 in Li; cbn in Li; lia).
    pose proof (scanUnsignedDecimal_fraction ip fp suffix Ni (proj1 Di) (proj2 Di) Hsuf) as E.
    rewrite <- app_assoc. cbn [app].
    destruct ip as [|c rest]; [contradiction|].
    assert (Dc : isDigit c = true)
      by (destruct Di as [Di _]; cbn [forallb] in Di; apply andb_prop in Di; tauto).
    cbn [app] in E |- *.
    rewrite (parseFloat_unsigned c _ _ _ Dc E).
    cbn [literalValue]. change (c :: rest ++ fp) with ((c :: rest) ++ fp).
    rewrite Eds, V, Lf. unfold decimalValue.
    replace (0 - Z.of_nat (Z.to_nat (k - n)))%Z with (n - k)%Z by lia.
    reflexivity. }
  destruct ((-6 <? n)%Z && (n <=? 0)%Z) eqn:EC.
  { (* zeros after the point *)
    apply andb_prop in EC. destruct EC as [_ EC]. apply Z.leb_le in EC.
    set (zeros := repeat "0"%char (Z.to_nat (- n))).
    assert (Df : forallb isDigit (zeros ++ ds) = true)
      by (rewrite forallb_app, D; unfold zeros; rewrite forallb_isDigit_zeros; reflexivity).
    pose proof (scanUnsignedDecimal_fraction ["0"%char] (zeros ++ ds) suffix
                  ltac:(discriminate) eq_refl Df Hsuf) as E.
    cbn [app] in E |- *.
    rewrite (parseFloat_unsigned "0" _ _ _ eq_refl E).
    cbn [literalValue].
    change ("0"%char :: zeros ++ ds) with (("0"%char :: zeros) ++ ds).
    rewrite digitsValue_app.
    change ("0"%char :: zeros) with (repeat "0"%char (S (Z.to_nat (- n)))).
    rewrite digitsValue_zeros, V. rewrite length_app. unfold zeros.
    rewrite repeat_length, Hlen. unfold decimalValue.
    replace (0 - Z.of_nat (Z.to_nat (- n) + Z.to_nat k))%Z with (n - k)%Z by lia.
    replace (0 * 10 ^ Z.of_nat (Z.to_nat k) + s)%Z with s by lia.
    reflexivity. }
  exfalso.
  destruct (Z.leb_spec k n), (Z.leb_spec n 21), (Z.ltb_spec 0 n),
    (Z.ltb_spec (-6) n), (Z.leb_spec n 0); cbn in EA, EB, EC; try discriminate; lia.
Qed.

End ReadingBack.

(* ----------------------------------------------------------------- *)
(** ** Pixel sizes as text *)

Section PixelText.

Open Scope Q_scope.

Lemma Qabs_positive r : 0 < r -> Qabs r = r.
Proof.
  destruct r as [a b]. unfold Qlt. cbn [Qnum Qden Qabs]. intros H.
  f_equal. lia.
Qed.

Lemma formatDecimal_shape s n k :
  (10 ^ (k - 1) <= s < 10 ^ k)%Z -> (1 <= k)%Z -> (-6 < n <= 21)%Z ->
  exists c rest,
    formatDecimal s n k = c :: rest /\ isDigit c = true /\
    forallb isDecimalChar (c :: rest) = true.
Proof.
  intros Hs Hk Hn.
  assert (H1 : (1 <= s)%Z).
  { assert (0 < 10 ^ (k - 1))%Z by (apply Z.pow_pos_nonneg; lia). lia. }
  destruct (digitsOf_spec s ltac:(lia)) as (D & _ & N & _).
  pose proof (digitsOf_length s k Hs Hk) as Hlen.
  assert (Hdec : forall l, forallb isDigit l = true -> forallb isDecimalChar l = true).
  { intros l Hl. rewrite forallb_forall in *. intros c Hc.
    unfold isDecimalChar. rewrite (Hl c Hc). reflexivity. }
  unfold formatDecimal. set (ds := digitsOf s) in *.
  destruct ((k <=? n)%Z && (n <=? 21)%Z) eqn:EA.
  { destruct ds as [|c rest] eqn:Eds; [contradiction|].
    exists c, (rest ++ repeat "0"%char (Z.to_nat (n - k))).
    split; [reflexivity|]. split.
    - cbn [forallb] in D. apply andb_prop in D. tauto.
    - change (c :: rest ++ repeat "0"%char (Z.to_nat (n - k)))
        with ((c :: rest) ++ repeat "0"%char (Z.to_nat (n - k))).
      rewrite forallb_app, (Hdec _ D), (Hdec _ (forallb_isDigit_zeros _)).
      reflexivity. }
  destruct ((0 <? n)%Z && (n <=? 21)%Z) eqn:EB.
  { apply andb_prop in EB. destruct EB as [EB _]. apply Z.ltb_lt in EB.
    assert (Eds : firstn (Z.to_nat n) ds ++ skipn (Z.to_nat n) ds = ds)
      by apply firstn_skipn.
    rewrite <- Eds, forallb_app in D. apply andb_prop in D. destruct D as [Di Df].
    destruct ds as [|c rest]; [contradiction|].
    destruct (Z.to_nat n) as [|j] eqn:Ej; [lia|].
    cbn [firstn app]. cbn [firstn forallb] in Di.
    apply andb_prop in Di. destruct Di as [Dc Di].
    exists c, (firstn j rest ++ "."%char :: skipn (S j) (c :: rest)).
    split; [reflexivity|]. split; [exact Dc|].
    cbn [forallb]. unfold isDecimalChar at 1. rewrite Dc. cbn [orb andb].
    rewrite forallb_app, (Hdec _ Di). cbn [forallb andb].
    rewrite (Hdec _ Df). reflexivity. }
  destruct ((-6 <? n)%Z && (n <=? 0)%Z) eqn:EC.
  { exists "0"%char, ("."%char :: repeat "0"%char (Z.to_nat (- n)) ++ ds).
    split; [reflexivity|]. split; [reflexivity|].
    cbn [forallb]. rewrite forallb_app, (Hdec _ D), (Hdec _ (forallb_isDigit_zeros _)).
    reflexivity. }
  exfalso.
  destruct (Z.leb_spec k n), (Z.leb_spec n 21), (Z.ltb_spec 0 n),
    (Z.ltb_spec (-6) n), (Z.leb_spec n 0); cbn in EA, EB, EC; try discriminate; lia.
Qed.

(** The text of a positive number of hundredths is a decimal that reads
    back as the number. *)
Lemma numberToString_hundredths (m : Z) (r : Q) :
  (1 <= m <= 200000000000)%Z ->
  toNumber (inject_Z m / 100) = Fin r ->
  exists s n k,
    numberToString (Fin r) = formatDecimal s n k /\
    (1 <= k <= 15)%Z /\ (10 ^ (k - 1) <= s < 10 ^ k)%Z /\ (-2 <= n <= 11)%Z /\
    toNumber (decimalValue s n k) = Fin r.
Proof.
  intros Hm E.
  destruct (shortestDecimal_hundredths m r Hm E) as (Hpos & s & n & k & Es & H).
  exists s, n, k. split; [|exact H].
  unfold numberToString.
  assert (Hz : Qeq_bool r 0 = false).
  { destruct (Qeq_bool r 0) eqn:Ez; [|reflexivity].
    apply Qeq_bool_iff in Ez. lra. }
  assert (Hneg : Qnegative r = false).
  { unfold Qnegative. apply negb_false_iff, Qle_bool_iff. lra. }
  rewrite Hz, (Qabs_positive r Hpos), Es, Hneg. reflexivity.
Qed.

(** An integer in lowest terms is its integer part. *)
Lemma Math_trunc_integer q :
  Qred q = q -> Number_isInteger (Fin q) = true -> Math_trunc (Fin q) = Fin q.
Proof.
  intros Hq Hi. cbn [Number_isInteger] in Hi. apply Qeq_bool_iff in Hi.
  cbn [Math_trunc]. f_equal.
  assert (Hc : Qceiling q = Qfloor q).
  { rewrite <- (Qceiling_comp _ _ Hi). apply Qceiling_Z. }
  rewrite Hc.
  assert (E : inject_Z (Qfloor q) = q).
  { transitivity (Qred q); [|exact Hq].
    rewrite <- (Qred_integer (Qfloor q)). apply Qred_complete. exact Hi. }
  destruct (Qle_bool 0 q); exact E.
Qed.

Lemma px_suffix_trimmed c rest :
  isWhiteSpace c = false -> trim (c :: rest ++ str "px") = c :: rest ++ str "px".
Proof.
  intros Hc. apply trim_fixed.
  - apply trimStart_keeps. exact Hc.
  - change (c :: rest ++ str "px") with ((c :: rest) ++ str "px").
    rewrite rev_app_distr. reflexivity.
Qed.

Lemma px_suffix_not_points a :
  endsWith (str "pt") (toLowerCase (a ++ str "px")) = false.
Proof.
  unfold endsWith, toLowerCase. rewrite map_app, rev_app_distr. reflexivity.
Qed.

Lemma decimalChars_clean a c :
  forallb isDecimalChar a = true -> isDecimalChar c = false -> ~ In c a.
Proof.
  intros Ha Hc Hin. rewrite forallb_forall in Ha. specialize (Ha c Hin). congruence.
Qed.

(** The text [formatPx] gives for a size between 0 and [2 * 10^9 - 1],
    followed by [px]: a clean declaration value that [parseCssFontSize] reads
    back as the rounded size. *)
Lemma formatPx_text x :
  0 <= x <= 1999999999 ->
  exists r,
    toFixedNumber (Fin x) = Some (Fin r) /\
    parseCssFontSize (formatPx (Fin x) ++ str "px") = Some (Fin r) /\
    cleanText (formatPx (Fin x) ++ str "px") = true /\
    exists c rest, formatPx (Fin x) = c :: rest /\ isDigit c = true /\
                   forallb isDecimalChar (c :: rest) = true.
Proof.
  intros Hx.
  destruct (toFixedNumber_hundredths x) as (m & r & E & Em & Hm & Hr).
  { apply Qabs_Qle_condition. split; lra. }
  exists r. split; [exact E|].
  assert (Hm0 : (0 <= m)%Z).
  { assert (A : inject_Z (-1) < inject_Z m) by (change (inject_Z (-1)) with (-1); lra).
    rewrite <- Zlt_Qlt in A. lia. }
  assert (Hm1 : (m <= 200000000000)%Z).
  { assert (A : inject_Z m < inject_Z 200000000000)
      by (change (inject_Z 200000000000) with 200000000000; lra).
    rewrite <- Zlt_Qlt in A. lia. }
  pose proof (toNumber_canonical _ _ Em) as Hcanon.
  assert (Hfmt : formatPx (Fin x) = numberToString (Fin r)).
  { unfold formatPx. cbn [Number_isFinite negb]. rewrite E.
    destruct (Number_isInteger (Fin r)) eqn:Ei; [|reflexivity].
    rewrite (Math_trunc_integer r Hcanon Ei). reflexivity. }
  rewrite Hfmt.
  destruct (Z.eq_dec m 0) as [Hz|Hnz].
  - subst m.
    assert (Er : Fin r = Fin 0) by (rewrite <- Em; vm_compute; reflexivity).
    rewrite Er. split; [vm_compute; reflexivity|]. split; [vm_compute; reflexivity|].
    exists "0"%char, []. repeat split; reflexivity.
  - destruct (numberToString_hundredths m r ltac:(lia) Em)
      as (s & n & k & Et & Hk & Hs & Hn & Hback).
    rewrite Et.
    destruct (formatDecimal_shape s n k Hs ltac:(lia) ltac:(lia))
      as (c & rest & Ef & Dc & Dall).
    pose proof (parseFloat_formatDecimal s n k (str "px") Hs ltac:(lia) ltac:(lia) eq_refl)
      as Hparse.
    rewrite Hback in Hparse. rewrite Ef in Hparse |- *.
    assert (Htrim : trim ((c :: rest) ++ str "px") = (c :: rest) ++ str "px")
      by (apply px_suffix_trimmed, digit_not_space; exact Dc).
    split; [|split].
    + unfold parseCssFontSize. cbn [app truthy negb]. cbn [app] in Htrim, Hparse.
      rewrite Htrim, Hparse. cbn [Number_isNaN].
      change (c :: rest ++ str "px") with ((c :: rest) ++ str "px").
      rewrite px_suffix_not_points. reflexivity.
    + apply cleanText_intro; [reflexivity|exact Htrim| |].
      * intros Hin. apply in_app_or in Hin. destruct Hin as [Hin|Hin].
        -- exact (decimalChars_clean _ ";" Dall eq_refl Hin).
        -- cbn in Hin. intuition discriminate.
      * intros Hin. apply in_app_or in Hin. destruct Hin as [Hin|Hin].
        -- exact (decimalChars_clean _ ":" Dall eq_refl Hin).
        -- cbn in Hin. intuition discriminate.
    + exists c, rest. repeat split; assumption.
Qed.

(** X4.  For a size between 0 and [10^9] pixels, the text [formatPx] writes,
    followed by [px], is read by [parseCssFontSize] as the size rounded to
    two decimals: writing a font size and reading it loses nothing beyond
    that rounding. *)
Theorem formatPx_read_back (x : Q) :
  0 <= x <= 1000000000 ->
  parseCssFontSize (formatPx (Fin x) ++ str "px") = toFixedNumber (Fin x).
Proof.
  intros Hx. destruct (formatPx_text x) as (r & E & P & _); [split; lra|].
  rewrite E, P. reflexivity.
Qed.

Lemma formatPx_read_back_witness :
  parseCssFontSize (formatPx (Fin (44 # 3)) ++ str "px") = toFixedNumber (Fin (44 # 3)).
Proof.
  apply (formatPx_read_back (44 # 3)). split; vm_compute; discriminate.
Defined.

(** [formatPx] on sample sizes, and on values that are no size. *)
Lemma formatPx_examples :
  formatPx (Fin 12) = str "12" /\
  formatPx (Fin (44 # 3)) = str "14.67" /\
  formatPx (Fin (1 # 1000)) = str "0" /\
  formatPx (Fin (- (5 # 2))) = str "-2.5" /\
  formatPx NaN = [] /\
  formatPx (Inf false) = [] /\
  formatPx (Fin (two_pow 1023)) = str "Infinity".
Proof. repeat split; vm_compute; reflexivity. Qed.

End PixelText.

(* ----------------------------------------------------------------- *)
(** ** Font resolution: the list and its first family *)

Lemma normalizeFontName_trimmed name :
  trim (normalizeFontName name) = normalizeFontName name.
Proof. unfold normalizeFontName. apply trim_idempotent. Qed.

Lemma primaryFont_facts name :
  trim (primaryFont name) = primaryFont name /\ primaryFont name <> [].
Proof.
  unfold primaryFont.
  destruct (truthy (normalizeFontName name)) eqn:E.
  - split; [apply normalizeFontName_trimmed|].
    intros H. rewrite H in E. discriminate.
  - split; [reflexivity|discriminate].
Qed.

Lemma dedupe_head t l : dedupe [] (t :: l) = t :: dedupe [toLowerCase t] l.
Proof. reflexivity. Qed.

Lemma join_cons sep t rest :
  join sep (t :: rest) = t ++ match rest with
                               | [] => []
                               | _ :: _ => sep ++ join sep rest
                               end.
Proof. destruct rest; cbn [join]; [rewrite app_nil_r|]; reflexivity. Qed.

Lemma first_of_list t rest :
  ~ In ","%char t -> hd [] (split "," (join (str ", ") (t :: rest))) = t.
Proof.
  intros Hno. rewrite join_cons. destruct rest as [|r rest].
  - rewrite app_nil_r, split_no_sep by exact Hno. reflexivity.
  - change (str ", " ++ join (str ", ") (r :: rest))
      with (","%char :: " "%char :: join (str ", ") (r :: rest)).
    rewrite split_app_sep by exact Hno. reflexivity.
Qed.

Lemma stripTrailingQuote_keeps s d rest :
  rev s = d :: rest -> isQuote d = false -> stripTrailingQuote s = s.
Proof. intros E H. unfold stripTrailingQuote. rewrite E, H. reflexivity. Qed.

Lemma normalizeFontName_quoted s :
  trim s = s -> normalizeFontName (quoted s) = s.
Proof.
  intros Ht. unfold normalizeFontName, quoted.
  cbn [stripLeadingQuote]. change (isQuote dquote) with true. cbv iota.
  unfold stripTrailingQuote. rewrite rev_app_distr. cbn [rev app].
  change (isQuote dquote) with true. cbv iota.
  rewrite rev_involutive. exact Ht.
Qed.

Lemma normalizeFontName_plain s :
  trim s = s -> quotedAtEnds s = false -> normalizeFontName s = s.
Proof.
  intros Ht Hq. unfold normalizeFontName.
  destruct s as [|c t]; [reflexivity|].
  unfold quotedAtEnds in Hq.
  destruct (rev (c :: t)) as [|d rest] eqn:Er.
  { apply (f_equal (@length ascii)) in Er. rewrite length_rev in Er. discriminate. }
  apply orb_false_iff in Hq. destruct Hq as [Hc Hd].
  cbn [stripLeadingQuote]. rewrite Hc.
  rewrite (stripTrailingQuote_keeps _ d rest Er Hd). exact Ht.
Qed.

Lemma primaryToken_normalized primary :
  trim primary = primary -> quotedAtEnds primary = false ->
  normalizeFontName (primaryToken primary) = primary.
Proof.
  intros Ht Hq. unfold primaryToken. destruct (hasWhiteSpace primary).
  - apply normalizeFontName_quoted. exact Ht.
  - apply normalizeFontName_plain; assumption.
Qed.

Lemma primaryToken_no_comma primary :
  ~ In ","%char primary -> ~ In ","%char (primaryToken primary).
Proof.
  intros H. unfold primaryToken, quoted. destruct (hasWhiteSpace primary); [|exact H].
  intros [E|Hin]; [discriminate E|].
  apply in_app_or in Hin. destruct Hin as [Hin|[E|[]]]; [exact (H Hin)|discriminate E].
Qed.

(** X5.  When the requested font has no comma and no quote at its ends
    once normalized, the first family of the list [buildFontFamily] writes
    names it: what [cssToExcelStyle] reads from the list is the font that was
    asked for. *)
Theorem first_family_is_requested_font (name family : jsstring) :
  buildFontFamily name = Ok family ->
  existsb (Ascii.eqb ",") (primaryFont name) = false ->
  quotedAtEnds (primaryFont name) = false ->
  normalizeFontName (hd [] (split "," family)) = primaryFont name.
Proof.
  intros Hb Hcomma Hq.
  unfold buildFontFamily, fontFamilyParts in Hb.
  destruct (fallbacksFor (primaryFont name)) as [chain|]; [|discriminate].
  assert (Hf : family = join (str ", ")
                          (dedupe [] (primaryToken (primaryFont name) :: chain)))
    by congruence.
  rewrite Hf. clear Hf Hb.
  destruct (primaryFont_facts name) as [Ht _].
  apply existsb_eqb_false in Hcomma.
  rewrite dedupe_head, first_of_list by (apply primaryToken_no_comma; exact Hcomma).
  apply primaryToken_normalized; assumption.
Qed.

Lemma first_family_is_requested_font_witness :
  normalizeFontName
    (hd [] (split "," (quoted (str "Times New Roman") ++ str ", "
                         ++ quoted (str "Inter") ++ str ", "
                         ++ quoted (str "Noto Sans") ++ str ", "
                         ++ quoted (str "Helvetica Neue") ++ str ", Arial, sans-serif")))
  = primaryFont (str "'Times New Roman'").
Proof.
  apply (first_family_is_requested_font (str "'Times New Roman'"));
    vm_compute; reflexivity.
Defined.

(** The filter keeps one part for every key, and only parts whose key has
    not been seen. *)
Lemma dedupe_keys parts : forall seen key,
  In key (map toLowerCase (dedupe seen parts)) <->
  In key (map toLowerCase parts) /\ ~ In key seen.
Proof.
  induction parts as [|part rest IH]; intros seen key.
  - cbn. tauto.
  - cbn [dedupe map]. destruct (existsb (jsstring_eqb (toLowerCase part)) seen) eqn:E.
    + apply seen_spec in E. rewrite IH. cbn [In]. split.
      * intros [A B]. tauto.
      * intros [[A|A] B]; [subst key; contradiction|tauto].
    + assert (Hn : ~ In (toLowerCase part) seen).
      { intros H. apply seen_spec in H. congruence. }
      cbn [map In]. rewrite IH. cbn [In]. split.
      * intros [A|[A B]]; [subst key; tauto|tauto].
      * intros [[A|A] B]; [tauto|].
        destruct (list_eq_dec ascii_dec (toLowerCase part) key) as [Eq|Ne]; [tauto|].
        right. tauto.
Qed.

Lemma dedupe_incl parts : forall seen part,
  In part (dedupe seen parts) -> In part parts.
Proof.
  induction parts as [|p rest IH]; intros seen part; [tauto|].
  cbn [dedupe]. destruct (existsb _ seen).
  - intros H. right. exact (IH _ _ H).
  - intros [H|H]; [left; exact H|right; exact (IH _ _ H)].
Qed.

Lemma fallbacksFor_generic primary chain :
  fallbacksFor primary = Ok chain -> In (str "sans-serif") (map toLowerCase chain).
Proof.
  unfold fallbacksFor, FONT_FALLBACKS. cbn [assoc].
  destruct (jsstring_eqb primary (str "Calibri")).
  { intros H. injection H as <-. vm_compute. tauto. }
  destruct (jsstring_eqb primary (str "Segoe UI")).
  { intros H. injection H as <-. vm_compute. tauto. }
  destruct (existsb _ _); [discriminate|].
  intros H. injection H as <-. vm_compute. tauto.
Qed.

(** X6.  The list [buildFontFamily] joins has, up to letter case, exactly
    the entries of the requested font followed by its fallback chain: the
    filter drops repetitions and nothing else, every part comes from the
    font or the chain, and the generic family [sans-serif] is always
    there. *)
Theorem font_family_keeps_the_chain (name : jsstring) (parts : list jsstring) :
  fontFamilyParts name = Ok parts ->
  exists chain,
    fallbacksFor (primaryFont name) = Ok chain /\
    (forall key, In key (map toLowerCase parts) <->
                 In key (map toLowerCase (primaryToken (primaryFont name) :: chain))) /\
    (forall part, In part parts ->
                  part = primaryToken (primaryFont name) \/ In part chain) /\
    In (str "sans-serif") (map toLowerCase parts).
Proof.
  unfold fontFamilyParts. intros H.
  destruct (fallbacksFor (primaryFont name)) as [chain|] eqn:Ef; [|discriminate].
  assert (Hp : parts = dedupe [] (primaryToken (primaryFont name) :: chain))
    by congruence.
  rewrite Hp. clear Hp H. exists chain. split; [reflexivity|].
  assert (Hkeys : forall key,
             In key (map toLowerCase (dedupe [] (primaryToken (primaryFont name) :: chain))) <->
             In key (map toLowerCase (primaryToken (primaryFont name) :: chain))).
  { intros key. rewrite dedupe_keys. cbn [In]. tauto. }
  split; [exact Hkeys|]. split.
  - intros part Hin. apply dedupe_incl in Hin. destruct Hin as [<-|Hin]; tauto.
  - apply Hkeys. cbn [map In]. right. exact (fallbacksFor_generic _ _ Ef).
Qed.

Lemma font_family_keeps_the_chain_witness :
  exists chain,
    fallbacksFor (primaryFont (str "Verdana")) = Ok chain /\
    (forall key,
        In key (map toLowerCase
                  [str "Verdana"; quoted (str "Inter"); quoted (str "Noto Sans");
                   quoted (str "Helvetica Neue"); str "Arial"; str "sans-serif"]) <->
        In key (map toLowerCase (primaryToken (primaryFont (str "Verdana")) :: chain))) /\
    (forall part,
        In part [str "Verdana"; quoted (str "Inter"); quoted (str "Noto Sans");
                 quoted (str "Helvetica Neue"); str "Arial"; str "sans-serif"] ->
        part = primaryToken (primaryFont (str "Verdana")) \/ In part chain) /\
    In (str "sans-serif")
       (map toLowerCase
          [str "Verdana"; quoted (str "Inter"); quoted (str "Noto Sans");
           quoted (str "Helvetica Neue"); str "Arial"; str "sans-serif"]).
Proof.
  apply (font_family_keeps_the_chain (str "Verdana")). vm_compute. reflexivity.
Defined.

(* ----------------------------------------------------------------- *)
(** ** Style strings: merging twice, merging again *)

Lemma parse_merge s m :
  forallb cleanEntry m = true ->
  parseStyleString (mergeStyleStrings s m) = mergedStyle s m.
Proof.
  intros Hc. unfold mergeStyleStrings. apply parse_serialize_exact.
  - apply wellFormedMap_iff. apply mergedStyle_wellFormed. exact Hc.
  - apply mergedStyle_order.
Qed.

(** X7.  Merging clean updates and then further updates gives the string
    that merging all of them at once gives. *)
Theorem mergeStyleStrings_composes (s : jsstring) (m1 m2 : jsobject) :
  forallb cleanEntry m1 = true ->
  mergeStyleStrings (mergeStyleStrings s m1) m2 = mergeStyleStrings s (m1 ++ m2).
Proof.
  intros H1. unfold mergeStyleStrings at 1. unfold mergedStyle at 1.
  rewrite (parse_merge s m1 H1).
  unfold mergeStyleStrings, mergedStyle. rewrite fold_left_app. reflexivity.
Qed.

Lemma mergeStyleStrings_composes_witness :
  mergeStyleStrings (mergeStyleStrings (str "color: red") [(str "font-weight", str "bold")])
                    [(str "color", str "blue")]
  = mergeStyleStrings (str "color: red")
                      ([(str "font-weight", str "bold")] ++ [(str "color", str "blue")]).
Proof.
  apply (mergeStyleStrings_composes (str "color: red")). vm_compute. reflexivity.
Defined.

Lemma obj_replace_same k v o : assoc k o = Some v -> obj_replace k v o = o.
Proof.
  induction o as [|[k' v'] rest IH]; [reflexivity|].
  cbn [assoc obj_replace]. destruct (jsstring_eqb k k').
  - intros H. injection H as ->. reflexivity.
  - intros H. rewrite (IH H). reflexivity.
Qed.

(** Writing the value a property already has changes nothing. *)
Lemma obj_set_same k v o : obj_get k o = Some v -> obj_set k v o = o.
Proof.
  intros H. unfold obj_set. destruct (jsstring_eqb k (str "__proto__")); [reflexivity|].
  rewrite H. apply obj_replace_same. exact H.
Qed.

Lemma writes_same l : forall o,
  (forall kv, In kv l -> obj_get (fst kv) o = Some (snd kv)) ->
  fold_left (fun acc kv => obj_set (fst kv) (snd kv) acc) l o = o.
Proof.
  induction l as [|kv l IH]; intros o H; [reflexivity|].
  cbn [fold_left]. rewrite obj_set_same by (apply H; left; reflexivity).
  apply IH. intros kv' Hin. apply H. right. exact Hin.
Qed.

Lemma assoc_In_NoDup k v (o : jsobject) :
  NoDup (map fst o) -> In (k, v) o -> assoc k o = Some v.
Proof.
  induction o as [|[k' v'] rest IH]; intros Hnd Hin; [contradiction|].
  cbn [map fst] in Hnd. inversion Hnd as [|? ? Hnotin Hnd']; subst.
  cbn [assoc]. destruct Hin as [E|Hin].
  - injection E as -> ->. rewrite jsstring_eqb_refl. reflexivity.
  - destruct (jsstring_eqb k k') eqn:Ek.
    + apply jsstring_eqb_eq in Ek. subst k'. exfalso. apply Hnotin.
      apply in_map_iff. exists (k, v). split; [reflexivity|exact Hin].
    + apply IH; assumption.
Qed.

(** After the writes of a well-formed object every one of its entries is
    there. *)
Lemma writes_present u k v o :
  wellFormedObject u -> In (k, v) u ->
  obj_get k (fold_left (fun acc kv => obj_set (fst kv) (snd kv) acc) u o) = Some v.
Proof.
  intros [Hnd Hclean] Hin.
  assert (Hp : jsstring_eqb k (str "__proto__") = false).
  { rewrite Forall_forall in Hclean. specialize (Hclean _ Hin).
    apply cleanEntry_facts in Hclean. tauto. }
  rewrite (obj_get_writes k u o Hp).
  pose proof (last_write_distinct k u Hnd) as L.
  pose proof (assoc_In_NoDup k v u Hnd Hin) as A. fold (obj_get k u) in A.
  rewrite A in L.
  destruct (rev (filter (fun kv => jsstring_eqb (fst kv) k) u)) as [|kv rest].
  - discriminate L.
  - exact L.
Qed.

Lemma merge_again a u :
  wellFormedObject u ->
  mergeStyleStrings (mergeStyleStrings a u) u = mergeStyleStrings a u.
Proof.
  intros Hu.
  assert (Hc : forallb cleanEntry u = true).
  { apply wellFormedMap_iff in Hu. unfold wellFormedMap in Hu.
    apply andb_prop in Hu. tauto. }
  unfold mergeStyleStrings at 1. unfold mergedStyle at 1.
  rewrite (parse_merge a u Hc). unfold mergeStyleStrings. f_equal.
  apply writes_same. intros [k v] Hin. cbn [fst snd].
  unfold mergedStyle. apply writes_present; assumption.
Qed.

(** X8.  [applyStyleToCellDom] is idempotent: applying the same style
    string to a cell element a second time leaves its [style] attribute as
    the first application set it, whatever the attribute and the style
    string were. *)
Theorem applyStyleToCellDom_idempotent (cellEl : option (option jsstring))
        (styleString : jsstring) :
  applyStyleToCellDom (applyStyleToCellDom cellEl styleString) styleString
  = applyStyleToCellDom cellEl styleString.
Proof.
  unfold applyStyleToCellDom.
  destruct (negb (truthy styleString)) eqn:E; [reflexivity|].
  destruct cellEl as [attribute|]; [|reflexivity].
  cbn [textOrEmpty]. f_equal. f_equal.
  apply merge_again. apply parseStyleString_wellFormed.
Qed.

(** X9.  What a merged string declares: for every property, the value of
    its last update when the clean updates hold one, and what the existing
    string declared otherwise. *)
Theorem merged_style_lookup (s : jsstring) (updates : jsobject) (k : jsstring) :
  forallb cleanEntry updates = true ->
  obj_get k (parseStyleString (mergeStyleStrings s updates)) =
  match lastUpdate k updates with
  | Some v => Some v
  | None => obj_get k (parseStyleString s)
  end.
Proof.
  intros Hc. rewrite (parse_merge s updates Hc). unfold mergedStyle, lastUpdate.
  destruct (jsstring_eqb k (str "__proto__")) eqn:Ep.
  - apply jsstring_eqb_eq in Ep. subst k.
    assert (Hf : filter (fun kv => jsstring_eqb (fst kv) (str "__proto__")) updates = []).
    { apply filter_key_absent. intros Hin. apply in_map_iff in Hin.
      destruct Hin as (kv & Ek & Hin).
      rewrite forallb_forall in Hc. specialize (Hc kv Hin).
      apply cleanEntry_facts in Hc. destruct Hc as (_ & _ & Hc).
      rewrite Ek, jsstring_eqb_refl in Hc. discriminate. }
    rewrite Hf. cbn [rev].
    assert (Habs : forall o : jsobject,
               ~ In (str "__proto__") (map fst o) -> obj_get (str "__proto__") o = None).
    { intros o Ho. apply assoc_None_iff. exact Ho. }
    assert (Hs : ~ In (str "__proto__") (map fst (parseStyleString s))).
    { unfold parseStyleString. rewrite fold_parse. apply writes_proto_absent.
      intros []. }
    rewrite (Habs _ Hs). apply Habs. apply writes_proto_absent. exact Hs.
  - rewrite (obj_get_writes k updates _ Ep).
    destruct (rev (filter (fun kv => jsstring_eqb (fst kv) k) updates)); reflexivity.
Qed.

Lemma merged_style_lookup_witness :
  obj_get (str "color")
          (parseStyleString
             (mergeStyleStrings (str "color: red; font-weight: bold")
                                [(str "color", str "blue")]))
  = match lastUpdate (str "color") [(str "color", str "blue")] with
    | Some v => Some v
    | None => obj_get (str "color") (parseStyleString (str "color: red; font-weight: bold"))
    end.
Proof.
  apply (merged_style_lookup (str "color: red; font-weight: bold")).
  vm_compute. reflexivity.
Defined.

(* ----------------------------------------------------------------- *)
(** ** Style string to document style: the fields *)

Lemma lastUpdate_snoc k l d :
  lastUpdate k (l ++ [d]) =
  if jsstring_eqb (fst d) k then Some (snd d) else lastUpdate k l.
Proof.
  unfold lastUpdate. rewrite filter_app, rev_app_distr. cbn [filter].
  destruct (jsstring_eqb (fst d) k); reflexivity.
Qed.

(** A property of the parsed object is the last declaration of it. *)
Lemma truthyProp_parsed s k :
  jsstring_eqb k (str "__proto__") = false ->
  truthyProp k (parseStyleString s) = lastUpdate k (declarations s).
Proof.
  intros Hp. unfold truthyProp, parseStyleString. rewrite fold_parse.
  rewrite (obj_get_writes k _ [] Hp). unfold lastUpdate, declarations.
  set (found := filter (fun kv => jsstring_eqb (fst kv) k)
                       (declarationsOf (styleSegments s))).
  assert (Hin : forall kv, In kv (rev found) -> truthy (snd kv) = true).
  { intros [p v] H. apply in_rev in H. unfold found in H.
    apply filter_In in H. destruct H as [H _].
    destruct (declarations_clean s p v H) as [_ Hv].
    destruct (cleanText_facts v Hv) as (Hn & _).
    destruct v; [contradiction|reflexivity]. }
  destruct (rev found) as [|kv rest]; [reflexivity|].
  rewrite (Hin kv (or_introl eq_refl)). reflexivity.
Qed.

(** [cssToExcelStyle] on a non-empty string, field by field. *)
Lemma cssToExcelStyle_fields s :
  truthy s = true ->
  cssToExcelStyle s =
  let parsed := parseStyleString s in
  excelStyleWith
    (option_map (fun c => {| argb := excelArgb c |}) (truthyProp (str "color") parsed))
    (option_map (fun fam => normalizeFontName (hd [] (split "," fam)))
                (truthyProp (str "font-family") parsed))
    (excelFontSize parsed)
    (option_map isBoldValue (truthyProp (str "font-weight") parsed))
    (option_map isItalicValue (truthyProp (str "font-style") parsed))
    (option_map (fun bg => solidFill {| argb := excelArgb bg |})
                (truthyProp (str "background-color") parsed)).
Proof. intros Hs. unfold cssToExcelStyle. rewrite Hs. reflexivity. Qed.

Lemma excelStyleWith_bold color name size bold italic fill :
  excelFontField efont_bold (excelStyleWith color name size bold italic fill) = bold.
Proof.
  unfold excelFontField, excelStyleWith. cbn [efont].
  destruct color, name, size, bold, italic; reflexivity.
Qed.

Lemma excelStyleWith_italic color name size bold italic fill :
  excelFontField efont_italic (excelStyleWith color name size bold italic fill) = italic.
Proof.
  unfold excelFontField, excelStyleWith. cbn [efont].
  destruct color, name, size, bold, italic; reflexivity.
Qed.

Lemma declarations_empty : declarations [] = [].
Proof. reflexivity. Qed.

Lemma excelFlags_spec s :
  excelFlags s =
  (option_map isBoldValue (lastUpdate (str "font-weight") (declarations s)),
   option_map isItalicValue (lastUpdate (str "font-style") (declarations s))).
Proof.
  unfold excelFlags. destruct (truthy s) eqn:Hs.
  - rewrite (cssToExcelStyle_fields s Hs). cbv zeta.
    rewrite excelStyleWith_bold, excelStyleWith_italic.
    rewrite !truthyProp_parsed by reflexivity. reflexivity.
  - destruct s; [|discriminate]. reflexivity.
Qed.


Lemma applyDeclaration_flags style prop value :
  xlsxFontField font_bold (Some (applyDeclaration style prop value)) =
    (if jsstring_eqb prop (str "font-weight") then Some (isBoldValue value)
     else xlsxFontField font_bold (Some style)) /\
  xlsxFontField font_italic (Some (applyDeclaration style prop value)) =
    (if jsstring_eqb prop (str "font-style") then Some (isItalicValue value)
     else xlsxFontField font_italic (Some style)).
Proof.
  assert (Hb : font_bold (fontOrEmpty style) = xlsxFontField font_bold (Some style)).
  { unfold fontOrEmpty, xlsxFontField. destruct (font style); reflexivity. }
  assert (Hi : font_italic (fontOrEmpty style) = xlsxFontField font_italic (Some style)).
  { unfold fontOrEmpty, xlsxFontField. destruct (font style); reflexivity. }
  unfold applyDeclaration.
  destruct (jsstring_eqb prop (str "color")) eqn:E1.
  { apply jsstring_eqb_eq in E1. subst prop.
    split; cbn [xlsxFontField withFont font font_bold font_italic]; assumption. }
  destruct (jsstring_eqb prop (str "background-color")) eqn:E2.
  { apply jsstring_eqb_eq in E2. subst prop. split; reflexivity. }
  destruct (jsstring_eqb prop (str "font-family")) eqn:E3.
  { apply jsstring_eqb_eq in E3. subst prop.
    split; cbn [xlsxFontField withFont font font_bold font_italic]; assumption. }
  destruct (jsstring_eqb prop (str "font-size")) eqn:E4.
  { apply jsstring_eqb_eq in E4. subst prop.
    destruct (pxToPt _);
      split; cbn [xlsxFontField withFont font font_bold font_italic]; assumption. }
  destruct (jsstring_eqb prop (str "font-weight")) eqn:E5.
  { apply jsstring_eqb_eq in E5. subst prop.
    split; cbn [xlsxFontField withFont font font_bold font_italic];
      [reflexivity|assumption]. }
  destruct (jsstring_eqb prop (str "font-style")) eqn:E6.
  { split; cbn [xlsxFontField withFont font font_bold font_italic];
      [assumption|reflexivity]. }
  split; reflexivity.
Qed.

Lemma applyDeclarations_snoc decls d style :
  applyDeclarations (decls ++ [d]) style =
  applyDeclaration (applyDeclarations decls style) (fst d) (snd d).
Proof. unfold applyDeclarations. rewrite fold_left_app. reflexivity. Qed.

Lemma applyDeclarations_flags decls style :
  xlsxFontField font_bold (Some (applyDeclarations decls style)) =
    match lastUpdate (str "font-weight") decls with
    | Some v => Some (isBoldValue v)
    | None => xlsxFontField font_bold (Some style)
    end /\
  xlsxFontField font_italic (Some (applyDeclarations decls style)) =
    match lastUpdate (str "font-style") decls with
    | Some v => Some (isItalicValue v)
    | None => xlsxFontField font_italic (Some style)
    end.
Proof.
  induction decls as [|d decls IH] using rev_ind.
  - split; reflexivity.
  - rewrite applyDeclarations_snoc, !lastUpdate_snoc.
    destruct (applyDeclaration_flags (applyDeclarations decls style) (fst d) (snd d))
      as [Hb Hi].
    rewrite Hb, Hi. destruct IH as [IHb IHi].
    split.
    + destruct (jsstring_eqb (fst d) (str "font-weight")); [reflexivity|exact IHb].
    + destruct (jsstring_eqb (fst d) (str "font-style")); [reflexivity|exact IHi].
Qed.

Lemma xlsxFlags_spec s :
  xlsxFlags s =
  (option_map isBoldValue (lastUpdate (str "font-weight") (declarations s)),
   option_map isItalicValue (lastUpdate (str "font-style") (declarations s))).
Proof.
  unfold xlsxFlags, cssToXlsxStyle. destruct (truthy s) eqn:Hs.
  - cbn [negb]. rewrite fold_applyPart.
    fold (declarations s).
    set (style := applyDeclarations (declarations s) {| font := None; fill := None |}).
    destruct (applyDeclarations_flags (declarations s) {| font := None; fill := None |})
      as [Hb Hi].
    fold style in Hb, Hi.
    assert (Hsame : forall (A : Type) (field : xlsxFont -> option A),
               xlsxFontField field
                 (match font style, fill style with
                  | None, None => None
                  | _, _ => Some style
                  end) = xlsxFontField field (Some style)).
    { intros A field. unfold xlsxFontField.
      destruct (font style) as [f|] eqn:Ef; destruct (fill style) as [fl|] eqn:Efl;
        rewrite ?Ef; reflexivity. }
    rewrite !Hsame, Hb, Hi.
    destruct (lastUpdate (str "font-weight") (declarations s));
      destruct (lastUpdate (str "font-style") (declarations s)); reflexivity.
  - destruct s; [|discriminate]. reflexivity.
Qed.

(** X10.  The two decoders agree on bold and on italic for every style
    string: each flag is set by the last declaration of [font-weight] or
    [font-style], bold for the values [bold] and [700], italic for
    [italic], and is absent when the string has no such declaration. *)
Theorem decoders_agree_on_flags (s : jsstring) :
  xlsxFlags s = excelFlags s /\
  excelFlags s =
    (option_map isBoldValue (lastUpdate (str "font-weight") (declarations s)),
     option_map isItalicValue (lastUpdate (str "font-style") (declarations s))).
Proof.
  split; [rewrite xlsxFlags_spec, excelFlags_spec; reflexivity|apply excelFlags_spec].
Qed.

(* ----------------------------------------------------------------- *)
(** ** A cell style written as a style string and read again *)

Lemma optEntries_app a b : optEntries (a ++ b) = optEntries a ++ optEntries b.
Proof. unfold optEntries. apply flat_map_app. Qed.

Lemma optEntries_get l : forall k,
  NoDup (map fst l) ->
  obj_get k (optEntries l) = match assoc k l with
                             | Some o => o
                             | None => None
                             end.
Proof.
  induction l as [|[k' o] rest IH]; intros k Hnd; [reflexivity|].
  cbn [map fst] in Hnd. inversion Hnd as [|? ? Hnotin Hnd']; subst.
  cbn [assoc]. unfold optEntries. cbn [flat_map fst snd]. fold (optEntries rest).
  destruct o as [v|].
  - cbn [app]. unfold obj_get. cbn [assoc].
    destruct (jsstring_eqb k k'); [reflexivity|]. apply (IH k Hnd').
  - cbn [app]. rewrite (IH k Hnd').
    destruct (jsstring_eqb k k') eqn:E; [|reflexivity].
    apply jsstring_eqb_eq in E. subst k'.
    apply assoc_None_iff in Hnotin. rewrite Hnotin. reflexivity.
Qed.

Lemma optEntries_keys l k : In k (map fst (optEntries l)) -> In k (map fst l).
Proof.
  induction l as [|[k' o] rest IH]; [tauto|].
  unfold optEntries. cbn [flat_map fst snd]. fold (optEntries rest).
  rewrite map_app. intros H. apply in_app_or in H. destruct H as [H|H].
  - destruct o; [|destruct H]. destruct H as [<-|[]]. left. reflexivity.
  - right. exact (IH H).
Qed.

Lemma optEntries_NoDup l : NoDup (map fst l) -> NoDup (map fst (optEntries l)).
Proof.
  induction l as [|[k' o] rest IH]; intros Hnd; [constructor|].
  cbn [map fst] in Hnd. inversion Hnd as [|? ? Hnotin Hnd']; subst.
  unfold optEntries. cbn [flat_map fst snd]. fold (optEntries rest).
  destruct o; cbn [app map fst]; [|exact (IH Hnd')].
  constructor; [|exact (IH Hnd')].
  intros H. apply Hnotin. exact (optEntries_keys _ _ H).
Qed.

Lemma optEntries_Forall (P : jsstring * jsstring -> Prop) l :
  (forall k v, In (k, Some v) l -> P (k, v)) -> Forall P (optEntries l).
Proof.
  induction l as [|[k' o] rest IH]; intros H; [constructor|].
  unfold optEntries. cbn [flat_map fst snd]. fold (optEntries rest).
  assert (Hrest : Forall P (optEntries rest)).
  { apply IH. intros k v Hin. apply H. right. exact Hin. }
  destruct o; cbn [app]; [|exact Hrest].
  constructor; [|exact Hrest]. apply H. left. reflexivity.
Qed.

Lemma orderedKeys_plain keys :
  Forall (fun k => arrayIndex k = None) keys -> orderedKeys keys.
Proof.
  induction keys as [|k rest IH]; intros H; [exact I|].
  inversion H as [|? ? Hk Hrest]; subst. cbn [orderedKeys]. rewrite Hk.
  split; [exact Hrest|exact (IH Hrest)].
Qed.

(** The declarations written for a list of properties parse back to the
    properties that have a value, when names and values are clean. *)
Lemma parse_optEntries l :
  NoDup (map fst l) ->
  Forall (fun k => cleanText k = true /\ arrayIndex k = None /\
                   jsstring_eqb k (str "__proto__") = false) (map fst l) ->
  (forall k v, In (k, Some v) l -> cleanText v = true) ->
  parseStyleString (serializeStyle (optEntries l)) = optEntries l.
Proof.
  intros Hnd Hkeys Hvals. rewrite Forall_forall in Hkeys.
  apply parse_serialize_exact.
  - apply wellFormedMap_iff. split; [exact (optEntries_NoDup l Hnd)|].
    apply optEntries_Forall. intros k v Hin.
    assert (Hk : In k (map fst l)).
    { apply in_map_iff. exists (k, Some v). split; [reflexivity|exact Hin]. }
    destruct (Hkeys k Hk) as (Ck & _ & Pk).
    unfold cleanEntry. cbn [fst snd]. rewrite Ck, (Hvals k v Hin), Pk. reflexivity.
  - unfold enumerationOrder. apply orderedKeys_plain.
    apply Forall_forall. intros k Hin. apply optEntries_keys in Hin.
    destruct (Hkeys k Hin) as (_ & Ak & _). exact Ak.
Qed.

Lemma entries_text (p : jsstring) (t : option jsstring) :
  match t with
  | Some v => [p ++ str ": " ++ v]
  | None => []
  end = map entryText (optEntries [(p, t)]).
Proof. destruct t; reflexivity. Qed.

Lemma colorDeclaration_text prop color :
  colorDeclaration prop color = map entryText (optEntries [(prop, colorText color)]).
Proof.
  rewrite <- entries_text. unfold colorDeclaration, colorText.
  destruct color as [a|]; [|reflexivity].
  destruct (excelColorToCss a) as [css|]; [|reflexivity].
  destruct (truthy css); reflexivity.
Qed.

Lemma familyDeclaration_text name :
  familyDeclaration name =
  match familyText name with
  | Ok t => Ok (map entryText (optEntries [(str "font-family", t)]))
  | TypeError => TypeError
  end.
Proof.
  unfold familyDeclaration, familyText.
  destruct name as [nm|]; [|reflexivity].
  destruct (truthy nm); [|reflexivity].
  destruct (buildFontFamily nm); reflexivity.
Qed.

Lemma sizeDeclaration_text size :
  sizeDeclaration size = map entryText (optEntries [(str "font-size", sizeText size)]).
Proof.
  unfold sizeDeclaration, sizeText.
  destruct size as [sz|]; [|reflexivity].
  destruct (numberTruthy sz); [|reflexivity].
  destruct (ptToPx sz); reflexivity.
Qed.

Lemma flagDeclaration_weight flag :
  flagDeclaration flag (str "font-weight: bold")
  = map entryText (optEntries [(str "font-weight", flagText flag (str "bold"))]).
Proof. destruct flag as [[|]|]; reflexivity. Qed.

Lemma flagDeclaration_style flag :
  flagDeclaration flag (str "font-style: italic")
  = map entryText (optEntries [(str "font-style", flagText flag (str "italic"))]).
Proof. destruct flag as [[|]|]; reflexivity. Qed.

Lemma optEntries_six a b c d e g :
  optEntries [a; b; c; d; e; g] =
  optEntries [a] ++ optEntries [b] ++ optEntries [c] ++ optEntries [d]
    ++ optEntries [e] ++ optEntries [g].
Proof. unfold optEntries. cbn [flat_map]. rewrite !app_nil_r. reflexivity. Qed.

Lemma serializeStyle_join m : serializeStyle m = join (str "; ") (map entryText m).
Proof. reflexivity. Qed.

(** [excelCellStyleToCss] writes the declarations of its properties that
    have a value. *)
Lemma excelCellStyleToCss_entries font fill :
  excelCellStyleToCss font fill =
  match familyOf font with
  | TypeError => TypeError
  | Ok family => Ok (serializeStyle (optEntries (styleProperties font fill family)))
  end.
Proof.
  assert (Hfill : match fill with
                  | Some fl =>
                      if jsstring_eqb (cfill_type fl) (str "pattern")
                      then colorDeclaration (str "background-color")
                             match argbOf (cfill_fgColor fl) with
                             | Some fg => Some fg
                             | None => argbOf (cfill_bgColor fl)
                             end
                      else []
                  | None => []
                  end = colorDeclaration (str "background-color") (fillArgb fill)).
  { unfold fillArgb. destruct fill as [fl|]; [|reflexivity].
    destruct (jsstring_eqb (cfill_type fl) (str "pattern")); reflexivity. }
  unfold excelCellStyleToCss. rewrite Hfill. clear Hfill.
  unfold familyOf, styleProperties.
  destruct font as [f|]; cbn [fontPart].
  - rewrite familyDeclaration_text.
    destruct (familyText (efont_name f)) as [t|]; [|reflexivity].
    rewrite serializeStyle_join, optEntries_six. f_equal. f_equal.
    rewrite !colorDeclaration_text, sizeDeclaration_text, flagDeclaration_weight,
      flagDeclaration_style.
    rewrite !map_app, <- !app_assoc. reflexivity.
  - rewrite serializeStyle_join, optEntries_six. f_equal. f_equal.
    rewrite colorDeclaration_text. reflexivity.
Qed.

(* ----------------------------------------------------------------- *)
(** ** The values written, and what they are read as *)

Lemma trim_no_space s : (forall c, In c s -> isWhiteSpace c = false) -> trim s = s.
Proof.
  intros H. apply trim_fixed; apply trimStart_fixed_iff.
  - destruct s as [|c t]; [exact I|]. apply H. left. reflexivity.
  - destruct (rev s) as [|d u] eqn:E; [exact I|].
    apply H. apply in_rev. rewrite E. left. reflexivity.
Qed.

Lemma hex_no_mark c (m : ascii) : isHexDigit c = true -> isHexDigit m = false -> c <> m.
Proof. intros Hc Hm E. subst. congruence. Qed.

Lemma slice_last_hex n a :
  forallb isHexDigit a = true -> forallb isHexDigit (slice_last n a) = true.
Proof.
  intros H. unfold slice_last.
  rewrite <- (firstn_skipn (length a - n) a), forallb_app in H.
  apply andb_prop in H. tauto.
Qed.

Lemma hexText_clean x : forallb isHexDigit x = true -> cleanText ("#"%char :: x) = true.
Proof.
  intros H. rewrite forallb_forall in H.
  apply cleanText_intro.
  - reflexivity.
  - apply trim_no_space. intros c [<-|Hin]; [reflexivity|].
    apply hex_not_space. exact (H c Hin).
  - intros [E|Hin]; [discriminate E|].
    exact (hex_no_mark _ ";" (H _ Hin) eq_refl eq_refl).
  - intros [E|Hin]; [discriminate E|].
    exact (hex_no_mark _ ":" (H _ Hin) eq_refl eq_refl).
Qed.

(** The colour written for a non-empty [argb]: [#] and its last six
    characters. *)
Lemma colorText_truthy (o : option jsstring) :
  (forall a, o = Some a -> truthy a = true) ->
  colorText o = option_map (fun a => "#"%char :: slice_last 6 a) o.
Proof.
  intros H. destruct o as [a|]; [|reflexivity].
  unfold colorText, excelColorToCss. rewrite (H a eq_refl). reflexivity.
Qed.

Lemma argbOf_truthy c a : argbOf c = Some a -> truthy a = true.
Proof.
  unfold argbOf. destruct c as [col|]; [|discriminate].
  destruct (truthy (argb col)) eqn:E; [|discriminate].
  intros H. injection H as <-. exact E.
Qed.

Lemma fillArgb_truthy fill a : fillArgb fill = Some a -> truthy a = true.
Proof.
  unfold fillArgb. destruct fill as [fl|]; [|discriminate].
  destruct (jsstring_eqb _ _); [|discriminate].
  destruct (argbOf (cfill_fgColor fl)) as [fg|] eqn:E.
  - intros H. injection H as <-. exact (argbOf_truthy _ _ E).
  - apply argbOf_truthy.
Qed.

Lemma argbOf_hex c a :
  hexColor c = true -> argbOf c = Some a -> forallb isHexDigit a = true.
Proof.
  unfold argbOf, hexColor. destruct c as [col|]; [|discriminate].
  destruct (truthy (argb col)); [|discriminate].
  intros H E. injection E as <-. exact H.
Qed.

Lemma excelArgb_hash x :
  excelArgb ("#"%char :: x) = str "FF" ++ toUpperCase (padStart 6 "0" x).
Proof. reflexivity. Qed.

(** The first of a list of clean parts joined by a comma and a space is
    clean. *)
Lemma cleanText_edges s :
  cleanText s = true <->
  (exists c t, s = c :: t /\ isWhiteSpace c = false) /\
  (exists d u, rev s = d :: u /\ isWhiteSpace d = false) /\
  ~ In ";"%char s /\ ~ In ":"%char s.
Proof.
  split.
  - intros H. destruct (cleanText_facts s H) as (Hn & Ht & Hs & Hc).
    split; [exact (head_not_space s Hn Ht)|].
    split; [exact (last_not_space s Hn Ht)|]. tauto.
  - intros ((c & t & -> & Hc) & (d & u & Er & Hd) & Hs & Hcol).
    apply cleanText_intro; [reflexivity| |exact Hs|exact Hcol].
    apply trim_fixed; apply trimStart_fixed_iff; [exact Hc|].
    rewrite Er. exact Hd.
Qed.

Lemma cleanText_join parts :
  parts <> [] -> Forall (fun p => cleanText p = true) parts ->
  cleanText (join (str ", ") parts) = true.
Proof.
  induction parts as [|p rest IH]; intros Hne Hall; [contradiction|].
  inversion Hall as [|? ? Hp Hrest]; subst.
  destruct rest as [|q rest]; [exact Hp|].
  specialize (IH ltac:(discriminate) Hrest).
  set (J := join (str ", ") (q :: rest)) in *.
  change (join (str ", ") (p :: q :: rest)) with (p ++ str ", " ++ J).
  apply cleanText_edges in Hp. apply cleanText_edges in IH.
  destruct Hp as ((c & t & -> & Hc) & _ & Hps & Hpc).
  destruct IH as (_ & (d & u & Er & Hd) & HJs & HJc).
  apply cleanText_edges. split; [|split; [|split]].
  - exists c, (t ++ str ", " ++ J). split; [reflexivity|exact Hc].
  - exists d, (u ++ rev (str ", ") ++ rev (c :: t)).
    split; [|exact Hd]. rewrite !rev_app_distr, Er. rewrite <- app_assoc. reflexivity.
  - intros Hin. apply in_app_or in Hin. destruct Hin as [Hin|Hin]; [tauto|].
    apply in_app_or in Hin. destruct Hin as [Hin|Hin]; [|tauto].
    cbn in Hin. intuition discriminate.
  - intros Hin. apply in_app_or in Hin. destruct Hin as [Hin|Hin]; [tauto|].
    apply in_app_or in Hin. destruct Hin as [Hin|Hin]; [|tauto].
    cbn in Hin. intuition discriminate.
Qed.

Lemma fallbacksFor_clean primary chain :
  fallbacksFor primary = Ok chain -> Forall (fun p => cleanText p = true) chain.
Proof.
  unfold fallbacksFor, FONT_FALLBACKS. cbn [assoc].
  destruct (jsstring_eqb primary (str "Calibri")).
  { intros H. assert (E : chain = [quoted (str "Carlito"); quoted (str "Inter");
                                   quoted (str "Noto Sans"); quoted (str "Helvetica Neue");
                                   str "Arial"; str "sans-serif"]) by congruence.
    rewrite E. repeat constructor. }
  destruct (jsstring_eqb primary (str "Segoe UI")).
  { intros H. assert (E : chain = [quoted (str "Inter"); quoted (str "Noto Sans");
                                   quoted (str "Helvetica Neue");
                                   str "Arial"; str "sans-serif"]) by congruence.
    rewrite E. repeat constructor. }
  destruct (existsb _ _); [discriminate|].
  intros H. assert (E : chain = DEFAULT_FONT_FALLBACKS) by congruence.
  rewrite E. repeat constructor.
Qed.

Lemma plainFontName_facts nm :
  plainFontName nm = true ->
  cleanText nm = true /\ ~ In ","%char nm /\ quotedAtEnds nm = false /\
  (forall c, In c nm -> isQuote c = false) /\
  existsb (jsstring_eqb nm) objectPrototypeKeys = false.
Proof.
  unfold plainFontName. intros H.
  apply andb_prop in H. destruct H as [H Hproto].
  apply andb_prop in H. destruct H as [H Hquote].
  apply andb_prop in H. destruct H as [Hc Hcomma].
  apply negb_true_iff in Hproto, Hquote, Hcomma.
  assert (Hq : forall c, In c nm -> isQuote c = false).
  { intros c Hin. destruct (isQuote c) eqn:E; [|reflexivity].
    assert (existsb isQuote nm = true) by (apply existsb_exists; exists c; tauto).
    congruence. }
  split; [exact Hc|]. split; [apply existsb_eqb_false; exact Hcomma|].
  split; [|split; [exact Hq|exact Hproto]].
  - unfold quotedAtEnds. destruct nm as [|c t]; [reflexivity|].
    destruct (rev (c :: t)) as [|d u] eqn:Er; [reflexivity|].
    rewrite (Hq c (or_introl eq_refl)).
    rewrite (Hq d); [reflexivity|]. apply in_rev. rewrite Er. left. reflexivity.
Qed.

Lemma primaryToken_clean nm :
  cleanText nm = true -> cleanText (primaryToken nm) = true.
Proof.
  intros H. unfold primaryToken. destruct (hasWhiteSpace nm); [|exact H].
  destruct (cleanText_facts nm H) as (_ & _ & Hs & Hc).
  unfold quoted. apply cleanText_edges. split; [|split; [|split]].
  - exists dquote, (nm ++ [dquote]). split; reflexivity.
  - exists dquote, (rev nm ++ [dquote]). split; [|reflexivity].
    change (dquote :: nm ++ [dquote]) with ((dquote :: nm) ++ [dquote]).
    rewrite rev_app_distr. reflexivity.
  - intros [E|Hin]; [discriminate E|].
    apply in_app_or in Hin. destruct Hin as [Hin|[E|[]]]; [tauto|discriminate E].
  - intros [E|Hin]; [discriminate E|].
    apply in_app_or in Hin. destruct Hin as [Hin|[E|[]]]; [tauto|discriminate E].
Qed.

(** The list written for a plain font name is a clean value whose first
    family is the name. *)
Lemma buildFontFamily_plain nm :
  plainFontName nm = true ->
  exists family,
    buildFontFamily nm = Ok family /\
    cleanText family = true /\
    normalizeFontName (hd [] (split "," family)) = nm.
Proof.
  intros Hp. destruct (plainFontName_facts nm Hp) as (Hc & Hcomma & Hq & _ & Hproto).
  destruct (cleanText_facts nm Hc) as (Hn & Ht & _).
  assert (Hprim : primaryFont nm = nm).
  { unfold primaryFont. rewrite (normalizeFontName_plain nm Ht Hq).
    destruct nm; [contradiction|reflexivity]. }
  unfold buildFontFamily, fontFamilyParts. rewrite Hprim.
  destruct (fallbacksFor nm) as [chain|] eqn:Ef.
  - exists (join (str ", ") (dedupe [] (primaryToken nm :: chain))).
    split; [reflexivity|]. split.
    + apply cleanText_join; [rewrite dedupe_head; discriminate|].
      apply Forall_forall. intros p Hin. apply dedupe_incl in Hin.
      destruct Hin as [<-|Hin]; [exact (primaryToken_clean nm Hc)|].
      pose proof (fallbacksFor_clean nm chain Ef) as Hall.
      rewrite Forall_forall in Hall. exact (Hall p Hin).
    + rewrite dedupe_head, first_of_list by (apply primaryToken_no_comma; exact Hcomma).
      apply primaryToken_normalized; assumption.
  - exfalso. unfold fallbacksFor in Ef.
    destruct (assoc nm FONT_FALLBACKS); [discriminate|].
    rewrite Hproto in Ef. discriminate.
Qed.

(* ----------------------------------------------------------------- *)
(** ** The style of a cell after writing and reading *)

Lemma assoc_Some_In {A : Type} k (x : A) l : assoc k l = Some x -> In (k, x) l.
Proof.
  induction l as [|[k' y] rest IH]; [discriminate|].
  cbn [assoc]. destruct (jsstring_eqb k k') eqn:E.
  - apply jsstring_eqb_eq in E. subst k'. intros H. injection H as ->.
    left. reflexivity.
  - intros H. right. exact (IH H).
Qed.

Lemma truthyProp_optEntries props k :
  NoDup (map fst props) ->
  (forall k v, In (k, Some v) props -> truthy v = true) ->
  truthyProp k (optEntries props) = match assoc k props with
                                    | Some o => o
                                    | None => None
                                    end.
Proof.
  intros Hnd Hv. unfold truthyProp. rewrite (optEntries_get props k Hnd).
  destruct (assoc k props) as [[v|]|] eqn:E; try reflexivity.
  rewrite (Hv k v (assoc_Some_In _ _ _ E)). reflexivity.
Qed.

Lemma serializeStyle_truthy e rest : truthy (serializeStyle (e :: rest)) = true.
Proof.
  unfold serializeStyle. cbn [map]. rewrite join_cons.
  destruct e as [[|c t] v]; reflexivity.
Qed.

Lemma cleanText_truthy v : cleanText v = true -> truthy v = true.
Proof.
  intros H. destruct (cleanText_facts v H) as (Hn & _).
  destruct v; [contradiction|reflexivity].
Qed.

(** The six properties of a cell style, written and read: every field of
    the style read is decoded from the value written for its property. *)
Lemma decode_properties (color family size weight style background : option jsstring) :
  let props := [ (str "color", color); (str "font-family", family);
                 (str "font-size", size); (str "font-weight", weight);
                 (str "font-style", style); (str "background-color", background) ] in
  (forall k v, In (k, Some v) props -> cleanText v = true) ->
  cssToExcelStyle (serializeStyle (optEntries props)) =
  excelStyleWith
    (option_map (fun c => {| argb := excelArgb c |}) color)
    (option_map (fun fam => normalizeFontName (hd [] (split "," fam))) family)
    (match size with Some v => decodedSize v | None => None end)
    (option_map isBoldValue weight)
    (option_map isItalicValue style)
    (option_map (fun bg => solidFill {| argb := excelArgb bg |}) background).
Proof.
  intros props Hclean.
  assert (Hnd : NoDup (map fst props)).
  { unfold props. cbn [map fst].
    repeat (constructor; [cbn [In]; intros H; intuition discriminate|]).
    constructor. }
  assert (Hkeys : Forall (fun k => cleanText k = true /\ arrayIndex k = None /\
                                   jsstring_eqb k (str "__proto__") = false)
                         (map fst props)).
  { unfold props. cbn [map fst]. repeat constructor. }
  pose proof (parse_optEntries props Hnd Hkeys Hclean) as Hparse.
  assert (Htruthy : forall k v, In (k, Some v) props -> truthy v = true).
  { intros k v Hin. apply cleanText_truthy. exact (Hclean k v Hin). }
  destruct (optEntries props) as [|e rest] eqn:E.
  - unfold props, optEntries in E. cbn [flat_map fst snd] in E.
    destruct color, family, size, weight, style, background; try discriminate E.
    reflexivity.
  - rewrite (cssToExcelStyle_fields _ (serializeStyle_truthy e rest)).
    cbv zeta. rewrite Hparse. unfold excelFontSize. rewrite <- E.
    rewrite !(truthyProp_optEntries props _ Hnd Htruthy).
    reflexivity.
Qed.

Section Reload.

Open Scope Q_scope.

(** The size written for a font, and the size read from it. *)
Lemma sizeText_spec size :
  match size with
  | Some (Fin p) => Qle_bool 0 p && Qle_bool p 1000000000
  | _ => true
  end = true ->
  match sizeText size with
  | Some v => cleanText v = true /\ decodedSize v = reloadedSize size
  | None => reloadedSize size = None
  end.
Proof.
  intros Hb. destruct size as [[| b | p]|]; try reflexivity.
  apply andb_prop in Hb. destruct Hb as [H0 H1]. apply Qle_bool_iff in H0, H1.
  unfold sizeText, reloadedSize.
  destruct (numberTruthy (Fin p)); [|reflexivity].
  destruct (ptToPx_bounded p) as (m & Em & Hm).
  { apply Qabs_Qle_condition. split; lra. }
  assert (Hm0 : (0 <= m)%Z).
  { assert (A : inject_Z (-1) < inject_Z m) by (change (inject_Z (-1)) with (-1); lra).
    rewrite <- Zlt_Qlt in A. lia. }
  assert (Hmq : 0 <= inject_Z m <= 133333333334).
  { split; [change 0 with (inject_Z 0); rewrite <- Zle_Qle; exact Hm0|lra]. }
  destruct (toNumber_hundredths m) as (r & Er & Hr).
  { apply Qabs_Qle_condition. split; lra. }
  assert (Hfix : toFixedNumber (Fin r) = Some (Fin r)).
  { apply (toFixedNumber_fixed m); [|exact Er]. apply Qabs_Qle_condition. split; lra. }
  assert (Hr0 : 0 <= r).
  { destruct (Z.eq_dec m 0) as [->|Hnz].
    - assert (E0 : Fin r = Fin 0) by (rewrite <- Er; vm_compute; reflexivity).
      injection E0 as ->. apply Qle_refl.
    - assert (A : 1 <= inject_Z m).
      { change 1 with (inject_Z 1). rewrite <- Zle_Qle. lia. }
      unfold Qdiv in Hr. change (/ 100) with (1 # 100) in Hr. lra. }
  unfold pointsRoundTrip. rewrite Em, Er.
  destruct (formatPx_text r) as (r' & E' & P & C & _).
  { unfold Qdiv in Hr. change (/ 100) with (1 # 100) in Hr. split; lra. }
  rewrite Hfix in E'. injection E' as <-.
  split; [exact C|]. unfold decodedSize. rewrite P. reflexivity.
Qed.

End Reload.

Lemma colorText_decoded (o : option jsstring) :
  (forall a, o = Some a -> truthy a = true) ->
  option_map (fun c => {| argb := excelArgb c |}) (colorText o)
  = option_map reloadedColor o.
Proof.
  intros H. rewrite (colorText_truthy o H). destruct o; reflexivity.
Qed.

Lemma colorText_clean (o : option jsstring) v :
  (forall a, o = Some a -> truthy a = true /\ forallb isHexDigit a = true) ->
  colorText o = Some v -> cleanText v = true.
Proof.
  intros H E. rewrite colorText_truthy in E by (intros a Ha; apply (H a Ha)).
  destruct o as [a|]; [|discriminate]. cbn [option_map] in E.
  assert (Ev : v = "#"%char :: slice_last 6 a) by congruence.
  rewrite Ev. apply hexText_clean. apply slice_last_hex. apply (H a eq_refl).
Qed.

Lemma familyOf_spec font :
  match font with Some f => loadableFont f | None => true end = true ->
  exists family,
    familyOf font = Ok family /\
    (forall v, family = Some v -> cleanText v = true) /\
    option_map (fun fam => normalizeFontName (hd [] (split "," fam))) family
    = fontPart font (fun f => nonEmpty (efont_name f)).
Proof.
  intros Hl. destruct font as [f|].
  - unfold loadableFont in Hl.
    apply andb_prop in Hl. destruct Hl as [Hl _].
    apply andb_prop in Hl. destruct Hl as [_ Hname].
    cbn [familyOf fontPart]. unfold familyText, nonEmpty.
    destruct (efont_name f) as [nm|].
    + destruct (truthy nm) eqn:Et.
      * cbn [negb orb] in Hname.
        destruct (buildFontFamily_plain nm Hname) as (family & Eb & Hc & Hn).
        rewrite Eb. exists (Some family). split; [reflexivity|]. split.
        -- intros v Hv. injection Hv as <-. exact Hc.
        -- cbn [option_map]. rewrite Hn. reflexivity.
      * exists None. split; [reflexivity|]. split; [discriminate|reflexivity].
    + exists None. split; [reflexivity|]. split; [discriminate|reflexivity].
  - exists None. split; [reflexivity|]. split; [discriminate|reflexivity].
Qed.

Lemma fillArgb_hex fill a :
  match fill with Some fl => loadableFill fl | None => true end = true ->
  fillArgb fill = Some a -> forallb isHexDigit a = true.
Proof.
  unfold fillArgb. destruct fill as [fl|]; [|discriminate].
  unfold loadableFill. intros H. apply andb_prop in H. destruct H as [Hfg Hbg].
  destruct (jsstring_eqb _ _); [|discriminate].
  destruct (argbOf (cfill_fgColor fl)) as [fg|] eqn:E.
  - intros Ha. injection Ha as <-. exact (argbOf_hex _ _ Hfg E).
  - apply argbOf_hex. exact Hbg.
Qed.

Lemma flagText_decoded flag :
  option_map isBoldValue (flagText flag (str "bold")) = setFlag flag /\
  option_map isItalicValue (flagText flag (str "italic")) = setFlag flag.
Proof. destruct flag as [[|]|]; split; reflexivity. Qed.

(** X11.  A cell style written by [excelCellStyleToCss] and read by
    [cssToExcelStyle] comes back as [reloadedStyle] describes, for every
    font and fill whose colours are hex digits, whose font name is plain and
    whose size lies between 0 and [10^9] points: the colours come back
    opaque and in upper case, the font name as it was, the size after the
    conversion to pixels and back, bold and italic when they were set, and a
    pattern fill as a solid fill of its colour. *)
Theorem excel_style_survives_reload (font : option excelFont) (fill : option cellFill) :
  loadableStyle font fill = true ->
  exists css,
    excelCellStyleToCss font fill = Ok css /\
    cssToExcelStyle css = reloadedStyle font fill.
Proof.
  intros Hload. unfold loadableStyle in Hload.
  apply andb_prop in Hload. destruct Hload as [Hfont Hfill].
  rewrite excelCellStyleToCss_entries.
  destruct (familyOf_spec font Hfont) as (family & Ef & Hfclean & Hfname).
  rewrite Ef. eexists. split; [reflexivity|].
  assert (Hcolor : forall a, fontPart font (fun f => argbOf (efont_color f)) = Some a ->
                             truthy a = true /\ forallb isHexDigit a = true).
  { intros a Ha. destruct font as [f|]; [|discriminate]. cbn [fontPart] in Ha.
    split; [exact (argbOf_truthy _ _ Ha)|].
    unfold loadableFont in Hfont.
    apply andb_prop in Hfont. destruct Hfont as [Hfont _].
    apply andb_prop in Hfont. destruct Hfont as [Hhex _].
    exact (argbOf_hex _ _ Hhex Ha). }
  assert (Hbg : forall a, fillArgb fill = Some a ->
                          truthy a = true /\ forallb isHexDigit a = true).
  { intros a Ha. split; [exact (fillArgb_truthy _ _ Ha)|exact (fillArgb_hex _ _ Hfill Ha)]. }
  assert (Hsize : match fontPart font (fun f => sizeText (efont_size f)) with
                  | Some v => cleanText v = true /\
                              decodedSize v = fontPart font (fun f => reloadedSize (efont_size f))
                  | None => fontPart font (fun f => reloadedSize (efont_size f)) = None
                  end).
  { destruct font as [f|]; [|reflexivity]. cbn [fontPart].
    apply sizeText_spec. unfold loadableFont in Hfont.
    apply andb_prop in Hfont. destruct Hfont as [_ Hs]. exact Hs. }
  assert (EcolorText : fontPart font (fun f => colorText (argbOf (efont_color f)))
                       = colorText (fontPart font (fun f => argbOf (efont_color f)))).
  { destruct font; reflexivity. }
  unfold styleProperties. rewrite EcolorText.
  rewrite decode_properties.
  - unfold reloadedStyle. f_equal.
    + apply colorText_decoded. intros a Ha. apply (Hcolor a Ha).
    + exact Hfname.
    + destruct (fontPart font (fun f => sizeText (efont_size f))) as [v|].
      * destruct Hsize as [_ Hd]. exact Hd.
      * symmetry. exact Hsize.
    + destruct font as [f|]; [|reflexivity]. cbn [fontPart].
      apply (proj1 (flagText_decoded (efont_bold f))).
    + destruct font as [f|]; [|reflexivity]. cbn [fontPart].
      apply (proj2 (flagText_decoded (efont_italic f))).
    + rewrite (colorText_truthy (fillArgb fill) (fun a Ha => proj1 (Hbg a Ha))).
      destruct (fillArgb fill); reflexivity.
  - intros k v Hin. cbn [In] in Hin.
    destruct Hin as [E|[E|[E|[E|[E|[E|[]]]]]]]; injection E as _ Ev.
    + exact (colorText_clean _ v Hcolor Ev).
    + exact (Hfclean v Ev).
    + rewrite Ev in Hsize. tauto.
    + destruct font as [f|]; [|discriminate]. cbn [fontPart] in Ev.
      destruct (efont_bold f) as [[|]|]; try discriminate.
      injection Ev as <-. reflexivity.
    + destruct font as [f|]; [|discriminate]. cbn [fontPart] in Ev.
      destruct (efont_italic f) as [[|]|]; try discriminate.
      injection Ev as <-. reflexivity.
    + exact (colorText_clean _ v Hbg Ev).
Qed.

Lemma excel_style_survives_reload_witness :
  exists css,
    excelCellStyleToCss (Some sampleFont) (Some sampleFill) = Ok css /\
    cssToExcelStyle css = reloadedStyle (Some sampleFont) (Some sampleFill).
Proof.
  apply (excel_style_survives_reload (Some sampleFont) (Some sampleFill)).
  vm_compute. reflexivity.
Defined.

(** The string written for the sample cell, and the style read from it: the
    same font, and the fill as a solid fill. *)
Lemma excelCellStyleToCss_example :
  excelCellStyleToCss (Some sampleFont) (Some sampleFill) =
    Ok (str "color: #1F4E79; font-family: Calibri, " ++ quoted (str "Carlito")
        ++ str ", " ++ quoted (str "Inter") ++ str ", " ++ quoted (str "Noto Sans")
        ++ str ", " ++ quoted (str "Helvetica Neue")
        ++ str ", Arial, sans-serif; font-size: 14.67px; font-weight: bold; "
        ++ str "background-color: #FFF2CC") /\
  reloadedStyle (Some sampleFont) (Some sampleFill) =
    {| efont := Some sampleFont;
       efill := Some (solidFill {| argb := str "FFFFF2CC" |}) |}.
Proof. split; vm_compute; reflexivity. Qed.

(* ----------------------------------------------------------------- *)
(** ** Colour codec: the ExcelJS variant, and the two variants together *)

Lemma hexDigits_clean x :
  x <> [] -> forallb isHexDigit x = true -> cleanText x = true.
Proof.
  intros Hn H. rewrite forallb_forall in H.
  apply cleanText_intro.
  - destruct x; [contradiction|reflexivity].
  - apply trim_no_space. intros c Hin. apply hex_not_space. exact (H c Hin).
  - intros Hin. exact (hex_no_mark _ ";" (H _ Hin) eq_refl eq_refl).
  - intros Hin. exact (hex_no_mark _ ":" (H _ Hin) eq_refl eq_refl).
Qed.

Lemma removeFirst_absent c s : ~ In c s -> removeFirst c s = s.
Proof.
  induction s as [|x rest IH]; intros H; [reflexivity|].
  cbn [removeFirst]. destruct (Ascii.eqb_spec x c) as [->|Hne].
  - exfalso. apply H. left. reflexivity.
  - rewrite IH; [reflexivity|]. intros Hin. apply H. right. exact Hin.
Qed.

Lemma excelFontField_color color :
  excelFontField efont_color (excelStyleWith (Some color) None None None None None)
  = Some color.
Proof. reflexivity. Qed.

(** X12.  The ExcelJS variant keeps a 6-digit hex colour: written with or
    without [#], in any letter case, [cssToExcelStyle] packs it as [FF] and
    the six digits in upper case, and [excelColorToCss] gives the canonical
    form of the colour back. *)
Theorem excel_hex_color_round_trip (hash : bool) (digits : jsstring) :
  forallb isHexDigit digits = true ->
  length digits = 6 ->
  excelFontField efont_color
    (cssToExcelStyle (str "color: " ++ (if hash then "#"%char :: digits else digits)))
  = Some {| argb := str "FF" ++ toUpperCase digits |} /\
  excelColorToCss (str "FF" ++ toUpperCase digits) = Some (canonicalHex digits).
Proof.
  intros Hhex Hlen.
  set (h := if hash then "#"%char :: digits else digits).
  assert (Hn : digits <> []) by (intros E; rewrite E in Hlen; discriminate).
  assert (Hclean : cleanText h = true).
  { unfold h. destruct hash; [exact (hexText_clean _ Hhex)|exact (hexDigits_clean _ Hn Hhex)]. }
  assert (Hargb : excelArgb h = str "FF" ++ toUpperCase digits).
  { assert (Hpad : padStart 6 "0" digits = digits).
    { unfold padStart. rewrite Hlen. reflexivity. }
    unfold h. destruct hash.
    - rewrite excelArgb_hash, Hpad. reflexivity.
    - unfold excelArgb. rewrite removeFirst_absent, Hpad; [reflexivity|].
      intros Hin. rewrite forallb_forall in Hhex.
      exact (hex_no_mark _ "#" (Hhex _ Hin) eq_refl eq_refl). }
  split.
  - pose proof (decode_properties (Some h) None None None None None) as D.
    cbv zeta in D.
    change (serializeStyle (optEntries [(str "color", Some h); (str "font-family", None);
                                        (str "font-size", None); (str "font-weight", None);
                                        (str "font-style", None);
                                        (str "background-color", None)]))
      with (str "color: " ++ h) in D.
    rewrite D.
    + cbn [option_map]. rewrite excelFontField_color, Hargb. reflexivity.
    + intros k v Hin. cbn [In] in Hin.
      destruct Hin as [E|[E|[E|[E|[E|[E|[]]]]]]]; try discriminate E.
      injection E as _ <-. exact Hclean.
  - destruct digits as [|a [|b [|c [|d [|e [|f [|]]]]]]]; try discriminate Hlen.
    reflexivity.
Qed.

Lemma excel_hex_color_round_trip_witness :
  excelFontField efont_color (cssToExcelStyle (str "color: " ++ "#"%char :: str "1f4e79"))
  = Some {| argb := str "FF" ++ toUpperCase (str "1f4e79") |} /\
  excelColorToCss (str "FF" ++ toUpperCase (str "1f4e79"))
  = Some (canonicalHex (str "1f4e79")).
Proof.
  apply (excel_hex_color_round_trip true (str "1f4e79")); reflexivity.
Defined.





(** X14.  The two colour encoders write the same text: for a colour whose
    [rgb] is not empty, [xlsxColorToCSS] gives what [excelColorToCss] gives
    for that string, [#] and its last six characters; the removal of the
    first two of eight characters changes nothing. *)
Theorem color_encoders_agree (v : jsstring) (other : option jsstring) :
  truthy v = true ->
  xlsxColorToCSS (Some {| rgb := Some v; RGB := other |}) = excelColorToCss v /\
  excelColorToCss v = Some ("#"%char :: slice_last 6 v).
Proof.
  intros Hv. destruct v as [|a v']; [discriminate|].
  unfold xlsxColorToCSS, excelColorToCss, orElse. cbn [rgb RGB truthy negb].
  split; [|reflexivity].
  destruct (length (a :: v') =? 8) eqn:E; [|reflexivity].
  apply Nat.eqb_eq in E.
  destruct v' as [|b [|c [|d [|e [|f [|g [|h [|]]]]]]]]; try discriminate E.
  reflexivity.
Qed.

Lemma color_encoders_agree_witness :
  xlsxColorToCSS (Some {| rgb := Some (str "80FF8000"); RGB := None |})
  = excelColorToCss (str "80FF8000") /\
  excelColorToCss (str "80FF8000") = Some ("#"%char :: slice_last 6 (str "80FF8000")).
Proof.
  apply (color_encoders_agree (str "80FF8000") None). reflexivity.
Defined.

(* ----------------------------------------------------------------- *)
(** ** Document writer: values that are no text, formulas, positions *)

Lemma digitsFrom_head fuel : forall z acc,
  (exists c rest, acc = c :: rest /\ isDigit c = true) \/ fuel <> 0 ->
  exists c rest, digitsFrom fuel z acc = c :: rest /\ isDigit c = true.
Proof.
  induction fuel as [|fuel IH]; intros z acc H.
  - destruct H as [H|H]; [exact H|contradiction].
  - cbn [digitsFrom].
    pose proof (Z.mod_pos_bound z 10 ltac:(lia)) as Hm.
    destruct (digitChar_digit (z mod 10) ltac:(lia)) as [D _].
    destruct (z <? 10)%Z.
    + exists (digitChar (z mod 10)), acc. split; [reflexivity|exact D].
    + apply IH. left. exists (digitChar (z mod 10)), acc. split; [reflexivity|exact D].
Qed.

Lemma digitsOf_head_digit z :
  exists c rest, digitsOf z = c :: rest /\ isDigit c = true.
Proof. unfold digitsOf. apply digitsFrom_head. right. discriminate. Qed.

Lemma formatDecimal_head s n k :
  exists c rest, formatDecimal s n k = c :: rest /\ isDigit c = true.
Proof.
  unfold formatDecimal.
  destruct (digitsOf_head_digit s) as (c & rest & E & D). rewrite E.
  destruct ((k <=? n)%Z && (n <=? 21)%Z).
  { exists c, (rest ++ repeat "0"%char (Z.to_nat (n - k))). split; [reflexivity|exact D]. }
  destruct ((0 <? n)%Z && (n <=? 21)%Z) eqn:EB.
  { apply andb_prop in EB. destruct EB as [EB _]. apply Z.ltb_lt in EB.
    destruct (Z.to_nat n) as [|j] eqn:Ej; [lia|].
    cbn [firstn app]. eexists. eexists. split; [reflexivity|exact D]. }
  destruct ((-6 <? n)%Z && (n <=? 0)%Z).
  { eexists. eexists. split; reflexivity. }
  destruct rest; eexists; eexists; (split; [reflexivity|exact D]).
Qed.

(** The text of a number starts with a digit, a minus sign, or the first
    letter of [NaN] or [Infinity]. *)
Lemma numberToString_head x :
  exists c rest, numberToString x = c :: rest /\ Ascii.eqb "=" c = false.
Proof.
  destruct x as [| [|] | q].
  - eexists. eexists. split; reflexivity.
  - eexists. eexists. split; reflexivity.
  - eexists. eexists. split; reflexivity.
  - cbn [numberToString]. destruct (Qeq_bool q 0).
    + eexists. eexists. split; reflexivity.
    + destruct (shortestDecimal (Qabs q)) as [cd k].
      destruct (Qnegative q).
      * eexists. eexists. split; reflexivity.
      * cbn [app]. destruct (formatDecimal_head (fst cd) (snd cd) k) as (c & rest & E & D).
        exists c, rest. split; [exact E|]. apply (digit_not_letter c "=" D eq_refl).
Qed.

(** X15.  What the writer stores for a grid value that is no text: a
    number as that number, [null] and [undefined] as they are, and the
    booleans as the numbers 1 and 0. *)
Theorem writer_stores_values_that_are_no_text (n : number) :
  writtenValue numberToString (PNumber n) = PlainValue (PNumber n) /\
  writtenValue numberToString PNull = PlainValue PNull /\
  writtenValue numberToString PUndefined = PlainValue PUndefined /\
  writtenValue numberToString (PBoolean true) = PlainValue (PNumber (Fin 1)) /\
  writtenValue numberToString (PBoolean false) = PlainValue (PNumber (Fin 0)).
Proof.
  split; [|repeat split; reflexivity].
  unfold writtenValue, cellStrOf. cbn [orEmptyString String_ ToNumber].
  destruct (numberToString_head n) as (c & rest & E & Hc). rewrite E.
  change (startsWith (str "=") (c :: rest)) with (Ascii.eqb "=" c && true).
  rewrite Hc. cbn [andb].
  destruct (negb (Number_isNaN n) && negb (jsstring_eqb (trim (c :: rest)) []));
    reflexivity.
Qed.








(* ----------------------------------------------------------------- *)
(** ** Styles on the selection *)


Lemma obj_get_nonempty k (o : jsobject) v : obj_get k o = Some v -> o <> [].
Proof. intros H E. rewrite E in H. discriminate. Qed.



Lemma selection_fold_error cells updates :
  fold_left
    (fun acc cellAt =>
       match acc with
       | TypeError => TypeError
       | Ok st =>
           match selectionStyle (st (fst cellAt) (snd cellAt)) updates with
           | Ok merged => Ok (storeStyle st (fst cellAt) (snd cellAt) merged)
           | TypeError => TypeError
           end
       end) cells (@TypeError styleStore) = TypeError.
Proof. induction cells as [|x cells IH]; [reflexivity|exact IH]. Qed.

Lemma selection_fold cells updates : forall styles styles',
  NoDup cells ->
  fold_left
    (fun acc cellAt =>
       match acc with
       | TypeError => TypeError
       | Ok st =>
           match selectionStyle (st (fst cellAt) (snd cellAt)) updates with
           | Ok merged => Ok (storeStyle st (fst cellAt) (snd cellAt) merged)
           | TypeError => TypeError
           end
       end) cells (Ok styles) = Ok styles' ->
  forall r c,
    (In (r, c) cells ->
     exists merged, selectionStyle (styles r c) updates = Ok merged /\
                    styles' r c = Some merged) /\
    (~ In (r, c) cells -> styles' r c = styles r c).
Proof.
  induction cells as [|[r0 c0] cells IH]; intros styles styles' Hnd H r c.
  - cbn [fold_left] in H. injection H as <-. split; [intros []|reflexivity].
  - cbn [fold_left fst snd] in H. inversion Hnd as [|? ? Hnotin Hnd']; subst.
    destruct (selectionStyle (styles r0 c0) updates) as [merged0|] eqn:E0.
    2:{ rewrite selection_fold_error in H. discriminate. }
    destruct (IH _ _ Hnd' H r c) as [Hin Hout].
    assert (Hstore : (r, c) <> (r0, c0) -> storeStyle styles r0 c0 merged0 r c = styles r c).
    { intros Hne. unfold storeStyle.
      destruct (Nat.eqb_spec r r0) as [->|]; [|reflexivity].
      destruct (Nat.eqb_spec c c0) as [->|]; [contradiction|reflexivity]. }
    split.
    + intros [Heq|Hrest].
      * injection Heq as <- <-. exists merged0. split; [exact E0|].
        rewrite (Hout Hnotin). unfold storeStyle. rewrite !Nat.eqb_refl. reflexivity.
      * destruct (Hin Hrest) as (merged & Em & Es).
        exists merged. split; [|exact Es].
        rewrite <- Em. f_equal. symmetry. apply Hstore.
        intros Heq. injection Heq as -> ->. contradiction.
    + intros Hnot. rewrite Hout by (intros Hin'; apply Hnot; right; exact Hin').
      apply Hstore. intros Heq. apply Hnot. left. symmetry. exact Heq.
Qed.

Lemma NoDup_row (row : nat) (cols : list nat) :
  NoDup cols -> NoDup (map (fun col => (row, col)) cols).
Proof.
  intros H. induction H as [|col cols Hnotin _ IH]; [constructor|].
  cbn [map]. constructor; [|exact IH].
  intros Hin. apply in_map_iff in Hin. destruct Hin as (col' & E & Hin).
  injection E as ->. contradiction.
Qed.

Lemma NoDup_rows (rows cols : list nat) :
  NoDup rows -> NoDup cols ->
  NoDup (flat_map (fun row => map (fun col => (row, col)) cols) rows).
Proof.
  intros Hr Hc. induction rows as [|row rows IH]; [constructor|].
  inversion Hr as [|? ? Hnotin Hr']; subst. cbn [flat_map].
  apply NoDup_app; [exact (NoDup_row row cols Hc)|exact (IH Hr')|].
  intros [r c] Hin Hin'. apply in_map_iff in Hin. destruct Hin as (col & E & _).
  injection E as <- <-. apply in_flat_map in Hin'.
  destruct Hin' as (row' & Hrow' & Hin'). apply in_map_iff in Hin'.
  destruct Hin' as (col' & E & _). injection E as <- _. contradiction.
Qed.

Lemma selectionCells_spec range r c :
  In (r, c) (selectionCells range) <-> inRange range r c = true.
Proof.
  unfold selectionCells, inRange. rewrite in_flat_map. split.
  - intros (row & Hrow & Hin). apply in_map_iff in Hin.
    destruct Hin as (col & E & Hcol). injection E as -> ->.
    apply in_seq in Hrow, Hcol.
    repeat (apply andb_true_intro; split); apply Nat.leb_le; lia.
  - intros H. repeat (apply andb_prop in H; destruct H as [H ?]).
    repeat match goal with H : (_ <=? _) = true |- _ => apply Nat.leb_le in H end.
    exists r. split; [apply in_seq; lia|].
    apply in_map_iff. exists c. split; [reflexivity|apply in_seq; lia].
Qed.

Lemma selectionCells_NoDup range : NoDup (selectionCells range).
Proof. unfold selectionCells. apply NoDup_rows; apply seq_NoDup. Qed.

(** X19.  [applyStyleToSelection] changes the cells of the selected
    rectangle and no other: when it returns, every cell between the two
    corners, in whatever order the corners are, holds the style merged from
    the style it had before, and every cell outside holds the style it had;
    without a selection nothing changes. *)
Theorem selection_changes_only_the_range (range : selectedRange) (updates : jsobject)
        (styles styles' : styleStore) :
  applyStyleToSelection (Some range) updates styles = Ok styles' ->
  (forall r c, inRange range r c = true ->
     exists merged, selectionStyle (styles r c) updates = Ok merged /\
                    styles' r c = Some merged) /\
  (forall r c, inRange range r c = false -> styles' r c = styles r c) /\
  applyStyleToSelection None updates styles = Ok styles.
Proof.
  intros H. cbn [applyStyleToSelection] in H.
  pose proof (selection_fold (selectionCells range) updates styles styles'
                (selectionCells_NoDup range) H) as F.
  split; [|split; [|reflexivity]].
  - intros r c Hin. apply (proj1 (F r c)). apply selectionCells_spec. exact Hin.
  - intros r c Hout. apply (proj2 (F r c)). intros Hin.
    apply selectionCells_spec in Hin. congruence.
Qed.

Lemma selection_changes_only_the_range_witness :
  (forall r c, inRange sampleRange r c = true ->
     exists merged, selectionStyle (sampleStyles r c) sampleUpdates = Ok merged /\
                    restyled r c = Some merged) /\
  (forall r c, inRange sampleRange r c = false -> restyled r c = sampleStyles r c) /\
  applyStyleToSelection None sampleUpdates sampleStyles = Ok sampleStyles.
Proof.
  apply (selection_changes_only_the_range sampleRange sampleUpdates sampleStyles restyled).
  reflexivity.
Defined.

(* ----------------------------------------------------------------- *)
(** ** The two encoders *)

Lemma xlsx_color_declaration (prop : jsstring) (c : xlsxColor) :
  match xlsxColorToCSS (Some c) with
  | Some css => if truthy css then [prop ++ str ": " ++ css] else []
  | None => []
  end
  = colorDeclaration prop (argbOf (Some (asExcelColor c))).
Proof.
  unfold xlsxColorToCSS, argbOf, asExcelColor, colorDeclaration. cbn [argb].
  destruct (orElse (rgb c) (RGB c)) as [v|]; [|reflexivity].
  cbn [textOrEmpty]. destruct v as [|a v']; [reflexivity|].
  cbn [truthy negb]. unfold excelColorToCss. cbn [truthy negb].
  destruct (length (a :: v') =? 8) eqn:E; [|reflexivity].
  apply Nat.eqb_eq in E.
  destruct v' as [|b [|c0 [|d [|e [|f [|g [|h [|]]]]]]]]; try discriminate E.
  reflexivity.
Qed.

(** X20.  The encoder of the xlsx variant and the encoder of the ExcelJS
    variant write the same style string: [styleObjectToCss] of a style is
    [excelCellStyleToCss] of the same font, with the colour string of [rgb]
    or [RGB] as [argb], and of a pattern fill with the colour object
    [fill.fgColor || fill.bgColor]; an exception of the one is an exception
    of the other. *)
Theorem style_encoders_agree (st : xlsxStyle) :
  styleObjectToCss (Some st)
  = excelCellStyleToCss (option_map asExcelFont (font st))
                        (option_map asCellFill (fill st)).
Proof.
  unfold styleObjectToCss, excelCellStyleToCss.
  assert (Hfill :
    match fill st with
    | Some fl =>
        match (match fgColor fl with Some c => Some c | None => bgColor fl end) with
        | Some c =>
            match xlsxColorToCSS (Some c) with
            | Some bg => if truthy bg then [str "background-color: " ++ bg] else []
            | None => []
            end
        | None => []
        end
    | None => []
    end
    = match option_map asCellFill (fill st) with
      | Some fl =>
          if jsstring_eqb (cfill_type fl) (str "pattern") then
            colorDeclaration (str "background-color")
              (match argbOf (cfill_fgColor fl) with
               | Some fg => Some fg
               | None => argbOf (cfill_bgColor fl)
               end)
          else []
      | None => []
      end).
  { destruct (fill st) as [fl|]; [|reflexivity].
    cbn [option_map asCellFill cfill_type cfill_fgColor cfill_bgColor].
    change (jsstring_eqb (str "pattern") (str "pattern")) with true. cbv iota.
    destruct (match fgColor fl with Some c => Some c | None => bgColor fl end) as [c|].
    - cbn [option_map].
      assert (Hfirst : match argbOf (Some (asExcelColor c)) with
                       | Some fg => Some fg
                       | None => argbOf None
                       end = argbOf (Some (asExcelColor c)))
        by (destruct (argbOf (Some (asExcelColor c))); reflexivity).
      rewrite Hfirst. exact (xlsx_color_declaration (str "background-color") c).
    - reflexivity. }
  cbv zeta. rewrite Hfill.
  destruct (font st) as [f|]; [|reflexivity].
  cbn [option_map asExcelFont efont_color efont_name efont_size efont_bold efont_italic].
  assert (Hcolor :
    match font_color f with
    | Some (Some c) =>
        match xlsxColorToCSS (Some c) with
        | Some css => if truthy css then [str "color: " ++ css] else []
        | None => []
        end
    | _ => []
    end
    = colorDeclaration (str "color")
        (argbOf match font_color f with
                | Some (Some c) => Some (asExcelColor c)
                | _ => None
                end)).
  { destruct (font_color f) as [[c|]|]; try reflexivity.
    exact (xlsx_color_declaration (str "color") c). }
  rewrite Hcolor. reflexivity.
Qed.
